(** * iwopy.core.function_list: a shallow embedding of [OptFunctionList]

    The class manages the variables and the components of a list of
    optimisation functions.  The embedding follows
    [iwopy/core/function_list.py] statement by statement: Python lists are
    Rocq lists, numpy vectors are lists of an abstract float type with a
    distinguished [nan], exceptions are an error monad, and the mutable
    object [self] is passed explicitly. *)

From Stdlib Require Import String ZArith Lia Bool Arith PeanoNat List Sorted.
From Stdlib Require PrimFloat.
Import ListNotations.

Set Implicit Arguments.

(** ** Python and numpy primitives *)

Module Py.

(** The exceptions the modelled code can raise. *)
Inductive exn : Type :=
| ValueError (msg : string)
| IndexError
| TypeError.

(** A computation that returns a value or raises. *)
Inductive res (A : Type) : Type :=
| Ok (a : A)
| Raise (e : exn).

Arguments Ok {A} a.
Arguments Raise {A} e.

Definition bind {A B : Type} (c : res A) (k : A -> res B) : res B :=
  match c with
  | Ok a => k a
  | Raise e => Raise e
  end.

Declare Scope py_scope.
Delimit Scope py_scope with py.
Notation "x <- c ;; k" := (bind c (fun x => k))
  (at level 61, c at next level, right associativity) : py_scope.
Notation "' pat <- c ;; k" := (bind c (fun x => match x with pat => k end))
  (at level 61, pat pattern, c at next level, right associativity) : py_scope.

Local Open Scope py_scope.

(** A list comprehension whose element expression may raise. *)
Fixpoint comprehension {A B : Type} (f : A -> res B) (l : list A)
  : res (list B) :=
  match l with
  | [] => Ok []
  | a :: l' => b <- f a ;; bs <- comprehension f l' ;; Ok (b :: bs)
  end.

(** [l.index(v)]: the position of the first occurrence, [ValueError]
    when there is none. *)
Fixpoint index_from (v : string) (l : list string) (i : nat) : res nat :=
  match l with
  | [] => Raise (ValueError "is not in list")
  | x :: l' => if String.eqb x v then Ok i else index_from v l' (S i)
  end.

Definition index (l : list string) (v : string) : res nat :=
  index_from v l 0.

(** [l.index(n)] on a list of integers. *)
Fixpoint index_nat_from (n : nat) (l : list nat) (i : nat) : res nat :=
  match l with
  | [] => Raise (ValueError "is not in list")
  | x :: l' => if Nat.eqb x n then Ok i else index_nat_from n l' (S i)
  end.

Definition index_nat (l : list nat) (n : nat) : res nat :=
  index_nat_from n l 0.

(** [n in l] on a list of integers. *)
Definition contains (l : list nat) (n : nat) : bool :=
  existsb (Nat.eqb n) l.

(** [l[i]] for a non-negative [i]. *)
Definition getitem {A : Type} (l : list A) (i : nat) : res A :=
  match nth_error l i with
  | Some a => Ok a
  | None => Raise IndexError
  end.

(** [l[-1]]. *)
Fixpoint getlast {A : Type} (l : list A) : res A :=
  match l with
  | [] => Raise IndexError
  | [a] => Ok a
  | _ :: l' => getlast l'
  end.

(** [list(range(a, b))]. *)
Definition range (a b : nat) : list nat := seq a (b - a).

(** [enumerate(l)]. *)
Definition enumerate {A : Type} (l : list A) : list (nat * A) :=
  combine (seq 0 (length l)) l.

(** [list(dict.fromkeys(l))]: a dict keeps its keys in insertion order,
    and inserting a key that is already present leaves its place alone. *)
Definition dict_insert (d : list string) (k : string) : list string :=
  if existsb (String.eqb k) d then d else d ++ [k].

Definition dict_fromkeys (l : list string) : list string :=
  fold_left dict_insert l [].

(** [sum(l)]. *)
Definition sum (l : list nat) : nat := fold_left Nat.add l 0.

(** What a numpy vector can be indexed with here: a slice [np.s_[a:b]]
    or a list of positions. *)
Inductive indexer : Type :=
| Slice (start stop : nat)
| Positions (l : list nat).

(** [list(ix)]: a slice object is not iterable. *)
Definition list_of (ix : indexer) : res (list nat) :=
  match ix with
  | Slice _ _ => Raise TypeError
  | Positions l => Ok l
  end.

(** [data[i0:i1]] for non-negative bounds: clipped, never raises. *)
Definition slice {A : Type} (data : list A) (i0 i1 : nat) : list A :=
  firstn (i1 - i0) (skipn i0 data).

(** [arr[ix]] on a one-axis array: basic slicing, or integer-array
    indexing, which raises [IndexError] out of bounds. *)
Definition take {A : Type} (arr : list A) (ix : indexer) : res (list A) :=
  match ix with
  | Slice a b => Ok (slice arr a b)
  | Positions l => comprehension (getitem arr) l
  end.

(** [arr[c0:c1] = src]: the slice is clipped to the array; [src] must
    have the length of the slice or length one (broadcast). *)
Definition setslice {A : Type} (arr : list A) (c0 c1 : nat) (src : list A)
  : res (list A) :=
  let n := length arr in
  let lo := Nat.min c0 n in
  let hi := Nat.max lo (Nat.min c1 n) in
  let k := hi - lo in
  if Nat.eqb (length src) k then
    Ok (firstn lo arr ++ src ++ skipn hi arr)
  else
    match src with
    | [x] => Ok (firstn lo arr ++ repeat x k ++ skipn hi arr)
    | _ => Raise (ValueError "could not broadcast input array")
    end.

(** [np.full(n, x)]. *)
Definition full {A : Type} (n : nat) (x : A) : list A := repeat x n.

End Py.

Import Py.
Local Open Scope py_scope.

(** ** Arrays of two axes *)

Module Np.

(** An array of shape [(shape0, shape1)], given by its rows.  The rows
    alone do not tell the second extent of an array without rows, so
    the shape is kept beside them. *)
Record array (A : Type) : Type := {
  shape0 : nat;
  shape1 : nat;
  rows : list (list A)
}.

Arguments shape0 {A} a.
Arguments shape1 {A} a.
Arguments rows {A} a.

(** The rows agree with the shape. *)
Definition well_formed {A : Type} (a : array A) : Prop :=
  length (rows a) = shape0 a
  /\ Forall (fun r => length r = shape1 a) (rows a).

(** [np.full((n, m), x)]. *)
Definition full {A : Type} (n m : nat) (x : A) : array A :=
  {| shape0 := n; shape1 := m; rows := repeat (repeat x m) n |}.

(** [arr[:, ix]]: basic slicing of the second axis, or integer-array
    indexing of it, which raises [IndexError] for a position outside
    the second extent. *)
Definition take_columns {A : Type} (arr : array A) (ix : indexer)
  : res (array A) :=
  match ix with
  | Slice a b =>
      Ok {| shape0 := shape0 arr;
            shape1 := Nat.min b (shape1 arr) - Nat.min a (shape1 arr);
            rows := map (fun r => slice r a b) (rows arr) |}
  | Positions l =>
      if forallb (fun i => Nat.ltb i (shape1 arr)) l then
        rs <- comprehension (fun r => comprehension (getitem r) l)
                (rows arr) ;;
        Ok {| shape0 := shape0 arr; shape1 := length l; rows := rs |}
      else Raise IndexError
  end.

(** [values[:, i0:i1] = src] for an array [src] of two axes: the slice
    is clipped to the second extent; each extent of [src] must be that
    of the slice or one (broadcast). *)
Definition set_columns {A : Type} (values : array A) (i0 i1 : nat)
  (src : array A) : res (array A) :=
  let m := shape1 values in
  let lo := Nat.min i0 m in
  let hi := Nat.max lo (Nat.min i1 m) in
  let k := hi - lo in
  if (Nat.eqb (shape0 src) (shape0 values) || Nat.eqb (shape0 src) 1)
     && (Nat.eqb (shape1 src) k || Nat.eqb (shape1 src) 1)
  then
    let stretch r :=
      if Nat.eqb (shape1 src) k then r
      else match r with
           | [x] => repeat x k
           | _ => r
           end in
    let src_rows :=
      if Nat.eqb (shape0 src) (shape0 values) then rows src
      else match rows src with
           | [r] => repeat r (shape0 values)
           | _ => rows src
           end in
    Ok {| shape0 := shape0 values;
          shape1 := m;
          rows :=
            map (fun vr => firstn lo (fst vr) ++ stretch (snd vr)
                             ++ skipn hi (fst vr))
              (combine (rows values) src_rows) |}
  else Raise (ValueError "could not broadcast input array").

End Np.

(** ** The collaborators of the function list *)

Module Problem.

(** Modelled from the spec: [iwopy.Problem] is not part of the sources.
    Of a problem the function list uses its identity (the [is not] test
    of [append]) and its name (in the error message), so a problem is an
    object identity with a name. *)
Record t : Type := { id : nat; name : string }.

(** [p is q]. *)
Definition is_ (p q : t) : bool := Nat.eqb (id p) (id q).

End Problem.

Module OptFunction.

Section Float.

(** The float type of the component values and the type of the
    problem results, both opaque to the function list. *)
Variables F PR : Type.

(** Modelled from the spec: the base class [iwopy.core.OptFunction]
    ([function.py]) is not part of the sources.  These are the
    attributes and operations the function list consumes from each
    added function; an operation returns a vector or raises. *)
Record t : Type := {
  name : string;
  problem : Problem.t;
  component_names : list string;
  var_names_int : list string;
  var_names_float : list string;
  initialized : bool;
  n_components : nat;
  calc_individual : list Z -> list F -> PR -> res (list F);
  ana_deriv : list Z -> list F -> nat -> option (list Z) -> res (list F)
}.

(** Modelled from the spec: [f.initialize(verbosity)] of the base
    class, which triggers the initialization and has no other effect
    the function list relies on: the flag is set, the declared
    metadata stays. *)
Definition initialize (verbosity : nat) (f : t) : t :=
  {| name := name f;
     problem := problem f;
     component_names := component_names f;
     var_names_int := var_names_int f;
     var_names_float := var_names_float f;
     initialized := true;
     n_components := n_components f;
     calc_individual := calc_individual f;
     ana_deriv := ana_deriv f |}.

End Float.

End OptFunction.

(** ** The function list *)

Module OptFunctionList.

Section Float.

Variables F PR : Type.

(** [numpy.nan]. *)
Variable nan : F.

Abbreviation func := (OptFunction.t F PR).

(** The attributes of [self]; [name], [problem] and [initialized] are
    those of the base class. *)
Record t : Type := {
  name : string;
  problem : Problem.t;
  initialized : bool;
  _functions : list func;
  _cnames : list string;
  func_vars_int : list indexer;
  func_vars_float : list indexer;
  sizes : list nat;
  _vnamesi : list string;
  _vnamesf : list string
}.

(** [__init__(self, problem, name)]. *)
Definition init (problem : Problem.t) (name : string) : t :=
  {| name := name;
     problem := problem;
     initialized := false;
     _functions := [];
     _cnames := [];
     func_vars_int := [];
     func_vars_float := [];
     sizes := [];
     _vnamesi := [];
     _vnamesf := [] |}.

(** The two messages of [append]. *)
Definition msg_initialized (self : t) (function : func) : string :=
  ("FunctionList '" ++ name self ++ "': Attempt to add function '"
     ++ OptFunction.name function ++ "' after initialization")%string.

Definition msg_problem (self : t) (function : func) : string :=
  ("FunctionList '" ++ name self ++ "': Cannot add function '"
     ++ OptFunction.name function
     ++ "' since problems don't match. Expected '"
     ++ Problem.name (problem self) ++ "', found '"
     ++ Problem.name (OptFunction.problem function) ++ "'")%string.

(** [append(self, function)]: what the call returns or raises, and
    [self] as the call leaves it. *)
Definition append (function : func) (self : t) : res unit * t :=
  if initialized self then
    (Raise (ValueError (msg_initialized self function)), self)
  else if negb (Problem.is_ (OptFunction.problem function) (problem self))
  then
    (Raise (ValueError (msg_problem self function)), self)
  else
    let self1 :=
      {| name := name self;
         problem := problem self;
         initialized := initialized self;
         _functions := _functions self ++ [function];
         _cnames := _cnames self;
         func_vars_int := func_vars_int self;
         func_vars_float := func_vars_float self;
         sizes := sizes self;
         _vnamesi := _vnamesi self;
         _vnamesf := _vnamesf self |} in
    let self2 :=
      {| name := name self1;
         problem := problem self1;
         initialized := initialized self1;
         _functions := _functions self1;
         _cnames := _cnames self1 ++ OptFunction.component_names function;
         func_vars_int := func_vars_int self1;
         func_vars_float := func_vars_float self1;
         sizes := sizes self1;
         _vnamesi := _vnamesi self1;
         _vnamesf := _vnamesf self1 |} in
    (Ok tt, self2).

(** The properties [functions] and [n_functions]. *)
Definition functions (self : t) : list func := _functions self.

Definition n_functions (self : t) : nat := length (functions self).

(** The local function [getv] of [initialize]. *)
Definition getv (vnames fvnames : list string) : res indexer :=
  if Nat.eqb (length fvnames) 0 then Ok (Positions [])
  else
    l <- comprehension (index vnames) fvnames ;;
    l0 <- getitem l 0 ;;
    l1 <- getlast l ;;
    if list_eq_dec Nat.eq_dec (range l0 l1) l
    then Ok (Slice l0 l1)
    else Ok (Positions l).

(** The state of the first loop of [initialize]: the functions seen
    so far (initialized), the two name lists and the sizes. *)
Record gathered : Type := {
  g_functions : list func;
  g_vnamesi : list string;
  g_vnamesf : list string;
  g_sizes : list nat
}.

Definition gather (verbosity : nat) (g : gathered) (f : func)
  : gathered :=
  let f' :=
    if negb (OptFunction.initialized f)
    then OptFunction.initialize verbosity f
    else f in
  {| g_functions := g_functions g ++ [f'];
     g_vnamesi := g_vnamesi g ++ OptFunction.var_names_int f';
     g_vnamesf := g_vnamesf g ++ OptFunction.var_names_float f';
     g_sizes := g_sizes g ++ [OptFunction.n_components f'] |}.

(** [initialize(self, verbosity)].  The last step is the base class's
    [initialize]; modelled from the spec (it marks the object
    initialized), the base class not being part of the sources. *)
Definition initialize (verbosity : nat) (self : t) : res unit * t :=
  let g :=
    fold_left (gather verbosity) (functions self)
      {| g_functions := []; g_vnamesi := []; g_vnamesf := [];
         g_sizes := [] |} in
  let vnamesi := dict_fromkeys (g_vnamesi g) in
  let vnamesf := dict_fromkeys (g_vnamesf g) in
  let mk ini fvi fvf :=
    {| name := name self;
       problem := problem self;
       initialized := ini;
       _functions := g_functions g;
       _cnames := _cnames self;
       func_vars_int := fvi;
       func_vars_float := fvf;
       sizes := g_sizes g;
       _vnamesi := vnamesi;
       _vnamesf := vnamesf |} in
  match comprehension
          (fun f => getv vnamesi (OptFunction.var_names_int f))
          (g_functions g) with
  | Raise e =>
      (Raise e, mk (initialized self) (func_vars_int self)
                   (func_vars_float self))
  | Ok fvi =>
      match comprehension
              (fun f => getv vnamesf (OptFunction.var_names_float f))
              (g_functions g) with
      | Raise e =>
          (Raise e, mk (initialized self) fvi (func_vars_float self))
      | Ok fvf => (Ok tt, mk true fvi fvf)
      end
  end.

(** [n_components(self)]. *)
Definition n_components (self : t) : nat := sum (sizes self).

(** The loop of [split_individual] and [split_population]: [cut i0 i1] is
    the piece [data[i0:i1]] or [data[:, i0:i1]]. *)
Fixpoint split_loop {A : Type} (self : t) (cut : nat -> nat -> A)
  (fis : list nat) (i0 : nat) (out : list A) : res (list A) :=
  match fis with
  | [] => Ok out
  | fi :: fis' =>
      s <- getitem (sizes self) fi ;;
      let i1 := i0 + s in
      split_loop self cut fis' i1 (out ++ [cut i0 i1])
  end.

(** [split_individual(self, data)], [data] of shape [(n_components,)]. *)
Definition split_individual {A : Type} (self : t) (data : list A)
  : res (list (list A)) :=
  split_loop self (slice data) (range 0 (n_functions self)) 0 [].

(** [split_population(self, data)], [data] of shape
    [(n_pop, n_components)], given as the list of its rows. *)
Definition split_population {A : Type} (self : t) (data : list (list A))
  : res (list (list (list A))) :=
  split_loop self (fun i0 i1 => map (fun row => slice row i0 i1) data)
    (range 0 (n_functions self)) 0 [].

(** The loop of [calc_individual].  Besides [values] the loop state keeps
    the slices [(i0, i1)] assigned so far, which the code does not store;
    they only record where the loop wrote. *)
Fixpoint calc_loop (self : t) (vars_int : list Z) (vars_float : list F)
  (problem_results : PR) (fs : list (nat * func)) (i0 : nat)
  (values : list F) (written : list (nat * nat))
  : res (list F * list (nat * nat)) :=
  match fs with
  | [] => Ok (values, written)
  | (fi, f) :: fs' =>
      s <- getitem (sizes self) fi ;;
      let i1 := i0 + s in
      ixi <- getitem (func_vars_int self) fi ;;
      varsi <- take vars_int ixi ;;
      ixf <- getitem (func_vars_float self) fi ;;
      varsf <- take vars_float ixf ;;
      r <- OptFunction.calc_individual f varsi varsf problem_results ;;
      values' <- setslice values i0 i1 r ;;
      calc_loop self vars_int vars_float problem_results fs' i1 values'
        (written ++ [(i0, i1)])
  end.

Definition calc_individual_written (self : t) (vars_int : list Z)
  (vars_float : list F) (problem_results : PR)
  : res (list F * list (nat * nat)) :=
  let values := full (n_components self) nan in
  calc_loop self vars_int vars_float problem_results
    (enumerate (functions self)) 0 values [].

(** [calc_individual(self, vars_int, vars_float, problem_results)]. *)
Definition calc_individual (self : t) (vars_int : list Z)
  (vars_float : list F) (problem_results : PR) : res (list F) :=
  ' (values, _) <-
    calc_individual_written self vars_int vars_float problem_results ;;
  Ok values.

(** One entry of [cmpnts] in [ana_deriv]: [list(range(i0, i1))] when
    [components] is [None], else
    [[c for c in components if c >= i0 and c < i1]]. *)
Definition select (components : option (list Z)) (i0 i1 : nat) : list Z :=
  match components with
  | None => map Z.of_nat (range i0 i1)
  | Some cs =>
      filter (fun c => Z.leb (Z.of_nat i0) c && Z.ltb c (Z.of_nat i1)) cs
  end.

(** The first loop of [ana_deriv], over [enumerate(self.sizes)]. *)
Fixpoint cmpnts_loop (components : option (list Z)) (ss : list (nat * nat))
  (i0 : nat) (cmpnts : list (list Z)) : list (list Z) :=
  match ss with
  | [] => cmpnts
  | (_, s) :: ss' =>
      let i1 := i0 + s in
      cmpnts_loop components ss' i1 (cmpnts ++ [select components i0 i1])
  end.

(** A call [f.ana_deriv(varsi, varsf, vi, components=cs)] made on the
    function at position [fi]. *)
Record call : Type := {
  call_fi : nat;
  call_varsi : list Z;
  call_varsf : list F;
  call_vi : nat;
  call_components : list Z
}.

(** The second loop of [ana_deriv].  Besides [deriv] the loop state keeps
    the calls made so far, which the code does not store. *)
Fixpoint deriv_loop (self : t) (vars_int : list Z) (vars_float : list F)
  (var : nat) (cmpnts : list (list Z)) (fs : list (nat * func))
  (i0 c0 : nat) (deriv : list F) (calls : list call)
  : res (list F * list call) :=
  match fs with
  | [] => Ok (deriv, calls)
  | (fi, f) :: fs' =>
      s <- getitem (sizes self) fi ;;
      let i1 := i0 + s in
      cs <- getitem cmpnts fi ;;
      let c1 := c0 + length cs in
      depends <-
        (if Nat.ltb c0 c1 then
           ixf <- getitem (func_vars_float self) fi ;;
           l <- list_of ixf ;;
           Ok (contains l var)
         else Ok false) ;;
      if (depends : bool) then
        ixi <- getitem (func_vars_int self) fi ;;
        varsi <- take vars_int ixi ;;
        ixf <- getitem (func_vars_float self) fi ;;
        varsf <- take vars_float ixf ;;
        l <- list_of ixf ;;
        vi <- index_nat l var ;;
        r <- OptFunction.ana_deriv f varsi varsf vi (Some cs) ;;
        deriv' <- setslice deriv c0 c1 r ;;
        deriv_loop self vars_int vars_float var cmpnts fs' i1 c1 deriv'
          (calls ++ [{| call_fi := fi; call_varsi := varsi;
                        call_varsf := varsf; call_vi := vi;
                        call_components := cs |}])
      else
        deriv_loop self vars_int vars_float var cmpnts fs' i1 c1 deriv calls
  end.

Definition ana_deriv_calls (self : t) (vars_int : list Z)
  (vars_float : list F) (var : nat) (components : option (list Z))
  : res (list F * list call) :=
  let cmpnts := cmpnts_loop components (enumerate (sizes self)) 0 [] in
  let n_cmpnts :=
    match components with
    | Some cs => length cs
    | None => n_components self
    end in
  let deriv := full n_cmpnts nan in
  deriv_loop self vars_int vars_float var cmpnts
    (enumerate (functions self)) 0 0 deriv [].

(** [ana_deriv(self, vars_int, vars_float, var, components=None)]. *)
Definition ana_deriv (self : t) (vars_int : list Z) (vars_float : list F)
  (var : nat) (components : option (list Z)) : res (list F) :=
  ' (deriv, _) <- ana_deriv_calls self vars_int vars_float var components ;;
  Ok deriv.

(** Modelled from the spec: the function list is itself a function (its
    class derives from the base class, which is not part of the sources,
    and the list exposes the same evaluation and derivative contract, so
    that lists can be nested).  The function a list is for another list:
    its names are the registries and the component names of the list, its
    operations those of the list. *)
Definition as_function (self : t) : func :=
  {| OptFunction.name := name self;
     OptFunction.problem := problem self;
     OptFunction.component_names := _cnames self;
     OptFunction.var_names_int := _vnamesi self;
     OptFunction.var_names_float := _vnamesf self;
     OptFunction.initialized := initialized self;
     OptFunction.n_components := n_components self;
     OptFunction.calc_individual := calc_individual self;
     OptFunction.ana_deriv := ana_deriv self |}.

(** Modelled from the spec: the remaining operations of the base class
    [iwopy.core.OptFunction], which is not part of the sources.  They
    are methods of the added functions, so each is given as a function of
    the object it is called on; an operation returns an array or
    raises. *)
Variable function_finalize_individual :
  func -> list Z -> list F -> PR -> nat -> res (list F).

Variable function_calc_population :
  func -> Np.array Z -> Np.array F -> PR -> res (Np.array F).

Variable function_finalize_population :
  func -> Np.array Z -> Np.array F -> PR -> nat -> res (Np.array F).

(** The loop of [finalize_individual]. *)
Fixpoint finalize_loop (self : t) (vars_int : list Z) (vars_float : list F)
  (problem_results : PR) (verbosity : nat) (fs : list (nat * func))
  (i0 : nat) (values : list F) : res (list F) :=
  match fs with
  | [] => Ok values
  | (fi, f) :: fs' =>
      s <- getitem (sizes self) fi ;;
      let i1 := i0 + s in
      ixi <- getitem (func_vars_int self) fi ;;
      varsi <- take vars_int ixi ;;
      ixf <- getitem (func_vars_float self) fi ;;
      varsf <- take vars_float ixf ;;
      r <- function_finalize_individual f varsi varsf problem_results
             verbosity ;;
      values' <- setslice values i0 i1 r ;;
      finalize_loop self vars_int vars_float problem_results verbosity fs'
        i1 values'
  end.

(** [finalize_individual(self, vars_int, vars_float, problem_results,
    verbosity=1)]. *)
Definition finalize_individual (self : t) (vars_int : list Z)
  (vars_float : list F) (problem_results : PR) (verbosity : nat)
  : res (list F) :=
  let values := full (n_components self) nan in
  finalize_loop self vars_int vars_float problem_results verbosity
    (enumerate (functions self)) 0 values.

(** The loop of [calc_population] and of [finalize_population], which
    differ only in the method they call on each function; [call] is this
    method, with the results of the problem (and the verbosity) already
    passed. *)
Fixpoint population_loop
  (call : func -> Np.array Z -> Np.array F -> res (Np.array F))
  (self : t) (vars_int : Np.array Z) (vars_float : Np.array F)
  (fs : list (nat * func)) (i0 : nat) (values : Np.array F)
  : res (Np.array F) :=
  match fs with
  | [] => Ok values
  | (fi, f) :: fs' =>
      s <- getitem (sizes self) fi ;;
      let i1 := i0 + s in
      ixi <- getitem (func_vars_int self) fi ;;
      varsi <- Np.take_columns vars_int ixi ;;
      ixf <- getitem (func_vars_float self) fi ;;
      varsf <- Np.take_columns vars_float ixf ;;
      r <- call f varsi varsf ;;
      values' <- Np.set_columns values i0 i1 r ;;
      population_loop call self vars_int vars_float fs' i1 values'
  end.

(** [calc_population(self, vars_int, vars_float, problem_results)]. *)
Definition calc_population (self : t) (vars_int : Np.array Z)
  (vars_float : Np.array F) (problem_results : PR) : res (Np.array F) :=
  let n_pop := Np.shape0 vars_float in
  let values := Np.full n_pop (n_components self) nan in
  population_loop
    (fun f varsi varsf =>
       function_calc_population f varsi varsf problem_results)
    self vars_int vars_float (enumerate (functions self)) 0 values.

(** [finalize_population(self, vars_int, vars_float, problem_results,
    verbosity=1)]. *)
Definition finalize_population (self : t) (vars_int : Np.array Z)
  (vars_float : Np.array F) (problem_results : PR) (verbosity : nat)
  : res (Np.array F) :=
  let n_pop := Np.shape0 vars_float in
  let values := Np.full n_pop (n_components self) nan in
  population_loop
    (fun f varsi varsf =>
       function_finalize_population f varsi varsf problem_results
         verbosity)
    self vars_int vars_float (enumerate (functions self)) 0 values.

End Float.

End OptFunctionList.

(** ** Notions of the specification *)

Module Spec.

(** Removing duplicates while keeping the first-seen order: the head
    stays, and is struck from the de-duplicated tail. *)
Fixpoint dedup (l : list string) : list string :=
  match l with
  | [] => []
  | x :: l' => x :: filter (fun y => negb (String.eqb x y)) (dedup l')
  end.

(** [y] is not among the keys [acc]. *)
Definition fresh_for (acc : list string) (y : string) : bool :=
  negb (existsb (String.eqb y) acc).

(** The position of the first occurrence of [v] in [l] (the length of [l]
    when there is none). *)
Fixpoint position (l : list string) (v : string) : nat :=
  match l with
  | [] => 0
  | x :: l' => if String.eqb x v then 0 else S (position l' v)
  end.

(** The rank of [n] in a list of positions. *)
Fixpoint rank (l : list nat) (n : nat) : nat :=
  match l with
  | [] => 0
  | x :: l' => if Nat.eqb x n then 0 else S (rank l' n)
  end.

(** A strictly increasing run of consecutive integers. *)
Definition consecutive_run (l : list nat) : Prop :=
  l = seq (hd 0 l) (length l).

(** The offset ranges [(start, stop)] a ledger of sizes defines, from
    [i0] on. *)
Fixpoint offsets (i0 : nat) (sizes : list nat) : list (nat * nat) :=
  match sizes with
  | [] => []
  | s :: sizes' => (i0, i0 + s) :: offsets (i0 + s) sizes'
  end.

(** [k] lies in the range [r]. *)
Definition within (k : nat) (r : nat * nat) : bool :=
  Nat.leb (fst r) k && Nat.ltb k (snd r).

(** The component [c] lies in the range [r]. *)
Definition owns (r : nat * nat) (c : Z) : bool :=
  Z.leb (Z.of_nat (fst r)) c && Z.ltb c (Z.of_nat (snd r)).

(** Concatenation of two-axis pieces of [n_pop] rows along the second
    axis. *)
Definition hstack {A : Type} (n_pop : nat) (pieces : list (list (list A)))
  : list (list A) :=
  fold_right
    (fun piece acc => map (fun rs => fst rs ++ snd rs) (combine piece acc))
    (repeat [] n_pop) pieces.

(** [sub] occurs in [s]. *)
Definition occurs_in (sub s : string) : Prop :=
  exists pre post : string, s = (pre ++ sub ++ post)%string.

(** The positions of the names [fvnames] in the registry [vnames]. *)
Definition positions (vnames fvnames : list string) : list nat :=
  map (position vnames) fvnames.

(** The local vector of a function declaring the names [fvnames], cut
    from the vector [vals] in the order of the registry [vnames]: the
    values at the registry positions of the declared names, in the
    declared order ([d] stands for a value that is missing). *)
Definition local_vector {A : Type} (d : A) (vnames : list string)
  (vals : list A) (fvnames : list string) : list A :=
  map (fun v => nth (position vnames v) vals d) fvnames.

Section Float.

Variables F PR : Type.

(** A function as the first loop of [initialize] leaves it. *)
Definition ready (verbosity : nat) (f : OptFunction.t F PR)
  : OptFunction.t F PR :=
  if OptFunction.initialized f then f
  else OptFunction.initialize verbosity f.

(** The registry, the ledger and the index mappings of a function list
    with the functions [fs], as the specification describes them, every
    index mapping being kept as the explicit list of positions. *)
Definition registry_int (fs : list (OptFunction.t F PR)) : list string :=
  dedup (concat (map (@OptFunction.var_names_int F PR) fs)).

Definition registry_float (fs : list (OptFunction.t F PR)) : list string :=
  dedup (concat (map (@OptFunction.var_names_float F PR) fs)).

Definition ledger (fs : list (OptFunction.t F PR)) : list nat :=
  map (@OptFunction.n_components F PR) fs.

Definition compiled (verbosity : nat) (self : OptFunctionList.t F PR)
  : OptFunctionList.t F PR :=
  let fs := map (ready verbosity) (OptFunctionList.functions self) in
  {| OptFunctionList.name := OptFunctionList.name self;
     OptFunctionList.problem := OptFunctionList.problem self;
     OptFunctionList.initialized := true;
     OptFunctionList._functions := fs;
     OptFunctionList._cnames := OptFunctionList._cnames self;
     OptFunctionList.func_vars_int :=
       map (fun f => Positions
                       (positions (registry_int fs)
                          (OptFunction.var_names_int f))) fs;
     OptFunctionList.func_vars_float :=
       map (fun f => Positions
                       (positions (registry_float fs)
                          (OptFunction.var_names_float f))) fs;
     OptFunctionList.sizes := ledger fs;
     OptFunctionList._vnamesi := registry_int fs;
     OptFunctionList._vnamesf := registry_float fs |}.

End Float.

(** The component selection of [ana_deriv], function by function: the
    entry of a function is what [select] keeps for its offset range. *)
Definition selection (components : option (list Z)) (sizes : list nat)
  : list (list Z) :=
  map (fun r => OptFunctionList.select components (fst r) (snd r))
    (offsets 0 sizes).

(** The order in which the output of [ana_deriv] lists the requested
    components: grouped by function, in registration order. *)
Definition layout (components : list Z) (sizes : list nat) : list Z :=
  concat (selection (Some components) sizes).

(** The listed components that lie in the ranges of [sizes] from [i0]
    on, range by range, those of one range in the listed order. *)
Definition layout_from (i0 : nat) (sizes : list nat) (components : list Z)
  : list Z :=
  concat (map (fun r => filter (owns r) components) (offsets i0 sizes)).

(** The position of the function that owns the component [c], the
    ranges of the functions being those of [sizes] from [i0] on; the
    number of functions when [c] lies in no range. *)
Fixpoint owner (i0 : nat) (sizes : list nat) (c : Z) : nat :=
  match sizes with
  | [] => 0
  | s :: sizes' =>
      if owns (i0, i0 + s) c then 0 else S (owner (i0 + s) sizes' c)
  end.

(** What the caller lists at each position of [components], for a
    function list of [n] components: the listed component, or nothing
    where the listed index lies outside [0, n). *)
Definition requested (n : nat) (components : list Z) : list (option Z) :=
  map (fun c => if owns (0, n) c then Some c else None) components.

(** What each position of the output of [ana_deriv] stands for: the
    components of the layout, then nothing at the positions that are
    left. *)
Definition answered (components : list Z) (sizes : list nat)
  : list (option Z) :=
  map Some (layout components sizes)
    ++ repeat None (length components - length (layout components sizes)).

Section Derivative.

Variables F PR : Type.

Variable nan : F.

(** The registries and the variable vectors of a call. *)
Variables ri rf : list string.

Variables (vars_int : list Z) (vars_float : list F).

(** The float variable the derivative is taken for. *)
Variable var : nat.

(** [ana_deriv] delegates to the function [f] for the components [cs]:
    some component is requested from it and its float index mapping
    holds [var]. *)
Definition delegates (f : OptFunction.t F PR) (cs : list Z) : bool :=
  Nat.ltb 0 (length cs)
  && contains (positions rf (OptFunction.var_names_float f)) var.

(** The call [ana_deriv] makes on the function [f] at position [fi]. *)
Definition delegation (fi : nat) (f : OptFunction.t F PR) (cs : list Z)
  : OptFunctionList.call F :=
  {| OptFunctionList.call_fi := fi;
     OptFunctionList.call_varsi :=
       local_vector 0%Z ri vars_int (OptFunction.var_names_int f);
     OptFunctionList.call_varsf :=
       local_vector nan rf vars_float (OptFunction.var_names_float f);
     OptFunctionList.call_vi :=
       rank (positions rf (OptFunction.var_names_float f)) var;
     OptFunctionList.call_components := cs |}.

(** The calls made on the functions [fs], the first of which is at
    position [k], for the selections [css]. *)
Fixpoint delegated (k : nat) (fs : list (OptFunction.t F PR))
  (css : list (list Z)) : list (OptFunctionList.call F) :=
  match fs, css with
  | f :: fs', cs :: css' =>
      (if delegates f cs then [delegation k f cs] else [])
        ++ delegated (S k) fs' css'
  | _, _ => []
  end.

(** The block of the output that belongs to the function [f]: what [f]
    returns when [ana_deriv] delegates to it, and [nan]s otherwise. *)
Definition block (f : OptFunction.t F PR) (cs : list Z) : res (list F) :=
  if delegates f cs then
    OptFunction.ana_deriv f
      (local_vector 0%Z ri vars_int (OptFunction.var_names_int f))
      (local_vector nan rf vars_float (OptFunction.var_names_float f))
      (rank (positions rf (OptFunction.var_names_float f)) var)
      (Some cs)
  else Ok (repeat nan (length cs)).

(** The blocks [rs] of the functions [fs] for the selections [css], each
    function the derivative is delegated to returning one value per
    component requested from it. *)
Inductive blocks_of
  : list (OptFunction.t F PR) -> list (list Z) -> list (list F) -> Prop :=
| blocks_nil : blocks_of [] [] []
| blocks_cons (f : OptFunction.t F PR) (fs : list (OptFunction.t F PR))
    (cs : list Z) (css : list (list Z)) (r : list F) (rs : list (list F)) :
    block f cs = Ok r ->
    length r = length cs ->
    blocks_of fs css rs ->
    blocks_of (f :: fs) (cs :: css) (r :: rs).

End Derivative.

(** What an assignment to a slice of [n] entries stores when the
    right-hand side is the vector [r]: [r] itself when it has [n]
    entries, and its single entry [n] times when it has one. *)
Definition assigned {A : Type} (n : nat) (r out : list A) : Prop :=
  (length r = n /\ out = r) \/ (exists x, r = [x] /\ out = repeat x n).

(** Two arrays of rows side by side: each row of the first followed by
    the row of the second at the same place. *)
Definition happend {A : Type} (a b : list (list A)) : list (list A) :=
  map (fun rs => fst rs ++ snd rs) (combine a b).

End Spec.

Import Spec.

(** ** Concrete function lists *)

Module Demo.

Import PrimFloat.

Local Open Scope string_scope.

(** The problem all demo functions belong to, and a second problem of the
    same name. *)
Definition p : Problem.t := {| Problem.id := 0; Problem.name := "test" |}.

Definition p' : Problem.t := {| Problem.id := 1; Problem.name := "test" |}.

(** The derivative a demo function reports for the component [c]. *)
Definition slope (c : Z) : float :=
  if Z.eqb c 0 then 0.5%float
  else if Z.eqb c 1 then 1.5%float
  else if Z.eqb c 2 then 2.5%float
  else if Z.eqb c 3 then 3.5%float
  else 4.5%float.

(** A function of [n] components over the float variables [vf]: its values
    are the first [n] of its local variables, padded with zeros, and its
    derivatives are [slope] of the components it is asked for. *)
Definition leaf (pb : Problem.t) (name : string) (vf : list string) (n : nat)
  : OptFunction.t float unit :=
  {| OptFunction.name := name;
     OptFunction.problem := pb;
     OptFunction.component_names := map (fun _ => name) (seq 0 n);
     OptFunction.var_names_int := [];
     OptFunction.var_names_float := vf;
     OptFunction.initialized := false;
     OptFunction.n_components := n;
     OptFunction.calc_individual :=
       fun _ varsf _ => Ok (firstn n (varsf ++ repeat 0%float n));
     OptFunction.ana_deriv :=
       fun _ _ _ components =>
         Ok (map slope
               (match components with
                | Some cs => cs
                | None => map Z.of_nat (seq 0 n)
                end)) |}.

(** The function list over the functions [fs], before and after its
    initialization. *)
Definition registered (fs : list (OptFunction.t float unit))
  : OptFunctionList.t float unit :=
  fold_left (fun self f => snd (OptFunctionList.append f self)) fs
    (OptFunctionList.init float unit p "flist").

Definition build (fs : list (OptFunction.t float unit))
  : OptFunctionList.t float unit :=
  snd (OptFunctionList.initialize 0 (registered fs)).

(** The values of the float variables in the examples. *)
Definition ten : float := 10%float.

Definition twenty : float := 20%float.

Definition thirty : float := 30%float.

(** The functions of the examples. *)
Definition A_xz : OptFunction.t float unit := leaf p "A" ["x"; "z"] 1.

Definition A_x : OptFunction.t float unit := leaf p "A" ["x"] 1.

Definition A2_x : OptFunction.t float unit := leaf p "A" ["x"] 2.

Definition A_xy : OptFunction.t float unit := leaf p "A" ["x"; "y"] 1.

Definition B_y : OptFunction.t float unit := leaf p "B" ["y"] 2.

Definition C_yx : OptFunction.t float unit := leaf p "C" ["y"; "x"] 2.

Definition G_xy : OptFunction.t float unit := leaf p "G" ["x"; "y"] 1.

(** A function of another problem. *)
Definition stranger : OptFunction.t float unit := leaf p' "S" ["x"] 1.

(** A function as an initialized function list holds it. *)
Definition held (f : OptFunction.t float unit) : OptFunction.t float unit :=
  OptFunction.initialize 0 f.

(** Component boundaries [0,1), [1,3), [3,5); float registry [x; z; y]. *)
Definition abc : OptFunctionList.t float unit := build [A_xz; B_y; C_yx].

(** Float registry [x; y; z]; the second function declares [x; z], the
    third one [y]. *)
Definition xyz : OptFunctionList.t float unit := build [G_xy; A_xz; B_y].

(** [A] of one component over [x], [B] of two components over [y]. *)
Definition ab : OptFunctionList.t float unit := build [A_x; B_y].

(** One function over the float variables [x; y], whose registry
    positions [0; 1] are a consecutive run. *)
Definition xy : OptFunctionList.t float unit := build [A_xy].

(** One function of two components. *)
Definition single : OptFunctionList.t float unit := build [A2_x].

(** The list of [B] alone, and the list of [A] and of that list. *)
Definition b : OptFunctionList.t float unit := build [B_y].

Definition nested : OptFunctionList.t float unit :=
  build [A_x; OptFunctionList.as_function nan b].

(** A function of two components over [y] whose values are a vector of
    no entry, and one whose values are the single entry [y]. *)
Definition short : OptFunction.t float unit :=
  {| OptFunction.name := "short";
     OptFunction.problem := p;
     OptFunction.component_names := ["s0"; "s1"];
     OptFunction.var_names_int := [];
     OptFunction.var_names_float := ["y"];
     OptFunction.initialized := true;
     OptFunction.n_components := 2;
     OptFunction.calc_individual := fun _ _ _ => Ok [];
     OptFunction.ana_deriv := fun _ _ _ _ => Ok [] |}.

Definition single_valued : OptFunction.t float unit :=
  {| OptFunction.name := "single";
     OptFunction.problem := p;
     OptFunction.component_names := ["v0"; "v1"];
     OptFunction.var_names_int := [];
     OptFunction.var_names_float := ["y"];
     OptFunction.initialized := true;
     OptFunction.n_components := 2;
     OptFunction.calc_individual := fun _ varsf _ => Ok (firstn 1 varsf);
     OptFunction.ana_deriv := fun _ _ _ _ => Ok [] |}.

(** The finalization of a function that finalizes as it calculates. *)
Definition finalize_of (f : OptFunction.t float unit) (varsi : list Z)
  (varsf : list float) (problem_results : unit) (verbosity : nat)
  : res (list float) :=
  OptFunction.calc_individual f varsi varsf problem_results.

(** The calculation of a function for a population, row by row, and its
    finalization, which is its calculation. *)
Definition calc_population_of (f : OptFunction.t float unit)
  (varsi : Np.array Z) (varsf : Np.array float) (problem_results : unit)
  : res (Np.array float) :=
  rs <- comprehension
          (fun r => OptFunction.calc_individual f [] r problem_results)
          (Np.rows varsf) ;;
  Ok {| Np.shape0 := Np.shape0 varsf;
        Np.shape1 := OptFunction.n_components f;
        Np.rows := rs |}.

Definition finalize_population_of (f : OptFunction.t float unit)
  (varsi : Np.array Z) (varsf : Np.array float) (problem_results : unit)
  (verbosity : nat) : res (Np.array float) :=
  calc_population_of f varsi varsf problem_results.

(** Two individuals: no integer variables, and the float variables
    [x; y] with the values [10; 20] and [30; 10]. *)
Definition no_ints : Np.array Z :=
  {| Np.shape0 := 2; Np.shape1 := 0; Np.rows := [[]; []] |}.

Definition two_floats : Np.array float :=
  {| Np.shape0 := 2; Np.shape1 := 2;
     Np.rows := [[ten; twenty]; [thirty; ten]] |}.

End Demo.

(** ** Facts about the primitives *)

Lemma comprehension_map {A B : Type} (f : A -> res B) (g : A -> B)
  (l : list A) :
  (forall a, In a l -> f a = Ok (g a)) ->
  comprehension f l = Ok (map g l).
Proof.
  induction l as [|a l IH]; intros H; simpl.
  - reflexivity.
  - rewrite (H a (or_introl eq_refl)). simpl.
    rewrite IH by (intros b Hb; apply H; right; exact Hb).
    reflexivity.
Qed.

Lemma comprehension_map_map {A B C : Type} (f : B -> res C) (h : A -> B)
  (g : A -> C) (l : list A) :
  (forall a, In a l -> f (h a) = Ok (g a)) ->
  comprehension f (map h l) = Ok (map g l).
Proof.
  induction l as [|a l IH]; intros H; simpl.
  - reflexivity.
  - rewrite (H a (or_introl eq_refl)). simpl.
    rewrite IH by (intros b Hb; apply H; right; exact Hb).
    reflexivity.
Qed.

Lemma index_from_position (v : string) (l : list string) (i : nat) :
  In v l -> index_from v l i = Ok (i + position l v).
Proof.
  revert i. induction l as [|x l IH]; intros i H.
  - destruct H.
  - simpl. destruct (String.eqb x v) eqn:E.
    + f_equal. lia.
    + destruct H as [H|H].
      * subst. rewrite String.eqb_refl in E. discriminate.
      * rewrite IH by exact H. f_equal. lia.
Qed.

Lemma index_position (l : list string) (v : string) :
  In v l -> index l v = Ok (position l v).
Proof. intros H. unfold index. rewrite index_from_position; auto. Qed.

Lemma nth_error_position (l : list string) (v : string) :
  In v l -> nth_error l (position l v) = Some v.
Proof.
  induction l as [|x l IH]; intros H.
  - destruct H.
  - simpl. destruct (String.eqb x v) eqn:E.
    + apply String.eqb_eq in E. subst. reflexivity.
    + destruct H as [H|H].
      * subst. rewrite String.eqb_refl in E. discriminate.
      * simpl. apply IH. exact H.
Qed.

Lemma index_nat_from_rank (n : nat) (l : list nat) (i : nat) :
  In n l -> index_nat_from n l i = Ok (i + rank l n).
Proof.
  revert i. induction l as [|x l IH]; intros i H.
  - destruct H.
  - simpl. destruct (Nat.eqb x n) eqn:E.
    + f_equal. lia.
    + destruct H as [H|H].
      * subst. rewrite Nat.eqb_refl in E. discriminate.
      * rewrite IH by exact H. f_equal. lia.
Qed.

Lemma contains_In (l : list nat) (n : nat) :
  contains l n = true <-> In n l.
Proof.
  unfold contains. rewrite existsb_exists. split.
  - intros [x [Hx E]]. apply Nat.eqb_eq in E. subst. exact Hx.
  - intros H. exists n. split; [exact H | apply Nat.eqb_refl].
Qed.

Lemma getlast_seq (a n : nat) : getlast (seq a (S n)) = Ok (a + n).
Proof.
  revert a. induction n as [|n IH]; intros a.
  - simpl. f_equal. lia.
  - change (seq a (S (S n))) with (a :: seq (S a) (S n)).
    change (getlast (a :: seq (S a) (S n)))
      with (getlast (seq (S a) (S n))).
    rewrite IH. f_equal. lia.
Qed.

(** The comparison of [getv] never succeeds: [range(l[0], l[-1])] stops
    one short of [l[-1]]. *)
Lemma range_never_equal (l : list nat) (l0 l1 : nat) :
  getlast l = Ok l1 -> range l0 l1 <> l.
Proof.
  intros Hlast Heq. unfold range in Heq.
  destruct (l1 - l0) as [|n] eqn:E.
  - simpl in Heq. subst l. discriminate.
  - rewrite <- Heq, getlast_seq in Hlast. inversion Hlast. lia.
Qed.

(** *** De-duplication *)

Lemma dict_insert_spec (d : list string) (k : string) :
  dict_insert d k = if in_dec string_dec k d then d else d ++ [k].
Proof.
  unfold dict_insert.
  destruct (existsb (String.eqb k) d) eqn:E; destruct (in_dec string_dec k d) as [H|H];
    try reflexivity.
  - exfalso. apply H. apply existsb_exists in E. destruct E as [x [Hx E]].
    apply String.eqb_eq in E. subst. exact Hx.
  - exfalso. assert (existsb (String.eqb k) d = true) as E'.
    { apply existsb_exists. exists k. split; [exact H | apply String.eqb_refl]. }
    congruence.
Qed.

Lemma fresh_for_true (acc : list string) (y : string) :
  fresh_for acc y = true <-> ~ In y acc.
Proof.
  unfold fresh_for. rewrite negb_true_iff. split.
  - intros E H. assert (existsb (String.eqb y) acc = true) as E'.
    { apply existsb_exists. exists y. split; [exact H | apply String.eqb_refl]. }
    congruence.
  - intros H. destruct (existsb (String.eqb y) acc) eqn:E; [|reflexivity].
    exfalso. apply H. apply existsb_exists in E. destruct E as [x [Hx E]].
    apply String.eqb_eq in E. subst. exact Hx.
Qed.

Lemma filter_filter {A : Type} (p q : A -> bool) (l : list A) :
  filter p (filter q l) = filter (fun x => q x && p x) l.
Proof.
  induction l as [|a l IH]; simpl; [reflexivity|].
  destruct (q a); simpl; [destruct (p a)|]; rewrite IH; reflexivity.
Qed.

Lemma fold_dict_insert (l acc : list string) :
  fold_left dict_insert l acc = acc ++ filter (fresh_for acc) (dedup l).
Proof.
  revert acc. induction l as [|x l IH]; intros acc; simpl.
  - rewrite app_nil_r. reflexivity.
  - rewrite dict_insert_spec. destruct (in_dec string_dec x acc) as [H|H].
    + rewrite IH. f_equal.
      assert (fresh_for acc x = false) as ->.
      { destruct (fresh_for acc x) eqn:E; [|reflexivity].
        apply fresh_for_true in E. contradiction. }
      rewrite filter_filter. apply filter_ext_in. intros y _.
      destruct (fresh_for acc y) eqn:E; [|rewrite andb_false_r; reflexivity].
      rewrite andb_true_r. apply fresh_for_true in E.
      destruct (String.eqb x y) eqn:Exy; [|reflexivity].
      apply String.eqb_eq in Exy. subst. contradiction.
    + rewrite IH.
      assert (fresh_for acc x = true) as -> by (apply fresh_for_true; exact H).
      rewrite <- app_assoc. simpl. do 2 f_equal.
      rewrite filter_filter. apply filter_ext. intros y.
      unfold fresh_for. rewrite existsb_app. simpl. rewrite orb_false_r.
      rewrite negb_orb. rewrite andb_comm. f_equal. f_equal.
      apply String.eqb_sym.
Qed.

(** [list(dict.fromkeys(l))] removes duplicates and keeps the first-seen
    order. *)
Lemma dict_fromkeys_dedup (l : list string) : dict_fromkeys l = dedup l.
Proof.
  unfold dict_fromkeys. rewrite fold_dict_insert. simpl.
  rewrite <- (filter_ext (fun _ => true)) by reflexivity.
  induction (dedup l) as [|a d IH]; simpl; [reflexivity | f_equal; exact IH].
Qed.

Lemma dedup_In (l : list string) (v : string) : In v (dedup l) <-> In v l.
Proof.
  induction l as [|x l IH]; simpl; [tauto|].
  rewrite filter_In, IH. split.
  - intros [H|[H _]]; auto.
  - intros [H|H]; [left; exact H|].
    destruct (String.eqb x v) eqn:E.
    + left. apply String.eqb_eq. exact E.
    + right. split; [exact H | reflexivity].
Qed.

Lemma NoDup_filter {A : Type} (p : A -> bool) (l : list A) :
  NoDup l -> NoDup (filter p l).
Proof.
  induction 1 as [|a l Hin Hnd IH]; simpl; [constructor|].
  destruct (p a); [|exact IH].
  constructor; [|exact IH]. rewrite filter_In. tauto.
Qed.

Lemma dedup_NoDup (l : list string) : NoDup (dedup l).
Proof.
  induction l as [|x l IH]; simpl; constructor.
  - rewrite filter_In. intros [_ E]. rewrite String.eqb_refl in E.
    discriminate.
  - apply NoDup_filter. exact IH.
Qed.

Lemma dedup_count (l : list string) (v : string) :
  In v l -> count_occ string_dec (dedup l) v = 1.
Proof.
  intros H. apply dedup_In in H.
  pose proof (dedup_NoDup l) as Hnd.
  rewrite (NoDup_count_occ string_dec) in Hnd.
  specialize (Hnd v).
  apply (count_occ_In string_dec) in H. lia.
Qed.

(** *** Initialization *)

Section Initialize.

Variables F PR : Type.

Abbreviation func := (OptFunction.t F PR).

Lemma ready_var_names_int (verbosity : nat) (f : func) :
  OptFunction.var_names_int (ready verbosity f) = OptFunction.var_names_int f.
Proof. unfold ready. destruct (OptFunction.initialized f); reflexivity. Qed.

Lemma ready_var_names_float (verbosity : nat) (f : func) :
  OptFunction.var_names_float (ready verbosity f)
  = OptFunction.var_names_float f.
Proof. unfold ready. destruct (OptFunction.initialized f); reflexivity. Qed.

Lemma ready_n_components (verbosity : nat) (f : func) :
  OptFunction.n_components (ready verbosity f) = OptFunction.n_components f.
Proof. unfold ready. destruct (OptFunction.initialized f); reflexivity. Qed.

Lemma ready_initialized (verbosity : nat) (f : func) :
  OptFunction.initialized (ready verbosity f) = true.
Proof.
  unfold ready. destruct (OptFunction.initialized f) eqn:E; [exact E|].
  reflexivity.
Qed.

Lemma gather_ready (verbosity : nat) (g : OptFunctionList.gathered F PR)
  (f : func) :
  OptFunctionList.gather verbosity g f =
  {| OptFunctionList.g_functions :=
       OptFunctionList.g_functions g ++ [ready verbosity f];
     OptFunctionList.g_vnamesi :=
       OptFunctionList.g_vnamesi g
       ++ OptFunction.var_names_int (ready verbosity f);
     OptFunctionList.g_vnamesf :=
       OptFunctionList.g_vnamesf g
       ++ OptFunction.var_names_float (ready verbosity f);
     OptFunctionList.g_sizes :=
       OptFunctionList.g_sizes g
       ++ [OptFunction.n_components (ready verbosity f)] |}.
Proof.
  unfold OptFunctionList.gather, ready.
  destruct (OptFunction.initialized f); reflexivity.
Qed.

Lemma fold_gather (verbosity : nat) (fs : list func)
  (g : OptFunctionList.gathered F PR) :
  fold_left (OptFunctionList.gather verbosity) fs g =
  {| OptFunctionList.g_functions :=
       OptFunctionList.g_functions g ++ map (ready verbosity) fs;
     OptFunctionList.g_vnamesi :=
       OptFunctionList.g_vnamesi g
       ++ concat (map (@OptFunction.var_names_int F PR)
                    (map (ready verbosity) fs));
     OptFunctionList.g_vnamesf :=
       OptFunctionList.g_vnamesf g
       ++ concat (map (@OptFunction.var_names_float F PR)
                    (map (ready verbosity) fs));
     OptFunctionList.g_sizes :=
       OptFunctionList.g_sizes g ++ ledger (map (ready verbosity) fs) |}.
Proof.
  revert g. induction fs as [|f fs IH]; intros g; simpl.
  - rewrite !app_nil_r. destruct g. reflexivity.
  - rewrite IH, gather_ready. simpl. rewrite <- !app_assoc. reflexivity.
Qed.

(** [getv] on names that all are in the registry: the explicit list of
    their positions, never a slice. *)
Lemma getv_positions (vnames fvnames : list string) :
  incl fvnames vnames ->
  OptFunctionList.getv vnames fvnames = Ok (Positions (positions vnames fvnames)).
Proof.
  intros Hincl. unfold OptFunctionList.getv.
  destruct fvnames as [|v fvnames]; [reflexivity|].
  change (Nat.eqb (length (v :: fvnames)) 0) with false. cbv iota.
  rewrite (@comprehension_map _ _ (index vnames) (position vnames))
    by (intros a Ha; apply index_position, Hincl, Ha).
  cbn [bind]. fold (positions vnames (v :: fvnames)).
  set (l := positions vnames (v :: fvnames)).
  assert (exists l1, getlast l = Ok l1) as [l1 Hl1].
  { assert (l <> []) as Hne by discriminate. clearbody l.
    induction l as [|a l IH]; [contradiction|].
    destruct l as [|b l]; [exists a; reflexivity|].
    destruct IH as [l1 H1]; [discriminate|]. exists l1. exact H1. }
  change (getitem l 0) with (Ok (A:=nat) (position vnames v)).
  cbn [bind]. rewrite Hl1. cbn [bind].
  destruct (list_eq_dec Nat.eq_dec (range (position vnames v) l1) l) as [E|E].
  - exfalso. exact (range_never_equal _ Hl1 E).
  - reflexivity.
Qed.

(** Whatever the names, [getv] never returns a slice. *)
Lemma getv_never_slice (vnames fvnames : list string) (a b : nat) :
  OptFunctionList.getv vnames fvnames <> Ok (Slice a b).
Proof.
  unfold OptFunctionList.getv.
  destruct (Nat.eqb (length fvnames) 0); [discriminate|].
  destruct (comprehension (index vnames) fvnames) as [l|e]; [|discriminate].
  cbn [bind]. destruct (getitem l 0) as [l0|e]; [|discriminate].
  cbn [bind]. destruct (getlast l) as [l1|e] eqn:Hl1; [|discriminate].
  cbn [bind].
  destruct (list_eq_dec Nat.eq_dec (range l0 l1) l) as [E|E]; [|discriminate].
  exfalso. exact (range_never_equal _ Hl1 E).
Qed.

Lemma incl_registry_int (fs : list func) (f : func) :
  In f fs -> incl (OptFunction.var_names_int f) (registry_int fs).
Proof.
  intros Hf v Hv. apply dedup_In, in_concat.
  exists (OptFunction.var_names_int f). split; [|exact Hv].
  apply in_map. exact Hf.
Qed.

Lemma incl_registry_float (fs : list func) (f : func) :
  In f fs -> incl (OptFunction.var_names_float f) (registry_float fs).
Proof.
  intros Hf v Hv. apply dedup_In, in_concat.
  exists (OptFunction.var_names_float f). split; [|exact Hv].
  apply in_map. exact Hf.
Qed.

(** [initialize] never raises, and leaves the function list in the
    state [compiled]. *)
Lemma initialize_compiled (verbosity : nat) (self : OptFunctionList.t F PR) :
  OptFunctionList.initialize verbosity self = (Ok tt, compiled verbosity self).
Proof.
  unfold OptFunctionList.initialize. rewrite fold_gather. cbn [app
    OptFunctionList.g_functions OptFunctionList.g_vnamesi
    OptFunctionList.g_vnamesf OptFunctionList.g_sizes].
  rewrite !dict_fromkeys_dedup.
  set (fs := map (ready verbosity) (OptFunctionList.functions self)).
  fold (registry_int fs). fold (registry_float fs).
  rewrite (@comprehension_map _ _ _
             (fun f => Positions (positions (registry_int fs)
                                    (OptFunction.var_names_int f))))
    by (intros f Hf; apply getv_positions, incl_registry_int, Hf).
  rewrite (@comprehension_map _ _ _
             (fun f => Positions (positions (registry_float fs)
                                    (OptFunction.var_names_float f))))
    by (intros f Hf; apply getv_positions, incl_registry_float, Hf).
  reflexivity.
Qed.

End Initialize.

Lemma sum_fold (l : list nat) (a : nat) :
  fold_left Nat.add l a = a + list_sum l.
Proof.
  revert a. induction l as [|x l IH]; intros a; simpl.
  - lia.
  - rewrite IH. lia.
Qed.

Lemma sum_list_sum (l : list nat) : sum l = list_sum l.
Proof. unfold sum. rewrite sum_fold. reflexivity. Qed.

Lemma position_lt (l : list string) (v : string) :
  In v l -> position l v < length l.
Proof.
  intros H. apply nth_error_Some. rewrite nth_error_position by exact H.
  discriminate.
Qed.

Lemma take_local_vector {A : Type} (d : A) (vnames fvnames : list string)
  (vals : list A) :
  length vals = length vnames -> incl fvnames vnames ->
  take vals (Positions (positions vnames fvnames))
  = Ok (local_vector d vnames vals fvnames).
Proof.
  intros Hlen Hincl. unfold take, positions, local_vector.
  apply comprehension_map_map.
  intros v Hv. unfold getitem.
  rewrite (nth_error_nth' vals d)
    by (rewrite Hlen; apply position_lt, Hincl, Hv).
  reflexivity.
Qed.

Lemma local_vector_values {A : Type} (d : A) (vnames fvnames : list string)
  (vals : list A) :
  length vals = length vnames -> incl fvnames vnames ->
  map Some (local_vector d vnames vals fvnames)
  = map (fun v => nth_error vals (position vnames v)) fvnames.
Proof.
  intros Hlen Hincl. unfold local_vector. rewrite map_map.
  apply map_ext_in. intros v Hv. symmetry. apply nth_error_nth'.
  rewrite Hlen. apply position_lt, Hincl, Hv.
Qed.

Lemma occurs_in_mid (a b c : string) : occurs_in b (a ++ b ++ c)%string.
Proof. exists a, c. reflexivity. Qed.

Lemma string_app_assoc (a b c : string) :
  ((a ++ b) ++ c = a ++ (b ++ c))%string.
Proof.
  induction a as [|ch a IH]; simpl; [reflexivity|]. rewrite IH. reflexivity.
Qed.

(** *** Slices and offsets *)

Lemma firstn_add_skipn {A : Type} (m k : nat) (l : list A) :
  firstn m l ++ firstn k (skipn m l) = firstn (m + k) l.
Proof.
  revert l. induction m as [|m IH]; intros l; simpl; [reflexivity|].
  destruct l as [|a l]; simpl.
  - rewrite firstn_nil. reflexivity.
  - f_equal. apply IH.
Qed.

Lemma slice_app {A : Type} (data : list A) (a b c : nat) :
  a <= b -> b <= c -> slice data a b ++ slice data b c = slice data a c.
Proof.
  intros Hab Hbc. unfold slice.
  replace (skipn b data) with (skipn (b - a) (skipn a data))
    by (rewrite skipn_skipn; f_equal; lia).
  rewrite firstn_add_skipn. f_equal. lia.
Qed.

Lemma slice_all {A : Type} (data : list A) :
  slice data 0 (length data) = data.
Proof. unfold slice. rewrite Nat.sub_0_r. apply firstn_all. Qed.

Lemma slice_empty {A : Type} (data : list A) (a : nat) : slice data a a = [].
Proof. unfold slice. rewrite Nat.sub_diag. reflexivity. Qed.

Lemma slice_length {A : Type} (data : list A) (a b : nat) :
  b <= length data -> length (slice data a b) = b - a.
Proof.
  intros H. unfold slice. rewrite length_firstn, length_skipn. lia.
Qed.

Lemma concat_slices {A : Type} (data : list A) (sizes : list nat) (i0 : nat) :
  concat (map (fun r => slice data (fst r) (snd r)) (offsets i0 sizes))
  = slice data i0 (i0 + list_sum sizes).
Proof.
  revert i0. induction sizes as [|s sizes IH]; intros i0; simpl.
  - rewrite Nat.add_0_r, slice_empty. reflexivity.
  - rewrite IH, slice_app by lia. f_equal. lia.
Qed.

Lemma lengths_slices {A : Type} (data : list A) (sizes : list nat)
  (i0 : nat) :
  i0 + list_sum sizes <= length data ->
  map (@length A)
    (map (fun r => slice data (fst r) (snd r)) (offsets i0 sizes))
  = sizes.
Proof.
  revert i0. induction sizes as [|s sizes IH]; intros i0 H; simpl in *.
  - reflexivity.
  - rewrite slice_length by lia. rewrite IH by lia. f_equal. lia.
Qed.

Lemma hstack_slices {A : Type} (rows : list (list A)) (sizes : list nat)
  (i0 : nat) :
  hstack (length rows)
    (map (fun r => map (fun row => slice row (fst r) (snd r)) rows)
       (offsets i0 sizes))
  = map (fun row => slice row i0 (i0 + list_sum sizes)) rows.
Proof.
  revert i0. induction sizes as [|s sizes IH]; intros i0.
  - simpl. rewrite Nat.add_0_r.
    induction rows as [|row rows IHr]; simpl; [reflexivity|].
    rewrite slice_empty. f_equal. exact IHr.
  - simpl. unfold hstack in *. cbn [fold_right]. rewrite IH.
    clear IH. induction rows as [|row rows IHr]; simpl; [reflexivity|].
    rewrite slice_app by lia. f_equal; [f_equal; lia | exact IHr].
Qed.

Lemma offsets_length (i0 : nat) (sizes : list nat) :
  length (offsets i0 sizes) = length sizes.
Proof.
  revert i0. induction sizes as [|s sizes IH]; intros i0; simpl;
    [reflexivity | f_equal; apply IH].
Qed.

(** The ranges of a ledger partition the indices below its sum: an index
    lies in exactly one of them. *)
Lemma offsets_partition (k i0 : nat) (sizes : list nat) :
  length (filter (within k) (offsets i0 sizes))
  = if Nat.leb i0 k && Nat.ltb k (i0 + list_sum sizes) then 1 else 0.
Proof.
  revert i0. induction sizes as [|s sizes IH]; intros i0; simpl.
  - destruct (Nat.leb_spec i0 k), (Nat.ltb_spec k (i0 + 0)); simpl; lia.
  - unfold within at 1. cbn [fst snd].
    destruct (Nat.leb_spec i0 k), (Nat.ltb_spec k (i0 + s)); simpl;
      rewrite IH;
      destruct (Nat.leb_spec (i0 + s) k),
               (Nat.ltb_spec k (i0 + s + list_sum sizes)),
               (Nat.ltb_spec k (i0 + (s + list_sum sizes)));
      simpl; lia.
Qed.

(** Consecutive ranges of a ledger touch: each starts where the one
    before it stops, and none ends before it starts. *)
Lemma offsets_contiguous (i0 : nat) (sizes : list nat) (j : nat)
  (a b : nat * nat) :
  nth_error (offsets i0 sizes) j = Some a ->
  nth_error (offsets i0 sizes) (S j) = Some b ->
  fst a <= snd a /\ snd a = fst b /\ fst b <= snd b.
Proof.
  revert i0 j. induction sizes as [|s sizes IH]; intros i0 j Ha Hb.
  - destruct j; discriminate.
  - destruct j as [|j]; simpl in Ha, Hb.
    + inversion Ha. subst a. destruct sizes as [|s' sizes]; [discriminate|].
      simpl in Hb. inversion Hb. subst b. simpl. lia.
    + eapply IH; eassumption.
Qed.

Lemma getitem_map_app {A B : Type} (g : A -> B) (pre rest : list A) (a : A) :
  getitem (map g (pre ++ a :: rest)) (length pre) = Ok (g a).
Proof.
  unfold getitem. rewrite nth_error_map, nth_error_app2 by lia.
  rewrite Nat.sub_diag. reflexivity.
Qed.

Lemma setslice_exact {A : Type} (arr src : list A) (c0 c1 : nat) :
  c0 <= c1 -> c1 <= length arr -> length src = c1 - c0 ->
  setslice arr c0 c1 src = Ok (firstn c0 arr ++ src ++ skipn c1 arr).
Proof.
  intros H01 H1 Hsrc. unfold setslice.
  rewrite (Nat.min_l c0) by lia. rewrite (Nat.min_l c1) by lia.
  rewrite (Nat.max_r c0 c1) by lia.
  rewrite Hsrc, Nat.eqb_refl. reflexivity.
Qed.

Lemma setslice_length {A : Type} (arr src r : list A) (c0 c1 : nat) :
  setslice arr c0 c1 src = Ok r -> length r = length arr.
Proof.
  unfold setslice.
  set (lo := Nat.min c0 (length arr)).
  set (hi := Nat.max lo (Nat.min c1 (length arr))).
  assert (lo <= hi /\ hi <= length arr) as [Hlo Hhi] by (subst lo hi; lia).
  destruct (Nat.eqb (length src) (hi - lo)) eqn:E.
  - apply Nat.eqb_eq in E. intros H. inversion H.
    rewrite !length_app, length_firstn, length_skipn. lia.
  - destruct src as [|x [|y src]]; try discriminate.
    intros H. inversion H.
    rewrite !length_app, length_firstn, length_skipn, repeat_length. lia.
Qed.

Lemma firstn_app_exact {A : Type} (a b : list A) (n : nat) :
  length a = n -> firstn n (a ++ b) = a.
Proof.
  intros <-. rewrite firstn_app, Nat.sub_diag, firstn_all. simpl.
  apply app_nil_r.
Qed.

Lemma skipn_app_exact {A : Type} (a b : list A) (n k : nat) :
  length a = n -> skipn (n + k) (a ++ b) = skipn k b.
Proof.
  intros <-. rewrite skipn_app.
  rewrite (skipn_all2 a) by lia. simpl. f_equal. lia.
Qed.

Lemma combine_seq_cons {A : Type} (k : nat) (a : A) (l : list A) :
  combine (seq k (length (a :: l))) (a :: l)
  = (k, a) :: combine (seq (S k) (length l)) l.
Proof. reflexivity. Qed.

(** ** The registry, the ledger and the index mappings *)

Section Initialized.

Variables F PR : Type.

Variable nan : F.

Abbreviation flist := (OptFunctionList.t F PR).

(** C8. After initialization each of the two registry sequences is the
    concatenation of the functions' variable-name lists, in registration
    order, with duplicates removed in first-seen order, and every name
    of a function's list occurs exactly once in it.  Initialization
    itself never raises and keeps the functions' name lists. *)
Theorem registry_after_initialize (verbosity : nat) (self : flist) :
  let self' := snd (OptFunctionList.initialize verbosity self) in
  let fs := OptFunctionList.functions self' in
  fst (OptFunctionList.initialize verbosity self) = Ok tt
  /\ map (@OptFunction.var_names_int F PR) fs
     = map (@OptFunction.var_names_int F PR) (OptFunctionList.functions self)
  /\ map (@OptFunction.var_names_float F PR) fs
     = map (@OptFunction.var_names_float F PR)
         (OptFunctionList.functions self)
  /\ OptFunctionList._vnamesi self'
     = dedup (concat (map (@OptFunction.var_names_int F PR) fs))
  /\ OptFunctionList._vnamesf self'
     = dedup (concat (map (@OptFunction.var_names_float F PR) fs))
  /\ (forall f v, In f fs -> In v (OptFunction.var_names_int f) ->
        count_occ string_dec (OptFunctionList._vnamesi self') v = 1)
  /\ (forall f v, In f fs -> In v (OptFunction.var_names_float f) ->
        count_occ string_dec (OptFunctionList._vnamesf self') v = 1).
Proof.
  rewrite initialize_compiled. cbn [fst snd]. cbv zeta.
  unfold compiled, OptFunctionList.functions.
  cbn [OptFunctionList._functions OptFunctionList._vnamesi
       OptFunctionList._vnamesf].
  repeat split.
  - rewrite map_map. apply map_ext. intros f. apply ready_var_names_int.
  - rewrite map_map. apply map_ext. intros f. apply ready_var_names_float.
  - intros f v Hf Hv. apply dedup_count, in_concat.
    exists (OptFunction.var_names_int f). split; [apply in_map, Hf | exact Hv].
  - intros f v Hf Hv. apply dedup_count, in_concat.
    exists (OptFunction.var_names_float f).
    split; [apply in_map, Hf | exact Hv].
Qed.

(** C9. After initialization the ledger [sizes] holds, in registration
    order, one entry per function, the function's component count, and
    [n_components()] is the sum of the ledger. *)
Theorem ledger_after_initialize (verbosity : nat) (self : flist) :
  let self' := snd (OptFunctionList.initialize verbosity self) in
  OptFunctionList.sizes self'
  = map (@OptFunction.n_components F PR) (OptFunctionList.functions self')
  /\ length (OptFunctionList.sizes self') = OptFunctionList.n_functions self'
  /\ OptFunctionList.n_functions self' = OptFunctionList.n_functions self
  /\ OptFunctionList.n_components self'
     = list_sum (OptFunctionList.sizes self')
  /\ OptFunctionList.n_components self'
     = list_sum (map (@OptFunction.n_components F PR)
                   (OptFunctionList.functions self)).
Proof.
  rewrite initialize_compiled. cbn [snd]. cbv zeta.
  unfold OptFunctionList.n_components, OptFunctionList.n_functions,
    OptFunctionList.functions, compiled, ledger.
  cbn [OptFunctionList._functions OptFunctionList.sizes].
  rewrite sum_list_sum, !length_map, !map_map.
  repeat split.
  f_equal. apply map_ext. intros f. apply ready_n_components.
Qed.

(** C3. In an initialized function list, applying the stored index
    mapping of a function to a vector in registry order yields the
    values of the function's declared variables, in the declared order:
    entry [k] of the local vector is the value at the registry position
    of the [k]-th declared name. *)
Theorem mapping_yields_local_vector (verbosity : nat) (self : flist)
  (fi : nat) (f : OptFunction.t F PR) (vars_int : list Z)
  (vars_float : list F) :
  let self' := snd (OptFunctionList.initialize verbosity self) in
  nth_error (OptFunctionList.functions self') fi = Some f ->
  length vars_int = length (OptFunctionList._vnamesi self') ->
  length vars_float = length (OptFunctionList._vnamesf self') ->
  exists ixi ixf varsi varsf,
    nth_error (OptFunctionList.func_vars_int self') fi = Some ixi
    /\ nth_error (OptFunctionList.func_vars_float self') fi = Some ixf
    /\ take vars_int ixi = Ok varsi
    /\ take vars_float ixf = Ok varsf
    /\ map Some varsi
       = map (fun v => nth_error vars_int
                         (position (OptFunctionList._vnamesi self') v))
           (OptFunction.var_names_int f)
    /\ map Some varsf
       = map (fun v => nth_error vars_float
                         (position (OptFunctionList._vnamesf self') v))
           (OptFunction.var_names_float f).
Proof.
  rewrite initialize_compiled. cbn [snd]. cbv zeta.
  unfold compiled, OptFunctionList.functions.
  cbn [OptFunctionList._functions OptFunctionList._vnamesi
       OptFunctionList._vnamesf OptFunctionList.func_vars_int
       OptFunctionList.func_vars_float].
  set (fs := map (ready verbosity) (OptFunctionList._functions self)).
  intros Hf Hli Hlf.
  assert (In f fs) as Hin by (eapply nth_error_In; exact Hf).
  pose proof (incl_registry_int fs f Hin) as Hii.
  pose proof (incl_registry_float fs f Hin) as Hif.
  exists (Positions (positions (registry_int fs)
                       (OptFunction.var_names_int f))),
    (Positions (positions (registry_float fs)
                  (OptFunction.var_names_float f))),
    (local_vector 0%Z (registry_int fs) vars_int
       (OptFunction.var_names_int f)),
    (local_vector nan (registry_float fs) vars_float
       (OptFunction.var_names_float f)).
  rewrite !nth_error_map, Hf. cbn [option_map].
  rewrite (take_local_vector 0%Z _ Hli Hii).
  rewrite (take_local_vector nan _ Hlf Hif).
  rewrite (local_vector_values 0%Z _ Hli Hii).
  rewrite (local_vector_values nan _ Hlf Hif).
  repeat split.
Qed.

(** C6. [append] after initialization, or of a function whose problem is
    not the function list's problem, raises a [ValueError] whose message
    names the function list and the function, and leaves the function
    list as it was: neither the functions nor the component names
    change. *)
Theorem append_rejected (function : OptFunction.t F PR) (self : flist) :
  OptFunctionList.initialized self = true
  \/ Problem.is_ (OptFunction.problem function)
       (OptFunctionList.problem self) = false ->
  exists msg self',
    OptFunctionList.append function self = (Raise (ValueError msg), self')
    /\ self' = self
    /\ OptFunctionList.functions self' = OptFunctionList.functions self
    /\ OptFunctionList._cnames self' = OptFunctionList._cnames self
    /\ occurs_in (OptFunctionList.name self) msg
    /\ occurs_in (OptFunction.name function) msg.
Proof.
  intros H. unfold OptFunctionList.append.
  destruct (OptFunctionList.initialized self) eqn:Hini.
  - exists (OptFunctionList.msg_initialized self function), self.
    repeat split; unfold OptFunctionList.msg_initialized.
    + apply occurs_in_mid.
    + rewrite <- (string_app_assoc "FunctionList '"), <- string_app_assoc.
      apply occurs_in_mid.
  - destruct H as [H|H]; [discriminate|]. rewrite H. cbn [negb].
    exists (OptFunctionList.msg_problem self function), self.
    repeat split; unfold OptFunctionList.msg_problem.
    + apply occurs_in_mid.
    + rewrite <- (string_app_assoc "FunctionList '"), <- string_app_assoc.
      apply occurs_in_mid.
Qed.

End Initialized.

(** ** Splitting and evaluation *)

Section Evaluation.

Variables F PR : Type.

Variable nan : F.

Abbreviation flist' := (OptFunctionList.t F PR).

Lemma split_loop_offsets {A : Type} (self : flist') (cut : nat -> nat -> A)
  (pre rest : list nat) (i0 : nat) (out : list A) :
  OptFunctionList.sizes self = pre ++ rest ->
  OptFunctionList.split_loop self cut (seq (length pre) (length rest)) i0 out
  = Ok (out ++ map (fun r => cut (fst r) (snd r)) (offsets i0 rest)).
Proof.
  revert pre i0 out. induction rest as [|s rest IH]; intros pre i0 out Hs.
  - simpl. rewrite app_nil_r. reflexivity.
  - cbn [length seq OptFunctionList.split_loop].
    assert (getitem (OptFunctionList.sizes self) (length pre) = Ok s) as ->.
    { rewrite Hs, <- (map_id (pre ++ s :: rest)). apply getitem_map_app. }
    cbn [bind].
    replace (S (length pre)) with (length (pre ++ [s]))
      by (rewrite length_app; simpl; lia).
    rewrite IH by (rewrite <- app_assoc; exact Hs).
    simpl. rewrite <- app_assoc. reflexivity.
Qed.

Lemma compiled_n_functions (verbosity : nat) (self : flist') :
  OptFunctionList.n_functions (compiled verbosity self)
  = length (OptFunctionList.sizes (compiled verbosity self)).
Proof.
  unfold OptFunctionList.n_functions, OptFunctionList.functions, compiled,
    ledger. simpl. rewrite !length_map. reflexivity.
Qed.

Lemma split_individual_compiled {A : Type} (verbosity : nat) (self : flist')
  (data : list A) :
  OptFunctionList.split_individual (compiled verbosity self) data
  = Ok (map (fun r => slice data (fst r) (snd r))
          (offsets 0 (OptFunctionList.sizes (compiled verbosity self)))).
Proof.
  unfold OptFunctionList.split_individual, range.
  rewrite compiled_n_functions, Nat.sub_0_r.
  exact (@split_loop_offsets _ (compiled verbosity self) (slice data) []
           _ 0 [] eq_refl).
Qed.

Lemma split_population_compiled {A : Type} (verbosity : nat) (self : flist')
  (data : list (list A)) :
  OptFunctionList.split_population (compiled verbosity self) data
  = Ok (map (fun r => map (fun row => slice row (fst r) (snd r)) data)
          (offsets 0 (OptFunctionList.sizes (compiled verbosity self)))).
Proof.
  unfold OptFunctionList.split_population, range.
  rewrite compiled_n_functions, Nat.sub_0_r.
  exact (@split_loop_offsets _ (compiled verbosity self)
           (fun i0 i1 => map (fun row => slice row i0 i1) data) []
           _ 0 [] eq_refl).
Qed.

(** C5. In an initialized function list, [split_individual] cuts a vector
    of [n_components()] entries into one piece per function, the pieces
    being the slices at the ledger's offset ranges; concatenating them
    gives the vector back, the piece of a function has the function's
    component count, and the ranges are contiguous and disjoint, every
    offset lying in exactly one of them.  [split_population] does the
    same along the component axis of an array of rows. *)
Theorem split_round_trip (A : Type) (verbosity : nat) (self : flist')
  (d : list A) (rows : list (list A)) :
  let self' := snd (OptFunctionList.initialize verbosity self) in
  let ranges := offsets 0 (OptFunctionList.sizes self') in
  length d = OptFunctionList.n_components self' ->
  (forall row, In row rows ->
     length row = OptFunctionList.n_components self') ->
  exists pieces ppieces,
    OptFunctionList.split_individual self' d = Ok pieces
    /\ concat pieces = d
    /\ pieces = map (fun r => slice d (fst r) (snd r)) ranges
    /\ map (@length A) pieces
       = map (@OptFunction.n_components F PR)
           (OptFunctionList.functions self')
    /\ (forall k, k < OptFunctionList.n_components self' ->
          length (filter (within k) ranges) = 1)
    /\ (forall j a b, nth_error ranges j = Some a ->
          nth_error ranges (S j) = Some b -> snd a = fst b)
    /\ OptFunctionList.split_population self' rows = Ok ppieces
    /\ hstack (length rows) ppieces = rows
    /\ ppieces
       = map (fun r => map (fun row => slice row (fst r) (snd r)) rows)
           ranges
    /\ map (fun piece => map (@length A) piece) ppieces
       = map (fun f => repeat (OptFunction.n_components f) (length rows))
           (OptFunctionList.functions self').
Proof.
  rewrite initialize_compiled. cbn [snd]. cbv zeta.
  unfold OptFunctionList.n_components. rewrite sum_list_sum.
  assert (OptFunctionList.sizes (compiled verbosity self)
          = map (@OptFunction.n_components F PR)
              (OptFunctionList.functions (compiled verbosity self)))
    as Hsizes by reflexivity.
  intros Hd Hrows.
  eexists. eexists.
  split; [apply split_individual_compiled|].
  split; [rewrite concat_slices, Nat.add_0_l, <- Hd; apply slice_all|].
  split; [reflexivity|].
  split; [rewrite lengths_slices by (rewrite Nat.add_0_l; lia); exact Hsizes|].
  split.
  { intros k Hk. rewrite offsets_partition, Nat.add_0_l. cbn [Nat.leb andb].
    destruct (Nat.ltb_spec k
                (list_sum (OptFunctionList.sizes (compiled verbosity self))));
      [reflexivity | lia]. }
  split.
  { intros j a b Ha Hb.
    destruct (offsets_contiguous _ _ _ Ha Hb) as [_ [H _]]. exact H. }
  split; [apply split_population_compiled|].
  split.
  { rewrite hstack_slices, Nat.add_0_l. rewrite <- (map_id rows) at 2.
    apply map_ext_in. intros row Hrow. rewrite <- (Hrows row Hrow).
    apply slice_all. }
  split; [reflexivity|].
  rewrite Hsizes.
  assert (forall sizes i0,
    (forall row, In row rows -> i0 + list_sum sizes <= length row) ->
    map (fun piece => map (@length A) piece)
      (map (fun r => map (fun row => slice row (fst r) (snd r)) rows)
         (offsets i0 sizes))
    = map (fun s => repeat s (length rows)) sizes) as Hgen.
  { induction sizes as [|s sizes IH]; intros i0 Hle; [reflexivity|].
    cbn [offsets map fst snd]. rewrite IH
      by (intros row Hrow; specialize (Hle row Hrow); simpl in Hle; lia).
    f_equal. clear IH.
    assert (forall row, In row rows -> i0 + s <= length row) as Hle'
      by (intros row Hrow; specialize (Hle row Hrow); simpl in Hle; lia).
    clear Hle Hrows. induction rows as [|row rows' IHr]; [reflexivity|].
    simpl. rewrite slice_length by (apply Hle'; left; reflexivity).
    rewrite IHr by (intros r Hr; apply Hle'; right; exact Hr).
    f_equal. lia. }
  rewrite Hgen, map_map; [reflexivity|].
  intros row Hrow. rewrite (Hrows row Hrow), Hsizes, Nat.add_0_l. lia.
Qed.

(** The state the loops of the evaluation rely on: the ledger and the
    index mappings agree with the functions, and the variable vectors
    are as long as the registries [ri] and [rf]. *)
Section Loops.

Variable self : flist'.

Variables ri rf : list string.

Variables (vars_int : list Z) (vars_float : list F).

Hypothesis Hsizes :
  OptFunctionList.sizes self
  = map (@OptFunction.n_components F PR) (OptFunctionList.functions self).

Hypothesis Hvars_int :
  OptFunctionList.func_vars_int self
  = map (fun f => Positions (positions ri (OptFunction.var_names_int f)))
      (OptFunctionList.functions self).

Hypothesis Hvars_float :
  OptFunctionList.func_vars_float self
  = map (fun f => Positions (positions rf (OptFunction.var_names_float f)))
      (OptFunctionList.functions self).

Hypothesis Hincl_int :
  forall f, In f (OptFunctionList.functions self) ->
            incl (OptFunction.var_names_int f) ri.

Hypothesis Hincl_float :
  forall f, In f (OptFunctionList.functions self) ->
            incl (OptFunction.var_names_float f) rf.

Hypothesis Hlen_int : length vars_int = length ri.

Hypothesis Hlen_float : length vars_float = length rf.

(** The local vectors the loops hand to the function [f]. *)
Local Abbreviation varsi_of f :=
  (local_vector 0%Z ri vars_int (OptFunction.var_names_int f)).

Local Abbreviation varsf_of f :=
  (local_vector nan rf vars_float (OptFunction.var_names_float f)).

Lemma calc_loop_concat (problem_results : PR)
  (rest pre : list (OptFunction.t F PR)) (outs : list (list F))
  (i0 : nat) (values : list F) (written : list (nat * nat)) :
  OptFunctionList.functions self = pre ++ rest ->
  Forall2
    (fun f out =>
       OptFunction.calc_individual f (varsi_of f) (varsf_of f)
         problem_results = Ok out
       /\ length out = OptFunction.n_components f) rest outs ->
  i0 + list_sum (ledger rest) <= length values ->
  OptFunctionList.calc_loop self vars_int vars_float problem_results
    (combine (seq (length pre) (length rest)) rest) i0 values written
  = Ok (firstn i0 values ++ concat outs
          ++ skipn (i0 + list_sum (ledger rest)) values,
        written ++ offsets i0 (ledger rest)).
Proof.
  revert pre outs i0 values written.
  induction rest as [|f rest IH]; intros pre outs i0 values written Hfs Houts Hlen.
  - inversion Houts. subst. simpl.
    rewrite Nat.add_0_r, firstn_skipn, app_nil_r. reflexivity.
  - inversion Houts as [|f' out rest' outs' [Hcall Hout] Hrest]. subst.
    rewrite combine_seq_cons. cbn [OptFunctionList.calc_loop].
    assert (In f (OptFunctionList.functions self)) as Hin
      by (rewrite Hfs; apply in_elt).
    rewrite Hsizes, Hvars_int, Hvars_float, Hfs, !getitem_map_app.
    cbn [bind].
    rewrite (take_local_vector 0%Z _ Hlen_int (Hincl_int f Hin)).
    rewrite (take_local_vector nan _ Hlen_float (Hincl_float f Hin)).
    cbn [bind]. rewrite Hcall. cbn [bind].
    unfold ledger in Hlen. simpl in Hlen.
    rewrite setslice_exact by lia. cbn [bind].
    replace (S (length pre)) with (length (pre ++ [f]))
      by (rewrite length_app; simpl; lia).
    rewrite (IH (pre ++ [f]) outs');
      [| rewrite <- app_assoc; exact Hfs | exact Hrest
       | rewrite !length_app, length_firstn, length_skipn;
         unfold ledger; lia ].
    f_equal. f_equal.
    + set (i1 := i0 + OptFunction.n_components f).
      replace (firstn i0 values ++ out ++ skipn i1 values)
        with ((firstn i0 values ++ out) ++ skipn i1 values)
        by (rewrite <- app_assoc; reflexivity).
      rewrite firstn_app_exact
        by (rewrite length_app, length_firstn; subst i1; lia).
      rewrite skipn_app_exact
        by (rewrite length_app, length_firstn; subst i1; lia).
      rewrite skipn_skipn. unfold ledger. simpl.
      rewrite <- !app_assoc. do 3 f_equal. apply f_equal2; [subst i1; lia | reflexivity].
    + rewrite <- app_assoc. reflexivity.
Qed.

End Loops.

(** An initialized function list is in the state the loops rely on. *)
Lemma compiled_sizes (verbosity : nat) (self : flist') :
  OptFunctionList.sizes (compiled verbosity self)
  = map (@OptFunction.n_components F PR)
      (OptFunctionList.functions (compiled verbosity self)).
Proof. reflexivity. Qed.

Lemma compiled_incl_int (verbosity : nat) (self : flist')
  (f : OptFunction.t F PR) :
  In f (OptFunctionList.functions (compiled verbosity self)) ->
  incl (OptFunction.var_names_int f)
    (OptFunctionList._vnamesi (compiled verbosity self)).
Proof. apply incl_registry_int. Qed.

Lemma compiled_incl_float (verbosity : nat) (self : flist')
  (f : OptFunction.t F PR) :
  In f (OptFunctionList.functions (compiled verbosity self)) ->
  incl (OptFunction.var_names_float f)
    (OptFunctionList._vnamesf (compiled verbosity self)).
Proof. apply incl_registry_float. Qed.

(** C4. In an initialized function list, when every function returns, on
    its own variable slices, a vector of its declared component length,
    [calc_individual] returns the concatenation of these vectors in
    registration order; the result has [n_components()] entries, the
    loop assigns exactly the ledger's offset ranges, in order, each
    range starting where the one before it stops, and every entry lies
    in exactly one assigned range. *)
Theorem calc_individual_concatenates (verbosity : nat) (self : flist')
  (vars_int : list Z) (vars_float : list F) (problem_results : PR)
  (outs : list (list F)) :
  let self' := snd (OptFunctionList.initialize verbosity self) in
  let ranges := offsets 0 (OptFunctionList.sizes self') in
  length vars_int = length (OptFunctionList._vnamesi self') ->
  length vars_float = length (OptFunctionList._vnamesf self') ->
  Forall2
    (fun f out =>
       OptFunction.calc_individual f
         (local_vector 0%Z (OptFunctionList._vnamesi self') vars_int
            (OptFunction.var_names_int f))
         (local_vector nan (OptFunctionList._vnamesf self') vars_float
            (OptFunction.var_names_float f))
         problem_results = Ok out
       /\ length out = OptFunction.n_components f)
    (OptFunctionList.functions self') outs ->
  OptFunctionList.calc_individual nan self' vars_int vars_float
    problem_results = Ok (concat outs)
  /\ length (concat outs) = OptFunctionList.n_components self'
  /\ OptFunctionList.calc_individual_written nan self' vars_int vars_float
       problem_results = Ok (concat outs, ranges)
  /\ (forall k, k < OptFunctionList.n_components self' ->
        length (filter (within k) ranges) = 1)
  /\ (forall j a b, nth_error ranges j = Some a ->
        nth_error ranges (S j) = Some b ->
        fst a <= snd a /\ snd a = fst b /\ fst b <= snd b).
Proof.
  rewrite initialize_compiled. cbn [snd]. cbv zeta.
  intros Hli Hlf Houts.
  assert (OptFunctionList.calc_individual_written nan
            (compiled verbosity self) vars_int vars_float problem_results
          = Ok (concat outs,
                offsets 0 (OptFunctionList.sizes (compiled verbosity self))))
    as Hrun.
  { unfold OptFunctionList.calc_individual_written, enumerate, full.
    rewrite (@calc_loop_concat (compiled verbosity self)
               (OptFunctionList._vnamesi (compiled verbosity self))
               (OptFunctionList._vnamesf (compiled verbosity self))
               vars_int vars_float
               (compiled_sizes verbosity self) eq_refl eq_refl
               (compiled_incl_int verbosity self)
               (compiled_incl_float verbosity self) Hli Hlf
               problem_results
               (OptFunctionList.functions (compiled verbosity self)) []
               outs 0 _ [] eq_refl Houts).
    - cbn [firstn app]. f_equal. f_equal.
      rewrite skipn_all2; [apply app_nil_r|].
      rewrite repeat_length. unfold OptFunctionList.n_components.
      rewrite sum_list_sum. unfold ledger.
      rewrite compiled_sizes. simpl. lia.
    - rewrite repeat_length. unfold OptFunctionList.n_components.
      rewrite sum_list_sum, compiled_sizes. unfold ledger. simpl. lia. }
  split; [unfold OptFunctionList.calc_individual; rewrite Hrun; reflexivity|].
  split.
  { unfold OptFunctionList.n_components.
    rewrite sum_list_sum, compiled_sizes.
    clear Hrun. induction Houts as [|f out fs outs' [_ Hout] _ IH];
      [reflexivity|].
    simpl. rewrite length_app, IH, Hout. reflexivity. }
  split; [exact Hrun|].
  split.
  { intros k Hk. rewrite offsets_partition, Nat.add_0_l. cbn [Nat.leb andb].
    unfold OptFunctionList.n_components in Hk. rewrite sum_list_sum in Hk.
    destruct (Nat.ltb_spec k
                (list_sum (OptFunctionList.sizes (compiled verbosity self))));
      [reflexivity | lia]. }
  intros j a b Ha Hb. exact (offsets_contiguous _ _ _ Ha Hb).
Qed.

End Evaluation.

(** ** Derivatives *)

Lemma skipn_repeat {A : Type} (x : A) (k m : nat) :
  skipn k (repeat x m) = repeat x (m - k).
Proof.
  revert m. induction k as [|k IH]; intros m; simpl.
  - rewrite Nat.sub_0_r. reflexivity.
  - destruct m as [|m]; simpl; [reflexivity | apply IH].
Qed.

Lemma repeat_split {A : Type} (x : A) (k m : nat) :
  k <= m -> repeat x m = repeat x k ++ repeat x (m - k).
Proof.
  intros H. rewrite <- repeat_app. f_equal. lia.
Qed.

Lemma getitem_app {A : Type} (pre rest : list A) (a : A) (n : nat) :
  length pre = n -> getitem (pre ++ a :: rest) n = Ok a.
Proof.
  intros <-. unfold getitem. rewrite nth_error_app2 by lia.
  rewrite Nat.sub_diag. reflexivity.
Qed.

Lemma cmpnts_loop_selection (components : option (list Z))
  (ss : list nat) (k i0 : nat) (cmpnts : list (list Z)) :
  OptFunctionList.cmpnts_loop components (combine (seq k (length ss)) ss)
    i0 cmpnts
  = cmpnts
      ++ map (fun r => OptFunctionList.select components (fst r) (snd r))
           (offsets i0 ss).
Proof.
  revert k i0 cmpnts. induction ss as [|s ss IH]; intros k i0 cmpnts.
  - simpl. rewrite app_nil_r. reflexivity.
  - rewrite combine_seq_cons. cbn [OptFunctionList.cmpnts_loop].
    rewrite IH. simpl. rewrite <- app_assoc. reflexivity.
Qed.

Lemma owns_true (r : nat * nat) (c : Z) :
  owns r c = true <-> (Z.of_nat (fst r) <= c < Z.of_nat (snd r))%Z.
Proof.
  unfold owns. rewrite andb_true_iff, Z.leb_le, Z.ltb_lt. reflexivity.
Qed.

Lemma owns_false (r : nat * nat) (c : Z) :
  owns r c = false <-> ~ (Z.of_nat (fst r) <= c < Z.of_nat (snd r))%Z.
Proof. rewrite <- owns_true. symmetry. apply not_true_iff_false. Qed.

(** What [select] keeps for adjacent ranges adds up. *)
Lemma filter_owns_adjacent (cs : list Z) (a b c : nat) :
  a <= b -> b <= c ->
  length (filter (owns (a, b)) cs) + length (filter (owns (b, c)) cs)
  = length (filter (owns (a, c)) cs).
Proof.
  intros Hab Hbc. induction cs as [|x cs IH]; [reflexivity|].
  cbn [filter].
  destruct (owns (a, b) x) eqn:E1, (owns (b, c) x) eqn:E2,
    (owns (a, c) x) eqn:E3;
    rewrite ?owns_true, ?owns_false in *; cbn [fst snd length] in *; lia.
Qed.

Lemma select_some (cs : list Z) (i0 i1 : nat) :
  OptFunctionList.select (Some cs) i0 i1 = filter (owns (i0, i1)) cs.
Proof. reflexivity. Qed.

(** The selection of an explicit component list holds its entries that
    lie in the ledger's ranges. *)
Lemma selection_some_length (cs : list Z) (sizes : list nat) (i0 : nat) :
  length
    (concat (map (fun r => OptFunctionList.select (Some cs) (fst r) (snd r))
               (offsets i0 sizes)))
  = length (filter (owns (i0, i0 + list_sum sizes)) cs).
Proof.
  revert i0. induction sizes as [|s sizes IH]; intros i0.
  - simpl. rewrite Nat.add_0_r.
    induction cs as [|x cs IHc]; [reflexivity|].
    cbn [filter]. destruct (owns (i0, i0) x) eqn:E; [|exact IHc].
    rewrite owns_true in E. cbn [fst snd] in E. lia.
  - cbn [offsets map concat fst snd]. rewrite length_app, IH, select_some.
    rewrite filter_owns_adjacent by lia.
    simpl. rewrite Nat.add_assoc. reflexivity.
Qed.

Lemma selection_none_length (sizes : list nat) (i0 : nat) :
  length
    (concat (map (fun r => OptFunctionList.select None (fst r) (snd r))
               (offsets i0 sizes)))
  = list_sum sizes.
Proof.
  revert i0. induction sizes as [|s sizes IH]; intros i0; [reflexivity|].
  cbn [offsets map concat fst snd]. rewrite length_app, IH.
  unfold OptFunctionList.select, range.
  rewrite length_map, length_seq. simpl. lia.
Qed.

Lemma filter_length_le {A : Type} (p : A -> bool) (l : list A) :
  length (filter p l) <= length l.
Proof.
  induction l as [|a l IH]; simpl; [lia|]. destruct (p a); simpl; lia.
Qed.

Lemma concat_nans {F : Type} (nan : F) (css : list (list Z)) :
  concat (map (fun cs => repeat nan (length cs)) css)
  = repeat nan (length (concat css)).
Proof.
  induction css as [|cs css IH]; [reflexivity|].
  simpl. rewrite IH, length_app, repeat_app. reflexivity.
Qed.

Section DerivativeLoop.

Variables F PR : Type.

Variable nan : F.

Variable self : OptFunctionList.t F PR.

Variables ri rf : list string.

Variables (vars_int : list Z) (vars_float : list F).

Variable var : nat.

Variable cmpnts : list (list Z).

Hypothesis Hsizes :
  OptFunctionList.sizes self
  = map (@OptFunction.n_components F PR) (OptFunctionList.functions self).

Hypothesis Hvars_int :
  OptFunctionList.func_vars_int self
  = map (fun f => Positions (positions ri (OptFunction.var_names_int f)))
      (OptFunctionList.functions self).

Hypothesis Hvars_float :
  OptFunctionList.func_vars_float self
  = map (fun f => Positions (positions rf (OptFunction.var_names_float f)))
      (OptFunctionList.functions self).

Hypothesis Hincl_int :
  forall f, In f (OptFunctionList.functions self) ->
            incl (OptFunction.var_names_int f) ri.

Hypothesis Hincl_float :
  forall f, In f (OptFunctionList.functions self) ->
            incl (OptFunction.var_names_float f) rf.

Hypothesis Hlen_int : length vars_int = length ri.

Hypothesis Hlen_float : length vars_float = length rf.

Lemma deriv_loop_blocks (rest : list (OptFunction.t F PR))
  (css : list (list Z)) (rs : list (list F)) :
  blocks_of nan ri rf vars_int vars_float var rest css rs ->
  forall (pre : list (OptFunction.t F PR)) (css_pre : list (list Z))
    (i0 c0 m : nat) (done : list F) (calls : list (OptFunctionList.call F)),
  OptFunctionList.functions self = pre ++ rest ->
  cmpnts = css_pre ++ css ->
  length css_pre = length pre ->
  length done = c0 ->
  length (concat css) <= m ->
  OptFunctionList.deriv_loop self vars_int vars_float var cmpnts
    (combine (seq (length pre) (length rest)) rest) i0 c0
    (done ++ repeat nan m) calls
  = Ok (done ++ concat rs ++ repeat nan (m - length (concat css)),
        calls
          ++ delegated nan ri rf vars_int vars_float var (length pre) rest
               css).
Proof.
  induction 1 as [|f fs cs css r rs Hblock Hr Hrest IH];
    intros pre css_pre i0 c0 m done calls Hfs Hcm Hpre Hdone Hm.
  - simpl. rewrite Nat.sub_0_r, app_nil_r. reflexivity.
  - rewrite combine_seq_cons. cbn [OptFunctionList.deriv_loop].
    assert (In f (OptFunctionList.functions self)) as Hin
      by (rewrite Hfs; apply in_elt).
    rewrite Hsizes, Hvars_int, Hvars_float, Hfs, !getitem_map_app.
    assert (getitem cmpnts (length pre) = Ok cs) as ->
      by (rewrite Hcm; apply getitem_app; exact Hpre).
    cbn [bind list_of].
    cbn [concat] in Hm. rewrite length_app in Hm.
    replace (Nat.ltb c0 (c0 + length cs)) with (Nat.ltb 0 (length cs))
      by (destruct (Nat.ltb_spec 0 (length cs)),
            (Nat.ltb_spec c0 (c0 + length cs)); lia).
    assert (length (pre ++ [f]) = S (length pre)) as Hpre'
      by (rewrite length_app; simpl; lia).
    assert (length (css_pre ++ [cs]) = length (pre ++ [f])) as Hcss'
      by (rewrite !length_app; simpl; lia).
    unfold block in Hblock. cbn [delegated]. unfold delegates in *.
    destruct (Nat.ltb 0 (length cs)) eqn:Hpos; cbn [bind andb] in *.
    + destruct (contains (positions rf (OptFunction.var_names_float f)) var)
        eqn:Hdep; cbn [bind] in *.
      * rewrite (take_local_vector 0%Z _ Hlen_int (Hincl_int f Hin)).
        rewrite (take_local_vector nan _ Hlen_float (Hincl_float f Hin)).
        cbn [bind]. unfold index_nat.
        rewrite index_nat_from_rank by (apply contains_In; exact Hdep).
        cbn [bind Nat.add]. rewrite Hblock. cbn [bind].
        rewrite setslice_exact
          by (rewrite ?length_app, ?repeat_length; lia).
        cbn [bind].
        rewrite firstn_app_exact by exact Hdone.
        replace (c0 + length cs) with (c0 + length cs + 0) at 1 by lia.
        rewrite <- Nat.add_assoc, skipn_app_exact by exact Hdone.
        rewrite Nat.add_0_r, skipn_repeat.
        rewrite (app_assoc done r). rewrite <- Hpre'.
        rewrite (IH (pre ++ [f]) (css_pre ++ [cs]));
          [| rewrite <- app_assoc; exact Hfs
           | rewrite <- app_assoc; exact Hcm
           | exact Hcss'
           | rewrite length_app; lia
           | lia ].
        rewrite Hpre'. cbn [concat]. rewrite <- !app_assoc.
        unfold delegation. cbn [app].
        rewrite length_app, Nat.sub_add_distr. reflexivity.
      * inversion Hblock. subst r.
        rewrite (repeat_split nan (k:=length cs) (m:=m)) by lia.
        rewrite (app_assoc done). rewrite <- Hpre'.
        rewrite (IH (pre ++ [f]) (css_pre ++ [cs]));
          [| rewrite <- app_assoc; exact Hfs
           | rewrite <- app_assoc; exact Hcm
           | exact Hcss'
           | rewrite length_app, repeat_length; lia
           | lia ].
        rewrite Hpre'. cbn [concat app]. rewrite <- !app_assoc.
        rewrite length_app, Nat.sub_add_distr. reflexivity.
    + inversion Hblock. subst r.
      rewrite (repeat_split nan (k:=length cs) (m:=m)) by lia.
      rewrite (app_assoc done). rewrite <- Hpre'.
      rewrite (IH (pre ++ [f]) (css_pre ++ [cs]));
        [| rewrite <- app_assoc; exact Hfs
         | rewrite <- app_assoc; exact Hcm
         | exact Hcss'
         | rewrite length_app, repeat_length; lia
         | lia ].
      rewrite Hpre'. cbn [concat app]. rewrite <- !app_assoc.
      rewrite length_app, Nat.sub_add_distr. reflexivity.
Qed.

End DerivativeLoop.

Lemma offsets_app (i0 : nat) (s1 s2 : list nat) :
  offsets i0 (s1 ++ s2) = offsets i0 s1 ++ offsets (i0 + list_sum s1) s2.
Proof.
  revert i0. induction s1 as [|s s1 IH]; intros i0; simpl.
  - rewrite Nat.add_0_r. reflexivity.
  - rewrite IH, Nat.add_assoc. reflexivity.
Qed.

Lemma offsets_bounds (i0 : nat) (sizes : list nat) (r : nat * nat) :
  In r (offsets i0 sizes) -> i0 <= fst r /\ snd r <= i0 + list_sum sizes.
Proof.
  revert i0. induction sizes as [|s sizes IH]; intros i0 H; [destruct H|].
  simpl in H. destruct H as [H|H].
  - subst r. simpl. lia.
  - apply IH in H. simpl. lia.
Qed.

(** The part of the layout that comes from the ranges of [sizes] holds
    only components that lie between the bounds of these ranges. *)
Lemma layout_part_bounds (cs : list Z) (i0 : nat) (sizes : list nat) :
  Forall (fun c => (Z.of_nat i0 <= c < Z.of_nat (i0 + list_sum sizes))%Z)
    (concat (map (fun r => OptFunctionList.select (Some cs) (fst r) (snd r))
               (offsets i0 sizes))).
Proof.
  apply Forall_forall. intros c Hc.
  apply in_concat in Hc. destruct Hc as [l [Hl Hc]].
  apply in_map_iff in Hl. destruct Hl as [r [Hr Hl]]. subst l.
  apply offsets_bounds in Hl. rewrite select_some in Hc.
  apply filter_In in Hc. destruct Hc as [_ Hc].
  destruct r as [a b]. apply owns_true in Hc. cbn [fst snd] in *. lia.
Qed.

Lemma filter_length_lt {A : Type} (p : A -> bool) (l : list A) (a : A) :
  In a l -> p a = false -> length (filter p l) < length l.
Proof.
  induction l as [|x l IH]; intros Hin Hp; [destruct Hin|].
  simpl. destruct Hin as [H|H].
  - subst x. rewrite Hp. pose proof (filter_length_le p l). lia.
  - specialize (IH H Hp). destruct (p x); simpl; lia.
Qed.

(** Functions none of which the derivative is delegated to contribute
    [nan]s only. *)
Lemma blocks_of_nans {F PR : Type} (nan : F) (ri rf : list string)
  (vars_int : list Z) (vars_float : list F) (var : nat)
  (fs : list (OptFunction.t F PR)) (css : list (list Z)) :
  length fs = length css ->
  (forall f cs, In (f, cs) (combine fs css) ->
     delegates rf var f cs = false) ->
  blocks_of nan ri rf vars_int vars_float var fs css
    (map (fun cs => repeat nan (length cs)) css).
Proof.
  revert css. induction fs as [|f fs IH]; intros css Hlen Hno.
  - destruct css; [constructor | discriminate].
  - destruct css as [|cs css]; [discriminate|]. simpl. constructor.
    + unfold block. rewrite (Hno f cs) by (left; reflexivity). reflexivity.
    + apply repeat_length.
    + apply IH; [simpl in Hlen; lia|].
      intros g gs Hg. apply Hno. right. exact Hg.
Qed.

Lemma blocks_of_app {F PR : Type} (nan : F) (ri rf : list string)
  (vars_int : list Z) (vars_float : list F) (var : nat)
  (fs1 fs2 : list (OptFunction.t F PR)) (css1 css2 : list (list Z))
  (rs1 rs2 : list (list F)) :
  blocks_of nan ri rf vars_int vars_float var fs1 css1 rs1 ->
  blocks_of nan ri rf vars_int vars_float var fs2 css2 rs2 ->
  blocks_of nan ri rf vars_int vars_float var (fs1 ++ fs2) (css1 ++ css2)
    (rs1 ++ rs2).
Proof.
  induction 1; intros H2; simpl; [exact H2|].
  constructor; auto.
Qed.

Lemma blocks_of_lengths {F PR : Type} (nan : F) (ri rf : list string)
  (vars_int : list Z) (vars_float : list F) (var : nat)
  (fs : list (OptFunction.t F PR)) (css : list (list Z))
  (rs : list (list F)) :
  blocks_of nan ri rf vars_int vars_float var fs css rs ->
  length css = length fs /\ Forall2 (fun r cs => length r = length cs) rs css.
Proof.
  induction 1 as [|f fs cs css r rs _ Hr _ [IH1 IH2]].
  - split; [reflexivity | constructor].
  - split; [simpl; f_equal; exact IH1 | constructor; assumption].
Qed.

Section Derivatives.

Variables F PR : Type.

Variable nan : F.

Abbreviation flist'' := (OptFunctionList.t F PR).

(** The number of output entries [ana_deriv] allocates. *)
Local Abbreviation n_cmpnts self components :=
  (match components with
   | Some cs => length cs
   | None => OptFunctionList.n_components self
   end).

Lemma selection_fits (self : flist'') (components : option (list Z)) :
  length (concat (selection components (OptFunctionList.sizes self)))
  <= n_cmpnts self components.
Proof.
  unfold selection. destruct components as [cs|].
  - rewrite selection_some_length. apply filter_length_le.
  - rewrite selection_none_length. unfold OptFunctionList.n_components.
    rewrite sum_list_sum. lia.
Qed.

(** [ana_deriv] on an initialized function list: the blocks of the
    functions in registration order, then the [nan]s that are left. *)
Lemma ana_deriv_calls_compiled (verbosity : nat) (self : flist'')
  (vars_int : list Z) (vars_float : list F) (var : nat)
  (components : option (list Z)) (rs : list (list F)) :
  let self' := compiled verbosity self in
  let css := selection components (OptFunctionList.sizes self') in
  length vars_int = length (OptFunctionList._vnamesi self') ->
  length vars_float = length (OptFunctionList._vnamesf self') ->
  blocks_of nan (OptFunctionList._vnamesi self')
    (OptFunctionList._vnamesf self') vars_int vars_float var
    (OptFunctionList.functions self') css rs ->
  OptFunctionList.ana_deriv_calls nan self' vars_int vars_float var
    components
  = Ok (concat rs
          ++ repeat nan (n_cmpnts self' components - length (concat css)),
        delegated nan (OptFunctionList._vnamesi self')
          (OptFunctionList._vnamesf self') vars_int vars_float var 0
          (OptFunctionList.functions self') css).
Proof.
  cbv zeta. intros Hli Hlf Hblocks.
  unfold OptFunctionList.ana_deriv_calls, enumerate, full.
  rewrite cmpnts_loop_selection. cbn [app].
  fold (selection components
          (OptFunctionList.sizes (compiled verbosity self))).
  exact (@deriv_loop_blocks F PR nan (compiled verbosity self)
           (OptFunctionList._vnamesi (compiled verbosity self))
           (OptFunctionList._vnamesf (compiled verbosity self))
           vars_int vars_float var _
           (compiled_sizes verbosity self) eq_refl eq_refl
           (@compiled_incl_int F PR verbosity self)
           (@compiled_incl_float F PR verbosity self) Hli Hlf
           _ _ _ Hblocks [] [] 0 0 _ [] [] eq_refl eq_refl eq_refl eq_refl
           (selection_fits (compiled verbosity self) components)).
Qed.

(** Assigning the blocks never changes the length of the output. *)
Lemma deriv_loop_length (self : flist'') (vars_int : list Z)
  (vars_float : list F) (var : nat) (cmpnts : list (list Z))
  (fs : list (nat * OptFunction.t F PR)) :
  forall (i0 c0 : nat) (deriv : list F)
    (calls : list (OptFunctionList.call F)) (d : list F)
    (calls' : list (OptFunctionList.call F)),
  OptFunctionList.deriv_loop self vars_int vars_float var cmpnts fs i0 c0
    deriv calls = Ok (d, calls') ->
  length d = length deriv.
Proof.
  induction fs as [|[fi f] fs IH]; intros i0 c0 deriv calls d calls' H.
  - inversion H. reflexivity.
  - cbn [OptFunctionList.deriv_loop] in H.
    repeat match type of H with
           | bind ?c _ = Ok _ =>
               destruct c eqn:?; cbn [bind] in H; [|discriminate]
           end.
    match type of H with
    | (if ?b then _ else _) = _ => destruct b
    end.
    + repeat match type of H with
             | bind ?c _ = Ok _ =>
                 destruct c eqn:?; cbn [bind] in H; [|discriminate]
             end.
      apply IH in H. rewrite H. eapply setslice_length. eassumption.
    + apply IH in H. exact H.
Qed.

Lemma ana_deriv_length (self : flist'') (vars_int : list Z)
  (vars_float : list F) (var : nat) (cs : list Z) (d : list F) :
  OptFunctionList.ana_deriv nan self vars_int vars_float var (Some cs)
  = Ok d ->
  length d = length cs.
Proof.
  unfold OptFunctionList.ana_deriv, OptFunctionList.ana_deriv_calls.
  intros H.
  match type of H with
  | bind ?c _ = Ok _ => destruct c as [[d' calls']|] eqn:E;
                          cbn [bind] in H; [|discriminate]
  end.
  inversion H. subst d'. apply deriv_loop_length in E.
  rewrite E. apply repeat_length.
Qed.

Lemma ana_deriv_compiled (verbosity : nat) (self : flist'')
  (vars_int : list Z) (vars_float : list F) (var : nat)
  (components : option (list Z)) (rs : list (list F)) :
  let self' := compiled verbosity self in
  let css := selection components (OptFunctionList.sizes self') in
  length vars_int = length (OptFunctionList._vnamesi self') ->
  length vars_float = length (OptFunctionList._vnamesf self') ->
  blocks_of nan (OptFunctionList._vnamesi self')
    (OptFunctionList._vnamesf self') vars_int vars_float var
    (OptFunctionList.functions self') css rs ->
  OptFunctionList.ana_deriv nan self' vars_int vars_float var components
  = Ok (concat rs
          ++ repeat nan (n_cmpnts self' components - length (concat css))).
Proof.
  cbv zeta. intros Hli Hlf Hblocks. unfold OptFunctionList.ana_deriv.
  rewrite (@ana_deriv_calls_compiled verbosity self vars_int vars_float var
             components rs Hli Hlf Hblocks).
  reflexivity.
Qed.

Lemma selection_length (components : option (list Z)) (sizes : list nat) :
  length (selection components sizes) = length sizes.
Proof. unfold selection. rewrite length_map. apply offsets_length. Qed.

Lemma selection_none_lengths (sizes : list nat) (i0 : nat) :
  map (@length Z)
    (map (fun r => OptFunctionList.select None (fst r) (snd r))
       (offsets i0 sizes))
  = sizes.
Proof.
  revert i0. induction sizes as [|s sizes IH]; intros i0; [reflexivity|].
  cbn [offsets map fst snd]. rewrite IH. f_equal.
  unfold OptFunctionList.select, range. rewrite length_map, length_seq. lia.
Qed.

Lemma app_inj_length {A : Type} (a1 a2 b1 b2 : list A) :
  length a1 = length a2 -> a1 ++ b1 = a2 ++ b2 -> a1 = a2 /\ b1 = b2.
Proof.
  revert a2. induction a1 as [|x a1 IH]; intros [|y a2] Hlen H;
    try discriminate.
  - split; [reflexivity | exact H].
  - simpl in H. inversion H. subst y.
    destruct (IH a2) as [E1 E2]; [simpl in Hlen; lia | assumption |].
    subst. split; reflexivity.
Qed.

Lemma length_concat_sum {A : Type} (ls : list (list A)) :
  length (concat ls) = list_sum (map (@length A) ls).
Proof.
  induction ls as [|l ls IH]; [reflexivity|].
  simpl. rewrite length_app, IH. reflexivity.
Qed.

Lemma not_contains (l : list nat) (n : nat) :
  ~ In n l -> contains l n = false.
Proof.
  intros H. destruct (contains l n) eqn:E; [|reflexivity].
  apply contains_In in E. contradiction.
Qed.

(** The sentinels of [ana_deriv].  In an initialized function list,
    [ana_deriv] for a float variable that no stored float index mapping
    holds returns [nan]s only; with an empty component list it returns
    the empty vector; and when [B] is the only function whose mapping
    holds the variable, the output is [nan] in the entries of the
    functions before [B], then the vector that [B] returns on the call
    the list makes, which passes the selected components [csB] as they
    are, then [nan] again; when all components are requested these are
    the entries at the ledger offsets of the functions. *)
Theorem ana_deriv_sentinel (verbosity : nat) (self : flist'')
  (vars_int : list Z) (vars_float : list F) (var : nat)
  (components : option (list Z)) :
  let self' := snd (OptFunctionList.initialize verbosity self) in
  let ri := OptFunctionList._vnamesi self' in
  let rf := OptFunctionList._vnamesf self' in
  let css := selection components (OptFunctionList.sizes self') in
  length vars_int = length ri ->
  length vars_float = length rf ->
  ((forall ix l, In ix (OptFunctionList.func_vars_float self') ->
                 list_of ix = Ok l -> ~ In var l) ->
   OptFunctionList.ana_deriv nan self' vars_int vars_float var components
   = Ok (repeat nan (n_cmpnts self' components)))
  /\ OptFunctionList.ana_deriv nan self' vars_int vars_float var (Some [])
     = Ok []
  /\ (forall pre B post css_pre csB css_post r,
        OptFunctionList.functions self' = pre ++ B :: post ->
        css = css_pre ++ csB :: css_post ->
        length css_pre = length pre ->
        (forall f, In f (pre ++ post) ->
           ~ In var (positions rf (OptFunction.var_names_float f))) ->
        In var (positions rf (OptFunction.var_names_float B)) ->
        OptFunction.ana_deriv B
          (local_vector 0%Z ri vars_int (OptFunction.var_names_int B))
          (local_vector nan rf vars_float (OptFunction.var_names_float B))
          (rank (positions rf (OptFunction.var_names_float B)) var)
          (Some csB) = Ok r ->
        length r = length csB ->
        OptFunctionList.ana_deriv nan self' vars_int vars_float var
          components
        = Ok (repeat nan (length (concat css_pre)) ++ r
                ++ repeat nan (n_cmpnts self' components
                               - length (concat css_pre) - length r))
        /\ (components = None ->
            length (concat css_pre) = list_sum (ledger pre)
            /\ length r = OptFunction.n_components B)).
Proof.
  rewrite initialize_compiled. cbn [snd]. cbv zeta.
  intros Hli Hlf.
  assert (forall cps,
            length (selection cps
                      (OptFunctionList.sizes (compiled verbosity self)))
            = length (OptFunctionList.functions (compiled verbosity self)))
    as Hsel by (intros cps; rewrite selection_length, compiled_sizes;
                apply length_map).
  split; [|split].
  - intros Hno.
    assert (blocks_of nan
              (OptFunctionList._vnamesi (compiled verbosity self))
              (OptFunctionList._vnamesf (compiled verbosity self))
              vars_int vars_float var
              (OptFunctionList.functions (compiled verbosity self))
              (selection components
                 (OptFunctionList.sizes (compiled verbosity self)))
              (map (fun cs => repeat nan (length cs))
                 (selection components
                    (OptFunctionList.sizes (compiled verbosity self)))))
      as Hblocks.
    { apply blocks_of_nans; [symmetry; apply Hsel|].
      intros f cs Hin. unfold delegates.
      rewrite not_contains; [apply andb_false_r|].
      apply in_combine_l in Hin.
      apply (Hno (Positions
                    (positions
                       (OptFunctionList._vnamesf (compiled verbosity self))
                       (OptFunction.var_names_float f))));
        [|reflexivity].
      apply (in_map (fun f => Positions
                                (positions _ (OptFunction.var_names_float f)))
               _ _ Hin). }
    rewrite (@ana_deriv_compiled verbosity self vars_int vars_float var
               components _ Hli Hlf Hblocks).
    rewrite concat_nans, <- repeat_app. do 2 f_equal.
    pose proof (selection_fits (compiled verbosity self) components).
    lia.
  - assert (blocks_of nan
              (OptFunctionList._vnamesi (compiled verbosity self))
              (OptFunctionList._vnamesf (compiled verbosity self))
              vars_int vars_float var
              (OptFunctionList.functions (compiled verbosity self))
              (selection (Some [])
                 (OptFunctionList.sizes (compiled verbosity self)))
              (map (fun cs => repeat nan (length cs))
                 (selection (Some [])
                    (OptFunctionList.sizes (compiled verbosity self)))))
      as Hblocks.
    { apply blocks_of_nans; [symmetry; apply Hsel|].
      intros f cs Hin. apply in_combine_r in Hin. unfold selection in Hin.
      apply in_map_iff in Hin. destruct Hin as [r [Hr _]]. subst cs.
      reflexivity. }
    rewrite (@ana_deriv_compiled verbosity self vars_int vars_float var
               (Some []) _ Hli Hlf Hblocks).
    rewrite concat_nans.
    pose proof (selection_fits (compiled verbosity self) (Some [])) as Hfit.
    cbn [length] in Hfit.
    replace (length (concat (selection (Some [])
               (OptFunctionList.sizes (compiled verbosity self)))))
      with 0 by lia.
    reflexivity.
  - intros pre B post css_pre csB css_post r Hfs Hcss Hpre Hothers HB Hcall Hr.
    pose proof (selection_fits (compiled verbosity self) components) as Hfit.
    pose proof (Hsel components) as Hlen.
    rewrite Hcss, Hfs, !length_app in Hlen. cbn [length] in Hlen.
    assert (forall fs css', length fs = length css' ->
              (forall f, In f fs -> In f (pre ++ post)) ->
              blocks_of nan
                (OptFunctionList._vnamesi (compiled verbosity self))
                (OptFunctionList._vnamesf (compiled verbosity self))
                vars_int vars_float var fs css'
                (map (fun cs => repeat nan (length cs)) css')) as Hnans.
    { intros fs css' Hl Hsub. apply blocks_of_nans; [exact Hl|].
      intros f cs Hin. unfold delegates.
      rewrite not_contains; [apply andb_false_r|].
      apply Hothers, Hsub. apply in_combine_l in Hin. exact Hin. }
    assert (block nan (OptFunctionList._vnamesi (compiled verbosity self))
              (OptFunctionList._vnamesf (compiled verbosity self))
              vars_int vars_float var B csB = Ok r) as HblockB.
    { unfold block, delegates.
      destruct (Nat.ltb_spec 0 (length csB)) as [Hpos|Hpos]; cbn [andb].
      - assert (contains _ var = true) as -> by (apply contains_In; exact HB).
        exact Hcall.
      - destruct r; [|simpl in Hr; lia].
        replace (length csB) with 0 by lia. reflexivity. }
    split.
    + assert (blocks_of nan
                (OptFunctionList._vnamesi (compiled verbosity self))
                (OptFunctionList._vnamesf (compiled verbosity self))
                vars_int vars_float var
                (OptFunctionList.functions (compiled verbosity self))
                (selection components
                   (OptFunctionList.sizes (compiled verbosity self)))
                (map (fun cs => repeat nan (length cs)) css_pre
                   ++ r :: map (fun cs => repeat nan (length cs)) css_post))
        as Hblocks.
      { rewrite Hfs, Hcss. apply blocks_of_app.
        - apply Hnans; [lia|]. intros f Hf. apply in_or_app. left. exact Hf.
        - constructor; [exact HblockB | exact Hr |].
          apply Hnans; [lia|]. intros f Hf. apply in_or_app. right. exact Hf. }
      rewrite (@ana_deriv_compiled verbosity self vars_int vars_float var
                 components _ Hli Hlf Hblocks).
      assert (length (concat css_pre) + length csB
              + length (concat css_post)
              <= n_cmpnts (compiled verbosity self) components) as Hfit'.
      { rewrite Hcss, concat_app in Hfit. cbn [concat] in Hfit.
        rewrite !length_app in Hfit. lia. }
      rewrite Hcss, !concat_app. cbn [concat].
      rewrite !concat_nans, !length_app, <- !app_assoc, <- repeat_app.
      do 4 f_equal. lia.
    + intros ->. unfold selection in Hcss.
      pose proof (selection_none_lengths
                    (OptFunctionList.sizes (compiled verbosity self)) 0)
        as Hls.
      rewrite Hcss, compiled_sizes, Hfs, !map_app in Hls.
      cbn [map] in Hls.
      apply app_inj_length in Hls; [|rewrite !length_map; exact Hpre].
      destruct Hls as [Hl1 Hl2]. injection Hl2 as HlB _.
      rewrite length_concat_sum, Hl1, Hr. split; [reflexivity | exact HlB].
Qed.

Lemma blocks_lengths_concat (rs : list (list F)) (css : list (list Z)) :
  Forall2 (fun r cs => length r = length cs) rs css ->
  length (concat rs) = length (concat css).
Proof.
  induction 1 as [|r cs rs css Hr _ IH]; [reflexivity|].
  simpl. rewrite !length_app, Hr, IH. reflexivity.
Qed.

Lemma selection_some (cs : list Z) (sizes : list nat) :
  selection (Some cs) sizes
  = map (fun r => filter (owns r) cs) (offsets 0 sizes).
Proof.
  unfold selection. apply map_ext. intros [a b]. reflexivity.
Qed.

(** The owner of a component is the function whose range holds it. *)
Lemma owner_range (sizes : list nat) :
  forall (i0 : nat) (c : Z) (k : nat) (r : nat * nat),
  nth_error (offsets i0 sizes) k = Some r ->
  owner i0 sizes c = k <-> owns r c = true.
Proof.
  induction sizes as [|s sizes IH]; intros i0 c k r Hr.
  - destruct k; discriminate.
  - destruct k as [|k]; simpl in Hr.
    + inversion Hr. subst r. simpl.
      destruct (owns (i0, i0 + s) c); split; congruence.
    + simpl. pose proof (nth_error_In _ _ Hr) as Hin.
      apply offsets_bounds in Hin. specialize (IH (i0 + s) c k r Hr).
      destruct (owns (i0, i0 + s) c) eqn:E.
      * split; [discriminate|]. intros Hc. exfalso.
        rewrite owns_true in E, Hc. cbn [fst snd] in E. lia.
      * rewrite <- IH. split; [intros H; injection H as H; exact H | congruence].
Qed.

(** A component has the number of functions for owner exactly when it
    lies in no range. *)
Lemma owner_outside (sizes : list nat) :
  forall (i0 : nat) (c : Z),
  owner i0 sizes c <= length sizes
  /\ (owner i0 sizes c = length sizes
      <-> owns (i0, i0 + list_sum sizes) c = false).
Proof.
  induction sizes as [|s sizes IH]; intros i0 c.
  - simpl. split; [lia|]. split; [|reflexivity]. intros _.
    apply owns_false. cbn [fst snd]. lia.
  - simpl. destruct (IH (i0 + s) c) as [IH1 IH2].
    destruct (owns (i0, i0 + s) c) eqn:E.
    + split; [lia|]. split; [discriminate|]. intros H. exfalso.
      rewrite owns_true in E. rewrite owns_false in H.
      cbn [fst snd] in *. lia.
    + split; [lia|]. rewrite owns_false in E. cbn [fst snd] in E.
      split.
      * intros H. injection H as H. apply IH2 in H.
        rewrite owns_false in *. cbn [fst snd] in *. lia.
      * intros H. f_equal. apply IH2.
        rewrite owns_false in *. cbn [fst snd] in *. lia.
Qed.

Lemma filter_implied {A : Type} (p q : A -> bool) (l : list A) :
  (forall x, p x = true -> q x = true) ->
  filter p (filter q l) = filter p l.
Proof.
  intros H. induction l as [|x l IH]; [reflexivity|]. simpl.
  destruct (q x) eqn:Eq; simpl.
  - destruct (p x); [f_equal|]; exact IH.
  - destruct (p x) eqn:Ep; [|exact IH].
    apply H in Ep. congruence.
Qed.

Lemma layout_from_filter (q : Z -> bool) (cs : list Z) (sizes : list nat) :
  forall i0,
  (forall r c, In r (offsets i0 sizes) -> owns r c = true -> q c = true) ->
  layout_from i0 sizes (filter q cs) = layout_from i0 sizes cs.
Proof.
  unfold layout_from. induction sizes as [|s sizes IH]; intros i0 H; [reflexivity|].
  cbn [offsets map concat]. rewrite IH.
  - f_equal. apply filter_implied. intros c. apply H. left. reflexivity.
  - intros r c Hr. apply H. right. exact Hr.
Qed.

Lemma sorted_zero_first {A : Type} (g : A -> nat) (l : list A) :
  StronglySorted (fun a b => g a <= g b) l ->
  filter (fun a => Nat.eqb (g a) 0) l
    ++ filter (fun a => negb (Nat.eqb (g a) 0)) l = l.
Proof.
  induction 1 as [|x l Hs IH Hx]; [reflexivity|]. simpl.
  destruct (Nat.eqb_spec (g x) 0) as [E|E]; simpl.
  - f_equal. exact IH.
  - assert (filter (fun a => Nat.eqb (g a) 0) l = []) as Hnone.
    { clear IH Hs. induction l as [|y l IHl]; [reflexivity|].
      inversion Hx as [|? ? Hy Hl]. subst. simpl.
      destruct (Nat.eqb_spec (g y) 0); [lia | exact (IHl Hl)]. }
    rewrite Hnone in *. simpl in *. f_equal. exact IH.
Qed.

Lemma sorted_filter {A : Type} (R : A -> A -> Prop) (p : A -> bool)
  (l : list A) :
  StronglySorted R l -> StronglySorted R (filter p l).
Proof.
  induction 1 as [|x l Hs IH Hx]; [constructor|]. simpl.
  destruct (p x); [|exact IH]. constructor; [exact IH|].
  rewrite Forall_forall in *. intros y Hy. apply Hx.
  apply filter_In in Hy. apply Hy.
Qed.

Lemma sorted_weaken {A : Type} (R R' : A -> A -> Prop) (l : list A) :
  (forall a b, In a l -> In b l -> R a b -> R' a b) ->
  StronglySorted R l -> StronglySorted R' l.
Proof.
  intros H Hs. induction Hs as [|x l Hs IH Hx]; [constructor|].
  constructor.
  - apply IH. intros a b Ha Hb. apply H; right; assumption.
  - rewrite Forall_forall in *. intros y Hy.
    apply H; [left; reflexivity | right; exact Hy | apply Hx, Hy].
Qed.

Lemma sorted_app {A : Type} (R : A -> A -> Prop) (l1 l2 : list A) :
  StronglySorted R l1 -> StronglySorted R l2 ->
  (forall a b, In a l1 -> In b l2 -> R a b) ->
  StronglySorted R (l1 ++ l2).
Proof.
  intros H1 H2 H. induction H1 as [|x l Hs IH Hx]; [exact H2|].
  simpl. constructor.
  - apply IH. intros a b Ha. apply H. right. exact Ha.
  - apply Forall_app. split; [exact Hx|].
    apply Forall_forall. intros b Hb. apply H; [left; reflexivity | exact Hb].
Qed.

(** A list in the order of its owners is its layout, followed by the
    components that lie in no range. *)
Lemma sorted_layout_from (sizes : list nat) :
  forall (i0 : nat) (cs : list Z),
  StronglySorted (fun a b => owner i0 sizes a <= owner i0 sizes b) cs ->
  layout_from i0 sizes cs
    ++ filter (fun c => negb (owns (i0, i0 + list_sum sizes) c)) cs
  = cs.
Proof.
  induction sizes as [|s sizes IH]; intros i0 cs Hs.
  - unfold layout_from. simpl. clear Hs.
    induction cs as [|c cs IHc]; [reflexivity|]. simpl.
    replace (owns (i0, i0 + 0) c) with false
      by (symmetry; apply owns_false; cbn [fst snd]; lia).
    simpl. f_equal. exact IHc.
  - pose proof (sorted_zero_first _ Hs) as Hsplit. cbv beta in Hsplit.
    assert (forall c, Nat.eqb (owner i0 (s :: sizes) c) 0
                      = owns (i0, i0 + s) c) as Hzero
      by (intros c; simpl; destruct (owns (i0, i0 + s) c); reflexivity).
    rewrite (filter_ext _ _ Hzero) in Hsplit.
    rewrite (filter_ext
               (fun c => negb (Nat.eqb (owner i0 (s :: sizes) c) 0))
               (fun c => negb (owns (i0, i0 + s) c))) in Hsplit
      by (intros c; cbv beta; rewrite Hzero; reflexivity).
    set (rest := filter (fun c => negb (owns (i0, i0 + s) c)) cs) in *.
    assert (StronglySorted
              (fun a b => owner (i0 + s) sizes a <= owner (i0 + s) sizes b)
              rest) as Hrest.
    { apply (@sorted_weaken _
               (fun a b => owner i0 (s :: sizes) a
                           <= owner i0 (s :: sizes) b)).
      - intros a b Ha Hb. apply filter_In in Ha, Hb.
        destruct Ha as [_ Ha], Hb as [_ Hb]. simpl.
        apply negb_true_iff in Ha, Hb. rewrite Ha, Hb. lia.
      - apply sorted_filter. exact Hs. }
    specialize (IH (i0 + s) rest Hrest).
    unfold layout_from in *. cbn [offsets map concat fst snd].
    fold (layout_from (i0 + s) sizes cs). fold (layout_from (i0 + s) sizes rest) in IH.
    unfold rest in IH at 1. rewrite layout_from_filter in IH.
    2:{ intros r c Hr Hc. apply offsets_bounds in Hr.
        apply negb_true_iff, owns_false. apply owns_true in Hc.
        cbn [fst snd]. lia. }
    unfold rest in IH at 1. rewrite filter_filter in IH.
    rewrite <- app_assoc.
    rewrite (filter_ext
               (fun c => negb (owns (i0, i0 + list_sum (s :: sizes)) c))
               (fun c => negb (owns (i0, i0 + s) c)
                         && negb (owns (i0 + s, i0 + s + list_sum sizes) c))).
    2:{ intros c. simpl list_sum.
        destruct (owns (i0, i0 + s) c) eqn:E1,
          (owns (i0 + s, i0 + s + list_sum sizes) c) eqn:E2,
          (owns (i0, i0 + (s + list_sum sizes)) c) eqn:E3;
          try reflexivity;
          rewrite ?owns_true, ?owns_false in *; cbn [fst snd] in *; lia. }
    rewrite IH. exact Hsplit.
Qed.

Lemma layout_from_bounds (cs : list Z) (i0 : nat) (sizes : list nat) :
  Forall (fun c => owns (i0, i0 + list_sum sizes) c = true)
    (layout_from i0 sizes cs).
Proof.
  eapply Forall_impl; [|exact (layout_part_bounds cs i0 sizes)].
  intros c Hc. apply owns_true. exact Hc.
Qed.

(** The layout is in the order of the owners. *)
Lemma layout_from_sorted (cs : list Z) (sizes : list nat) :
  forall i0,
  StronglySorted (fun a b => owner i0 sizes a <= owner i0 sizes b)
    (layout_from i0 sizes cs).
Proof.
  induction sizes as [|s sizes IH]; intros i0; [constructor|].
  unfold layout_from. cbn [offsets map concat fst snd].
  fold (layout_from (i0 + s) sizes cs).
  assert (forall a, In a (filter (owns (i0, i0 + s)) cs) ->
                    owner i0 (s :: sizes) a = 0) as Hfirst.
  { intros a Ha. apply filter_In in Ha. destruct Ha as [_ Ha].
    simpl. rewrite Ha. reflexivity. }
  assert (forall a, In a (layout_from (i0 + s) sizes cs) ->
                    owner i0 (s :: sizes) a = S (owner (i0 + s) sizes a))
    as Hlater.
  { intros a Ha. pose proof (layout_from_bounds cs (i0 + s) sizes) as Hb.
    rewrite Forall_forall in Hb. specialize (Hb a Ha). simpl.
    replace (owns (i0, i0 + s) a) with false; [reflexivity|].
    symmetry. apply owns_false. apply owns_true in Hb.
    cbn [fst snd] in *. lia. }
  apply sorted_app.
  - generalize (filter (owns (i0, i0 + s)) cs), Hfirst.
    intros l Hl. induction l as [|x l IHl]; constructor.
    + apply IHl. intros a Ha. apply Hl. right. exact Ha.
    + apply Forall_forall. intros y Hy.
      rewrite (Hl x) by (left; reflexivity). lia.
  - apply (@sorted_weaken _
             (fun a b => owner (i0 + s) sizes a <= owner (i0 + s) sizes b));
      [|apply IH].
    intros a b Ha Hb Hab. rewrite (Hlater a Ha), (Hlater b Hb). lia.
  - intros a b Ha Hb. rewrite (Hfirst a Ha). lia.
Qed.

Lemma requested_split (n : nat) (L : list Z) :
  forall (cs : list Z) (k : nat),
  requested n cs = map Some L ++ repeat None k ->
  exists rest,
    cs = L ++ rest /\ Forall (fun c => owns (0, n) c = false) rest.
Proof.
  unfold requested. induction L as [|l L IH]; intros cs k H.
  - exists cs. split; [reflexivity|]. simpl in H. revert k H.
    induction cs as [|c cs IHc]; intros k H; constructor.
    + destruct k; simpl in H; [discriminate|].
      destruct (owns (0, n) c); [discriminate | reflexivity].
    + destruct k; simpl in H; [discriminate|].
      injection H as _ H. exact (IHc k H).
  - destruct cs as [|c cs]; [discriminate|]. simpl in H.
    injection H as Hc H. destruct (IH cs k H) as [rest [E Hrest]].
    exists rest. split; [|exact Hrest].
    destruct (owns (0, n) c); [|discriminate].
    injection Hc as ->. simpl. f_equal. exact E.
Qed.

Lemma layout_from_zero (cs : list Z) (sizes : list nat) :
  layout cs sizes = layout_from 0 sizes cs.
Proof. unfold layout, layout_from. rewrite selection_some. reflexivity. Qed.

(** The output follows the listed components index for index exactly
    when the list is in the order of the owners. *)
Lemma answered_requested (cs : list Z) (sizes : list nat) :
  answered cs sizes = requested (list_sum sizes) cs
  <-> StronglySorted (fun a b => owner 0 sizes a <= owner 0 sizes b) cs.
Proof.
  unfold answered. rewrite layout_from_zero. split.
  - intros H. symmetry in H. apply requested_split in H.
    destruct H as [rest [E Hrest]]. rewrite E.
    apply sorted_app.
    + apply layout_from_sorted.
    + assert (forall c, In c rest -> owner 0 sizes c = length sizes) as Hout.
      { intros c Hc. rewrite Forall_forall in Hrest.
        apply (owner_outside sizes 0 c). exact (Hrest c Hc). }
      clear E Hrest. induction rest as [|x rest IHr]; constructor.
      * apply IHr. intros c Hc. apply Hout. right. exact Hc.
      * apply Forall_forall. intros y Hy.
        rewrite (Hout x), (Hout y) by (simpl; auto). lia.
    + intros a b _ Hb. rewrite Forall_forall in Hrest.
      pose proof (proj1 (owner_outside sizes 0 a)) as Ha.
      rewrite (proj2 (proj2 (owner_outside sizes 0 b)) (Hrest b Hb)).
      exact Ha.
  - intros Hs. pose proof (@sorted_layout_from sizes 0 cs Hs) as H.
    rewrite Nat.add_0_l in H.
    set (outs := filter (fun c => negb (owns (0, list_sum sizes) c)) cs) in *.
    assert (length cs - length (layout_from 0 sizes cs) = length outs) as ->.
    { apply (f_equal (@length Z)) in H. rewrite length_app in H. lia. }
    unfold requested.
    transitivity
      (map (fun c => if owns (0, list_sum sizes) c then Some c else None)
         (layout_from 0 sizes cs ++ outs)); [|f_equal; exact H].
    rewrite map_app. f_equal.
    + apply map_ext_in. intros c Hc.
      pose proof (layout_from_bounds cs 0 sizes) as Hb. rewrite Forall_forall in Hb.
      specialize (Hb c Hc). rewrite Nat.add_0_l in Hb. rewrite Hb.
      reflexivity.
    + clear H. unfold outs. generalize cs. clear.
      intros cs. induction cs as [|c cs IH]; [reflexivity|]. simpl.
      destruct (owns (0, list_sum sizes) c) eqn:E; simpl; [exact IH|].
      rewrite E. f_equal. exact IH.
Qed.

Lemma sorted_pair {A : Type} (R : A -> A -> Prop) (l1 l2 l3 : list A)
  (a b : A) :
  StronglySorted R (l1 ++ a :: l2 ++ b :: l3) -> R a b.
Proof.
  induction l1 as [|x l1 IH]; simpl; intros H.
  - inversion H as [|? ? _ Hall]. subst. rewrite Forall_forall in Hall.
    apply Hall. apply in_elt.
  - inversion H. auto.
Qed.

(** C10, as the code has it.  In an initialized function list whose
    functions return one value per component requested from them,
    [ana_deriv] with an explicit component list returns as many entries
    as the list has, whatever it lists (this much in any state).  The
    entries are the blocks of the functions in registration order; the
    block of a function answers the listed components of its offset
    range, in the listed order; the [nan]s that follow are as many as
    the listed components outside [0, n_components()), at least one when
    such a component is listed.  The output follows the listed
    components index for index exactly when the list is in the order of
    the owners, a component outside [0, n_components()) counting as
    owned after the last function: it does not when a component of a
    later function, or one outside, is listed before a component of an
    earlier function, or before one inside. *)
Theorem ana_deriv_layout (verbosity : nat) (self : flist'')
  (vars_int : list Z) (vars_float : list F) (var : nat) (cs : list Z)
  (rs : list (list F)) :
  let self' := snd (OptFunctionList.initialize verbosity self) in
  let sizes := OptFunctionList.sizes self' in
  let n := OptFunctionList.n_components self' in
  length vars_int = length (OptFunctionList._vnamesi self') ->
  length vars_float = length (OptFunctionList._vnamesf self') ->
  blocks_of nan (OptFunctionList._vnamesi self')
    (OptFunctionList._vnamesf self') vars_int vars_float var
    (OptFunctionList.functions self') (selection (Some cs) sizes) rs ->
  OptFunctionList.ana_deriv nan self' vars_int vars_float var (Some cs)
  = Ok (concat rs ++ repeat nan (length cs - length (layout cs sizes)))
  /\ length (concat rs ++ repeat nan (length cs - length (layout cs sizes)))
     = length cs
  /\ Forall2 (fun r sel => length r = length sel) rs
       (selection (Some cs) sizes)
  /\ selection (Some cs) sizes
     = map (fun r => filter (owns r) cs) (offsets 0 sizes)
  /\ length (layout cs sizes) = length (filter (owns (0, n)) cs)
  /\ ((exists c, In c cs /\ ~ (0 <= c < Z.of_nat n)%Z) ->
      length (layout cs sizes) < length cs)
  /\ (answered cs sizes = requested n cs
      <-> StronglySorted
            (fun a b => owner 0 sizes a <= owner 0 sizes b) cs)
  /\ (forall l1 a l2 b l3,
        cs = l1 ++ a :: l2 ++ b :: l3 ->
        owner 0 sizes b < owner 0 sizes a ->
        answered cs sizes <> requested n cs)
  /\ (forall c k r,
        nth_error (offsets 0 sizes) k = Some r ->
        owner 0 sizes c = k <-> owns r c = true)
  /\ (forall c,
        owner 0 sizes c = length sizes <-> ~ (0 <= c < Z.of_nat n)%Z)
  /\ (forall (self0 : flist'') (d : list F),
        OptFunctionList.ana_deriv nan self0 vars_int vars_float var
          (Some cs) = Ok d ->
        length d = length cs).
Proof.
  rewrite initialize_compiled. cbn [snd]. cbv zeta.
  intros Hli Hlf Hblocks.
  pose proof (blocks_of_lengths Hblocks) as [_ Hlens].
  pose proof (selection_fits (compiled verbosity self) (Some cs)) as Hfit.
  assert (OptFunctionList.n_components (compiled verbosity self)
          = list_sum (OptFunctionList.sizes (compiled verbosity self)))
    as Hn by (unfold OptFunctionList.n_components; apply sum_list_sum).
  assert (length (layout cs (OptFunctionList.sizes (compiled verbosity self)))
          = length (filter
                      (owns (0, OptFunctionList.n_components
                                  (compiled verbosity self))) cs)) as Hlay.
  { unfold layout, selection, OptFunctionList.n_components.
    rewrite selection_some_length, sum_list_sum. reflexivity. }
  split; [|split; [|split; [|split; [|split; [|split; [|split;
    [|split; [|split; [|split]]]]]]]]].
  - apply (@ana_deriv_compiled verbosity self vars_int vars_float var
             (Some cs) rs Hli Hlf Hblocks).
  - rewrite length_app, repeat_length, (blocks_lengths_concat Hlens).
    unfold layout. lia.
  - exact Hlens.
  - apply selection_some.
  - exact Hlay.
  - intros [c [Hc Hout]]. rewrite Hlay.
    apply (filter_length_lt _ _ c Hc). apply owns_false. exact Hout.
  - rewrite Hn. apply answered_requested.
  - intros l1 a l2 b l3 Hcs Hab Halign. rewrite Hn in Halign.
    apply answered_requested in Halign. rewrite Hcs in Halign.
    apply sorted_pair in Halign. lia.
  - intros c k r Hr. exact (@owner_range _ 0 c k r Hr).
  - intros c. rewrite Hn.
    rewrite (proj2 (owner_outside
                      (OptFunctionList.sizes (compiled verbosity self))
                      0 c)).
    rewrite owns_false, Nat.add_0_l. reflexivity.
  - intros self0 d Hd. exact (ana_deriv_length _ _ _ _ _ Hd).
Qed.

End Derivatives.

(** ** The code on concrete function lists *)

(** C1, on the code: with the component boundaries [0,1), [1,3), [3,5)
    and the components [[2]], [ana_deriv] calls the second function
    only, and with the variable's rank [0] in that function's mapping;
    but the components it passes are [[2]], the offset into the whole
    output, not the function's own component [2 - 1 = 1]. *)
Theorem ana_deriv_passes_global_components :
  offsets 0 (OptFunctionList.sizes Demo.abc) = [(0, 1); (1, 3); (3, 5)]
  /\ OptFunctionList._vnamesf Demo.abc = ["x"; "z"; "y"]%string
  /\ OptFunctionList.ana_deriv_calls PrimFloat.nan Demo.abc []
       [Demo.ten; Demo.twenty; Demo.thirty] 2 (Some [2%Z])
     = Ok ([Demo.slope 2],
           [{| OptFunctionList.call_fi := 1;
               OptFunctionList.call_varsi := [];
               OptFunctionList.call_varsf := [Demo.thirty];
               OptFunctionList.call_vi := 0;
               OptFunctionList.call_components := [2%Z] |}]).
Proof. repeat split. Qed.

(** C7, on the code: in the list of [A], of one component over [x], and
    [B], of two components over [y], only [B] depends on [y], and the
    derivative of [B] for [y] is [[slope 0; slope 1]], for all its
    components as for its components [[0; 1]].  [ana_deriv] of the list
    for [y] leaves the entry of [A] at [nan], but the entries of [B],
    at the offsets [1] and [2], are not the derivative of [B]: the list
    asks [B] for the components [[1; 2]], the offsets into its own
    output, and stores [[slope 1; slope 2]]; so it does when these two
    components are requested by name. *)
Theorem ana_deriv_misses_own_result :
  OptFunctionList.functions Demo.ab
  = [Demo.held Demo.A_x; Demo.held Demo.B_y]
  /\ OptFunctionList._vnamesf Demo.ab = ["x"; "y"]%string
  /\ OptFunctionList.func_vars_float Demo.ab
     = [Positions [0]; Positions [1]]
  /\ offsets 0 (OptFunctionList.sizes Demo.ab) = [(0, 1); (1, 3)]
  /\ OptFunction.ana_deriv (Demo.held Demo.B_y) [] [Demo.twenty] 0 None
     = Ok [Demo.slope 0; Demo.slope 1]
  /\ OptFunction.ana_deriv (Demo.held Demo.B_y) [] [Demo.twenty] 0
       (Some [0%Z; 1%Z])
     = Ok [Demo.slope 0; Demo.slope 1]
  /\ OptFunctionList.ana_deriv_calls PrimFloat.nan Demo.ab []
       [Demo.ten; Demo.twenty] 1 None
     = Ok ([PrimFloat.nan; Demo.slope 1; Demo.slope 2],
           [{| OptFunctionList.call_fi := 1;
               OptFunctionList.call_varsi := [];
               OptFunctionList.call_varsf := [Demo.twenty];
               OptFunctionList.call_vi := 0;
               OptFunctionList.call_components := [1%Z; 2%Z] |}])
  /\ OptFunctionList.ana_deriv_calls PrimFloat.nan Demo.ab []
       [Demo.ten; Demo.twenty] 1 (Some [1%Z; 2%Z])
     = Ok ([Demo.slope 1; Demo.slope 2],
           [{| OptFunctionList.call_fi := 1;
               OptFunctionList.call_varsi := [];
               OptFunctionList.call_varsf := [Demo.twenty];
               OptFunctionList.call_vi := 0;
               OptFunctionList.call_components := [1%Z; 2%Z] |}])
  /\ [Demo.slope 1; Demo.slope 2] <> [Demo.slope 0; Demo.slope 1].
Proof.
  repeat split.
  intros H.
  apply (f_equal (fun l => match l with
                           | x :: _ => PrimFloat.eqb x (Demo.slope 0)
                           | [] => false
                           end)) in H.
  vm_compute in H. discriminate H.
Qed.

(** The list reads [components] as counted within its own components,
    and so mistakes what a list above it passes: alone, the list of [B]
    returns both derivatives of [B]; below [A], it is asked for the
    components [[1; 2]], takes [1] for its own component [1] and finds
    no component [2], so that the derivative of the component [0] of
    [B] is lost. *)
Lemma nested_list_misreads_components :
  OptFunctionList.ana_deriv PrimFloat.nan Demo.b [] [Demo.twenty] 0 None
  = Ok [Demo.slope 0; Demo.slope 1]
  /\ OptFunctionList.ana_deriv PrimFloat.nan Demo.nested []
       [Demo.ten; Demo.twenty] 1 None
     = Ok [PrimFloat.nan; Demo.slope 1; PrimFloat.nan].
Proof. split; reflexivity. Qed.

(** C2, on the code: the registry positions [0; 1] of the names [x; y]
    are a consecutive run, and [getv] keeps them as the explicit list;
    so does the initialized function list. *)
Theorem consecutive_run_kept_as_list :
  positions ["x"; "y"]%string ["x"; "y"]%string = [0; 1]
  /\ consecutive_run [0; 1]
  /\ OptFunctionList.getv ["x"; "y"]%string ["x"; "y"]%string
     = Ok (Positions [0; 1])
  /\ OptFunctionList._vnamesf Demo.xy = ["x"; "y"]%string
  /\ OptFunctionList.func_vars_float Demo.xy = [Positions [0; 1]].
Proof. repeat split. Qed.

(** C10, as the claim states it, fails on one function of two
    components.  Asked for the components [[1; 0]], a list that is not
    ascending, the function is called with [[1; 0]] and the output
    lists the derivative of component [1], then that of component [0]:
    it follows the list index for index.  Asked for [[0; 1; 99]], a
    list that holds an index outside [0, 2), the output is the two
    derivatives and a [nan] at the place of [99]: it follows the list
    index for index again. *)
Lemma listed_order_followed :
  ~ Sorted Z.lt [1%Z; 0%Z]
  /\ OptFunctionList.ana_deriv_calls PrimFloat.nan Demo.single []
       [Demo.ten] 0 (Some [1%Z; 0%Z])
     = Ok ([Demo.slope 1; Demo.slope 0],
           [{| OptFunctionList.call_fi := 0;
               OptFunctionList.call_varsi := [];
               OptFunctionList.call_varsf := [Demo.ten];
               OptFunctionList.call_vi := 0;
               OptFunctionList.call_components := [1%Z; 0%Z] |}])
  /\ answered [1%Z; 0%Z] (OptFunctionList.sizes Demo.single)
     = [Some 1%Z; Some 0%Z]
  /\ requested (OptFunctionList.n_components Demo.single) [1%Z; 0%Z]
     = [Some 1%Z; Some 0%Z]
  /\ OptFunctionList.n_components Demo.single = 2
  /\ OptFunctionList.ana_deriv_calls PrimFloat.nan Demo.single []
       [Demo.ten] 0 (Some [0%Z; 1%Z; 99%Z])
     = Ok ([Demo.slope 0; Demo.slope 1; PrimFloat.nan],
           [{| OptFunctionList.call_fi := 0;
               OptFunctionList.call_varsi := [];
               OptFunctionList.call_varsf := [Demo.ten];
               OptFunctionList.call_vi := 0;
               OptFunctionList.call_components := [0%Z; 1%Z] |}])
  /\ answered [0%Z; 1%Z; 99%Z] (OptFunctionList.sizes Demo.single)
     = [Some 0%Z; Some 1%Z; None]
  /\ requested (OptFunctionList.n_components Demo.single)
       [0%Z; 1%Z; 99%Z]
     = [Some 0%Z; Some 1%Z; None].
Proof.
  split; [|repeat split].
  intros H. inversion H as [|x l _ Hhd]. inversion Hhd. lia.
Qed.

(** ** The theorems on the concrete function lists *)

(** The example of the specification: with the float registry [x; y; z]
    and the values [10; 20; 30], the function declaring [x; z] gets
    [10; 30] and the function declaring [y] gets [20]. *)
Lemma mapping_yields_local_vector_witness :
  OptFunctionList._vnamesf Demo.xyz = ["x"; "y"; "z"]%string
  /\ (exists ixf,
        nth_error (OptFunctionList.func_vars_float Demo.xyz) 1 = Some ixf
        /\ take [Demo.ten; Demo.twenty; Demo.thirty] ixf
           = Ok [Demo.ten; Demo.thirty])
  /\ (exists ixf,
        nth_error (OptFunctionList.func_vars_float Demo.xyz) 2 = Some ixf
        /\ take [Demo.ten; Demo.twenty; Demo.thirty] ixf
           = Ok [Demo.twenty]).
Proof.
  split; [reflexivity|]. split.
  - destruct (@mapping_yields_local_vector PrimFloat.float unit
                PrimFloat.nan 0
                (Demo.registered [Demo.G_xy; Demo.A_xz; Demo.B_y]) 1
                (Demo.held Demo.A_xz) []
                [Demo.ten; Demo.twenty; Demo.thirty]
                eq_refl eq_refl eq_refl)
      as (ixi & ixf & varsi & varsf & _ & H2 & _ & H4 & _ & H6).
    exists ixf. split; [exact H2|]. rewrite H4. f_equal.
    destruct varsf as [|a [|b [|c l]]]; try discriminate H6.
    injection H6 as -> ->. reflexivity.
  - destruct (@mapping_yields_local_vector PrimFloat.float unit
                PrimFloat.nan 0
                (Demo.registered [Demo.G_xy; Demo.A_xz; Demo.B_y]) 2
                (Demo.held Demo.B_y) []
                [Demo.ten; Demo.twenty; Demo.thirty]
                eq_refl eq_refl eq_refl)
      as (ixi & ixf & varsi & varsf & _ & H2 & _ & H4 & _ & H6).
    exists ixf. split; [exact H2|]. rewrite H4. f_equal.
    destruct varsf as [|a [|b l]]; try discriminate H6.
    injection H6 as ->. reflexivity.
Defined.

(** [A] of one component over [x] and [B] of two components over [y]:
    the values of the list are those of [A], then those of [B]. *)
Lemma calc_individual_concatenates_witness :
  OptFunction.calc_individual (Demo.held Demo.A_x) [] [Demo.ten] tt
  = Ok [Demo.ten]
  /\ OptFunction.calc_individual (Demo.held Demo.B_y) [] [Demo.twenty] tt
     = Ok [Demo.twenty; PrimFloat.zero]
  /\ OptFunctionList.calc_individual PrimFloat.nan Demo.ab []
       [Demo.ten; Demo.twenty] tt
     = Ok [Demo.ten; Demo.twenty; PrimFloat.zero]
  /\ OptFunctionList.calc_individual_written PrimFloat.nan Demo.ab []
       [Demo.ten; Demo.twenty] tt
     = Ok ([Demo.ten; Demo.twenty; PrimFloat.zero], [(0, 1); (1, 3)]).
Proof.
  split; [reflexivity|]. split; [reflexivity|].
  destruct (@calc_individual_concatenates PrimFloat.float unit
              PrimFloat.nan 0 (Demo.registered [Demo.A_x; Demo.B_y]) []
              [Demo.ten; Demo.twenty] tt
              [[Demo.ten]; [Demo.twenty; PrimFloat.zero]]
              eq_refl eq_refl)
    as (H1 & _ & H3 & _).
  - repeat constructor.
  - split; [exact H1 | exact H3].
Defined.

(** The boundaries [0,1), [1,3), [3,5): a vector of five entries and an
    array of two rows are cut at them and put together again. *)
Lemma split_round_trip_witness :
  OptFunctionList.split_individual Demo.abc [1; 2; 3; 4; 5]
  = Ok [[1]; [2; 3]; [4; 5]]
  /\ concat [[1]; [2; 3]; [4; 5]] = [1; 2; 3; 4; 5]
  /\ OptFunctionList.split_population Demo.abc
       [[1; 2; 3; 4; 5]; [6; 7; 8; 9; 10]]
     = Ok [[[1]; [6]]; [[2; 3]; [7; 8]]; [[4; 5]; [9; 10]]]
  /\ hstack 2 [[[1]; [6]]; [[2; 3]; [7; 8]]; [[4; 5]; [9; 10]]]
     = [[1; 2; 3; 4; 5]; [6; 7; 8; 9; 10]].
Proof.
  destruct (@split_round_trip PrimFloat.float unit nat 0
              (Demo.registered [Demo.A_xz; Demo.B_y; Demo.C_yx])
              [1; 2; 3; 4; 5] [[1; 2; 3; 4; 5]; [6; 7; 8; 9; 10]]
              eq_refl)
    as (pieces & ppieces & H1 & H2 & H3 & _ & _ & _ & H7 & H8 & H9 & _).
  - intros row [<-|[<-|[]]]; reflexivity.
  - subst pieces ppieces.
    split; [exact H1|]. split; [exact H2|]. split; [exact H7 | exact H8].
Defined.

(** A function of another problem is rejected before initialization,
    and any function after it. *)
Lemma append_rejected_witness :
  (exists msg,
     OptFunctionList.append Demo.stranger (Demo.registered [Demo.A_x])
     = (Raise (ValueError msg), Demo.registered [Demo.A_x])
     /\ occurs_in "flist" msg /\ occurs_in "S" msg)
  /\ (exists msg,
        OptFunctionList.append Demo.B_y Demo.ab
        = (Raise (ValueError msg), Demo.ab)
        /\ occurs_in "flist" msg /\ occurs_in "B" msg).
Proof.
  split.
  - destruct (@append_rejected PrimFloat.float unit Demo.stranger
                (Demo.registered [Demo.A_x]) (or_intror eq_refl))
      as (msg & self' & H1 & H2 & _ & _ & H5 & H6).
    exists msg. subst self'. split; [exact H1|]. split; [exact H5 | exact H6].
  - destruct (@append_rejected PrimFloat.float unit Demo.B_y Demo.ab
                (or_introl eq_refl))
      as (msg & self' & H1 & H2 & _ & _ & H5 & H6).
    exists msg. subst self'. split; [exact H1|]. split; [exact H5 | exact H6].
Defined.

(** [A] of one component over [x] and [B] of two components over [y]:
    the derivative for [y] is [nan] for [A] and what [B] returns on the
    call for the components [[1; 2]] for [B]; for a variable of no
    function it is [nan] throughout; for no component it is empty. *)
Lemma ana_deriv_sentinel_witness :
  OptFunctionList.ana_deriv PrimFloat.nan Demo.ab []
    [Demo.ten; Demo.twenty] 1 None
  = Ok [PrimFloat.nan; Demo.slope 1; Demo.slope 2]
  /\ OptFunctionList.ana_deriv PrimFloat.nan Demo.ab []
       [Demo.ten; Demo.twenty] 2 None
     = Ok [PrimFloat.nan; PrimFloat.nan; PrimFloat.nan]
  /\ OptFunctionList.ana_deriv PrimFloat.nan Demo.ab []
       [Demo.ten; Demo.twenty] 1 (Some [])
     = Ok [].
Proof.
  split; [|split].
  - destruct (@ana_deriv_sentinel PrimFloat.float unit PrimFloat.nan 0
                (Demo.registered [Demo.A_x; Demo.B_y]) []
                [Demo.ten; Demo.twenty] 1 None eq_refl eq_refl)
      as (_ & _ & H).
    destruct (H [Demo.held Demo.A_x] (Demo.held Demo.B_y) []
                [[0%Z]] [1%Z; 2%Z] [] [Demo.slope 1; Demo.slope 2]
                eq_refl eq_refl eq_refl) as [H1 _].
    + intros f [<-|[]]. simpl. intros [E|[]]. discriminate E.
    + left. reflexivity.
    + reflexivity.
    + reflexivity.
    + exact H1.
  - destruct (@ana_deriv_sentinel PrimFloat.float unit PrimFloat.nan 0
                (Demo.registered [Demo.A_x; Demo.B_y]) []
                [Demo.ten; Demo.twenty] 2 None eq_refl eq_refl)
      as (H & _ & _).
    apply H. intros ix l [<-|[<-|[]]] E; injection E as <-; simpl.
    + intros [E|[]]. discriminate E.
    + intros [E|[]]. discriminate E.
  - destruct (@ana_deriv_sentinel PrimFloat.float unit PrimFloat.nan 0
                (Demo.registered [Demo.A_x; Demo.B_y]) []
                [Demo.ten; Demo.twenty] 1 None eq_refl eq_refl)
      as (_ & H & _).
    exact H.
Defined.

(** The boundaries [0,1), [1,3), [3,5) and the components
    [[4; 7; 2; 0; 1]], for a variable of the second and the third
    function: the output answers the components [0], [2; 1], [4] in this
    order, and ends with the [nan] of the component [7]; it does not
    follow the list, in which the component [4] of the third function
    stands before the component [2] of the second. *)
Lemma ana_deriv_layout_witness :
  layout [4; 7; 2; 0; 1]%Z (OptFunctionList.sizes Demo.abc)
  = [0; 2; 1; 4]%Z
  /\ OptFunctionList.ana_deriv PrimFloat.nan Demo.abc []
       [Demo.ten; Demo.twenty; Demo.thirty] 2 (Some [4; 7; 2; 0; 1]%Z)
     = Ok [PrimFloat.nan; Demo.slope 2; Demo.slope 1; Demo.slope 4;
           PrimFloat.nan]
  /\ answered [4; 7; 2; 0; 1]%Z (OptFunctionList.sizes Demo.abc)
     = [Some 0; Some 2; Some 1; Some 4; None]%Z
  /\ requested (OptFunctionList.n_components Demo.abc) [4; 7; 2; 0; 1]%Z
     = [Some 4; None; Some 2; Some 0; Some 1]%Z
  /\ answered [4; 7; 2; 0; 1]%Z (OptFunctionList.sizes Demo.abc)
     <> requested (OptFunctionList.n_components Demo.abc)
          [4; 7; 2; 0; 1]%Z.
Proof.
  destruct (@ana_deriv_layout PrimFloat.float unit PrimFloat.nan 0
              (Demo.registered [Demo.A_xz; Demo.B_y; Demo.C_yx]) []
              [Demo.ten; Demo.twenty; Demo.thirty] 2 [4; 7; 2; 0; 1]%Z
              [[PrimFloat.nan]; [Demo.slope 2; Demo.slope 1];
               [Demo.slope 4]]
              eq_refl eq_refl)
    as (H1 & _ & _ & _ & _ & _ & _ & H8 & _).
  - repeat constructor.
  - split; [reflexivity|]. split; [exact H1|].
    split; [reflexivity|]. split; [reflexivity|].
    apply (H8 [] 4%Z [7%Z] 2%Z [0%Z; 1%Z] eq_refl).
    vm_compute. lia.
Defined.

(** ** Registration and use before initialization *)

Section Registration.

Variables F PR : Type.

Variable nan : F.

Abbreviation rlist := (OptFunctionList.t F PR).

(** [append] on each of [fs] in turn, whatever each call returns. *)
Local Abbreviation appended fs self :=
  (fold_left (fun s f => snd (OptFunctionList.append f s)) fs self).

Lemma fold_append_fields (fs : list (OptFunction.t F PR)) (self : rlist) :
  OptFunctionList.initialized self = false ->
  let accepted :=
    filter (fun f => Problem.is_ (OptFunction.problem f)
                       (OptFunctionList.problem self)) fs in
  appended fs self
  = {| OptFunctionList.name := OptFunctionList.name self;
       OptFunctionList.problem := OptFunctionList.problem self;
       OptFunctionList.initialized := false;
       OptFunctionList._functions :=
         OptFunctionList._functions self ++ accepted;
       OptFunctionList._cnames :=
         OptFunctionList._cnames self
         ++ concat (map (@OptFunction.component_names F PR) accepted);
       OptFunctionList.func_vars_int := OptFunctionList.func_vars_int self;
       OptFunctionList.func_vars_float :=
         OptFunctionList.func_vars_float self;
       OptFunctionList.sizes := OptFunctionList.sizes self;
       OptFunctionList._vnamesi := OptFunctionList._vnamesi self;
       OptFunctionList._vnamesf := OptFunctionList._vnamesf self |}.
Proof.
  revert self. induction fs as [|f fs IH]; intros self Hini; cbv zeta.
  - simpl. rewrite !app_nil_r. destruct self. simpl in Hini. subst.
    reflexivity.
  - cbn [fold_left filter]. unfold OptFunctionList.append at 2.
    rewrite Hini.
    destruct (Problem.is_ (OptFunction.problem f)
                (OptFunctionList.problem self)) eqn:E; cbn [negb snd].
    + rewrite IH by reflexivity. cbv zeta.
      cbn [OptFunctionList.name OptFunctionList.problem
           OptFunctionList._functions OptFunctionList._cnames
           OptFunctionList.func_vars_int OptFunctionList.func_vars_float
           OptFunctionList.sizes OptFunctionList._vnamesi
           OptFunctionList._vnamesf map concat].
      rewrite <- !app_assoc. reflexivity.
    + rewrite IH by exact Hini. reflexivity.
Qed.

(** X1. A fresh function list to which functions are appended holds, in
    the order of the calls, the functions of its own problem and no
    others, and its component names are theirs, concatenated in that
    order; it is not initialized and its ledger is empty, so that
    [n_components()] is still 0. *)
Theorem append_accumulates (problem : Problem.t) (name : string)
  (fs : list (OptFunction.t F PR)) :
  let self := appended fs (OptFunctionList.init F PR problem name) in
  let accepted :=
    filter (fun f => Problem.is_ (OptFunction.problem f) problem) fs in
  OptFunctionList.functions self = accepted
  /\ OptFunctionList._cnames self
     = concat (map (@OptFunction.component_names F PR) accepted)
  /\ OptFunctionList.n_functions self = length accepted
  /\ ((forall f, In f fs ->
         Problem.is_ (OptFunction.problem f) problem = true) ->
      OptFunctionList.functions self = fs)
  /\ OptFunctionList.initialized self = false
  /\ OptFunctionList.sizes self = []
  /\ OptFunctionList.n_components self = 0.
Proof.
  cbv zeta. rewrite fold_append_fields by reflexivity. cbv zeta.
  unfold OptFunctionList.n_functions, OptFunctionList.functions,
    OptFunctionList.n_components.
  cbn [OptFunctionList.init OptFunctionList.problem
       OptFunctionList._functions OptFunctionList._cnames
       OptFunctionList.sizes OptFunctionList.initialized app].
  repeat split.
  intros Hall. induction fs as [|f fs IH]; [reflexivity|].
  cbn [filter]. rewrite (Hall f (or_introl eq_refl)).
  f_equal. apply IH. intros g Hg. apply Hall. right. exact Hg.
Qed.

(** X2. A function list that holds a function and was not initialized
    cannot be used: its ledger is empty, and [split_individual],
    [split_population], [calc_individual] and [ana_deriv] raise
    [IndexError] at the first function, whatever their arguments. *)
Theorem use_before_initialize_raises (problem : Problem.t) (name : string)
  (fs : list (OptFunction.t F PR)) (vars_int : list Z)
  (vars_float : list F) (problem_results : PR) (var : nat)
  (components : option (list Z)) (A : Type) (d : list A)
  (rows : list (list A)) :
  let self := appended fs (OptFunctionList.init F PR problem name) in
  OptFunctionList.functions self <> [] ->
  OptFunctionList.split_individual self d = Raise IndexError
  /\ OptFunctionList.split_population self rows = Raise IndexError
  /\ OptFunctionList.calc_individual nan self vars_int vars_float
       problem_results = Raise IndexError
  /\ OptFunctionList.ana_deriv nan self vars_int vars_float var components
     = Raise IndexError.
Proof.
  cbv zeta. rewrite fold_append_fields by reflexivity. cbv zeta.
  cbn [OptFunctionList.init OptFunctionList.problem
       OptFunctionList._functions OptFunctionList._cnames
       OptFunctionList.sizes OptFunctionList.func_vars_int
       OptFunctionList.func_vars_float OptFunctionList._vnamesi
       OptFunctionList._vnamesf OptFunctionList.name app].
  set (accepted := filter _ fs).
  unfold OptFunctionList.functions. cbn [OptFunctionList._functions].
  intros Hne. destruct accepted as [|f rest]; [contradiction|].
  repeat split.
Qed.

End Registration.

(** ** Evaluation and splitting together *)

Lemma slices_of_concat {A : Type} (outs : list (list A)) (pre : list A) :
  map (fun r => slice (pre ++ concat outs) (fst r) (snd r))
    (offsets (length pre) (map (@length A) outs))
  = outs.
Proof.
  revert pre. induction outs as [|o outs IH]; intros pre; [reflexivity|].
  cbn [map offsets concat fst snd]. f_equal.
  - unfold slice. rewrite skipn_app, skipn_all, Nat.sub_diag.
    cbn [skipn app]. replace (length pre + length o - length pre)
      with (length o) by lia.
    apply firstn_app_exact. reflexivity.
  - specialize (IH (pre ++ o)). rewrite length_app, <- app_assoc in IH.
    exact IH.
Qed.

Section EvaluationMore.

Variables F PR : Type.

Variable nan : F.

Abbreviation elist := (OptFunctionList.t F PR).

(** The local vectors of a function in an initialized list. *)
Local Abbreviation varsi_in self vars_int f :=
  (local_vector 0%Z (OptFunctionList._vnamesi self) vars_int
     (OptFunction.var_names_int f)).

Local Abbreviation varsf_in self vars_float f :=
  (local_vector nan (OptFunctionList._vnamesf self) vars_float
     (OptFunction.var_names_float f)).

Lemma calc_individual_written_compiled (verbosity : nat) (self : elist)
  (vars_int : list Z) (vars_float : list F) (problem_results : PR)
  (outs : list (list F)) :
  let self' := compiled verbosity self in
  length vars_int = length (OptFunctionList._vnamesi self') ->
  length vars_float = length (OptFunctionList._vnamesf self') ->
  Forall2
    (fun f out =>
       OptFunction.calc_individual f (varsi_in self' vars_int f)
         (varsf_in self' vars_float f) problem_results = Ok out
       /\ length out = OptFunction.n_components f)
    (OptFunctionList.functions self') outs ->
  OptFunctionList.calc_individual_written nan self' vars_int vars_float
    problem_results
  = Ok (concat outs, offsets 0 (OptFunctionList.sizes self')).
Proof.
  cbv zeta. intros Hli Hlf Houts.
  assert (list_sum (ledger (OptFunctionList.functions
                              (compiled verbosity self)))
          = OptFunctionList.n_components (compiled verbosity self)) as Hsum.
  { unfold OptFunctionList.n_components. rewrite sum_list_sum.
    reflexivity. }
  unfold OptFunctionList.calc_individual_written, enumerate, full.
  rewrite (@calc_loop_concat F PR nan (compiled verbosity self)
             (OptFunctionList._vnamesi (compiled verbosity self))
             (OptFunctionList._vnamesf (compiled verbosity self))
             vars_int vars_float
             (compiled_sizes verbosity self) eq_refl eq_refl
             (@compiled_incl_int F PR verbosity self)
             (@compiled_incl_float F PR verbosity self) Hli Hlf
             problem_results
             (OptFunctionList.functions (compiled verbosity self)) []
             outs 0 _ [] eq_refl Houts).
  - cbn [firstn app]. rewrite Nat.add_0_l, Hsum.
    rewrite skipn_all2 by (rewrite repeat_length; lia).
    rewrite app_nil_r. reflexivity.
  - rewrite repeat_length, Nat.add_0_l, Hsum. lia.
Qed.

Lemma outs_lengths (fs : list (OptFunction.t F PR)) (outs : list (list F))
  (P : OptFunction.t F PR -> list F -> Prop) :
  Forall2 (fun f out => P f out /\ length out = OptFunction.n_components f)
    fs outs ->
  map (@length F) outs = map (@OptFunction.n_components F PR) fs.
Proof.
  induction 1 as [|f out fs outs [_ H] _ IH]; [reflexivity|].
  simpl. rewrite H, IH. reflexivity.
Qed.

(** X3. In an initialized function list whose functions return vectors
    of their declared lengths, splitting what [calc_individual] returns
    gives back, function by function, what each function returned. *)
Theorem split_individual_of_calc_individual (verbosity : nat) (self : elist)
  (vars_int : list Z) (vars_float : list F) (problem_results : PR)
  (outs : list (list F)) :
  let self' := snd (OptFunctionList.initialize verbosity self) in
  length vars_int = length (OptFunctionList._vnamesi self') ->
  length vars_float = length (OptFunctionList._vnamesf self') ->
  Forall2
    (fun f out =>
       OptFunction.calc_individual f (varsi_in self' vars_int f)
         (varsf_in self' vars_float f) problem_results = Ok out
       /\ length out = OptFunction.n_components f)
    (OptFunctionList.functions self') outs ->
  exists values,
    OptFunctionList.calc_individual nan self' vars_int vars_float
      problem_results = Ok values
    /\ OptFunctionList.split_individual self' values = Ok outs.
Proof.
  rewrite initialize_compiled. cbn [snd]. cbv zeta.
  intros Hli Hlf Houts. exists (concat outs). split.
  - unfold OptFunctionList.calc_individual.
    rewrite (calc_individual_written_compiled _ _ _ _ _ Hli Hlf Houts).
    reflexivity.
  - rewrite split_individual_compiled, compiled_sizes.
    rewrite <- (outs_lengths _ Houts).
    f_equal. exact (slices_of_concat outs []).
Qed.

End EvaluationMore.

(** ** Vectors of the wrong length *)

Lemma setslice_assigned {A : Type} (arr r out : list A) (c0 n : nat) :
  c0 + n <= length arr -> assigned n r out ->
  setslice arr c0 (c0 + n) r
  = Ok (firstn c0 arr ++ out ++ skipn (c0 + n) arr).
Proof.
  intros Hfit [[Hlen ->]|[x [-> ->]]].
  - apply setslice_exact; lia.
  - unfold setslice.
    rewrite (Nat.min_l c0) by lia. rewrite (Nat.min_l (c0 + n)) by lia.
    rewrite (Nat.max_r c0 (c0 + n)) by lia.
    replace (c0 + n - c0) with n by lia.
    cbn [length]. destruct (Nat.eqb_spec 1 n) as [<-|_]; reflexivity.
Qed.

Lemma setslice_rejects {A : Type} (arr r : list A) (c0 n : nat) :
  c0 + n <= length arr -> length r <> n -> length r <> 1 ->
  setslice arr c0 (c0 + n) r
  = Raise (ValueError "could not broadcast input array").
Proof.
  intros Hfit Hn H1. unfold setslice.
  rewrite (Nat.min_l c0) by lia. rewrite (Nat.min_l (c0 + n)) by lia.
  rewrite (Nat.max_r c0 (c0 + n)) by lia.
  replace (c0 + n - c0) with n by lia.
  destruct (Nat.eqb_spec (length r) n) as [E|_]; [contradiction|].
  destruct r as [|x [|y r]]; try reflexivity. simpl in H1. lia.
Qed.

Lemma assigned_length {A : Type} (n : nat) (r out : list A) :
  assigned n r out -> length out = n.
Proof.
  intros [[H ->]|[x [_ ->]]]; [exact H | apply repeat_length].
Qed.

Section WrongLength.

Variables F PR : Type.

Variable nan : F.

Variable self : OptFunctionList.t F PR.

Variables ri rf : list string.

Variables (vars_int : list Z) (vars_float : list F).

Variable problem_results : PR.

Hypothesis Hsizes :
  OptFunctionList.sizes self
  = map (@OptFunction.n_components F PR) (OptFunctionList.functions self).

Hypothesis Hvars_int :
  OptFunctionList.func_vars_int self
  = map (fun f => Positions (positions ri (OptFunction.var_names_int f)))
      (OptFunctionList.functions self).

Hypothesis Hvars_float :
  OptFunctionList.func_vars_float self
  = map (fun f => Positions (positions rf (OptFunction.var_names_float f)))
      (OptFunctionList.functions self).

Hypothesis Hincl_int :
  forall f, In f (OptFunctionList.functions self) ->
            incl (OptFunction.var_names_int f) ri.

Hypothesis Hincl_float :
  forall f, In f (OptFunctionList.functions self) ->
            incl (OptFunction.var_names_float f) rf.

Hypothesis Hlen_int : length vars_int = length ri.

Hypothesis Hlen_float : length vars_float = length rf.

(** What the function [f] returns on its local vectors. *)
Local Abbreviation returned f :=
  (OptFunction.calc_individual f
     (local_vector 0%Z ri vars_int (OptFunction.var_names_int f))
     (local_vector nan rf vars_float (OptFunction.var_names_float f))
     problem_results).

(** One turn of the loop of [calc_individual]. *)
Lemma calc_loop_turn (pre rest : list (OptFunction.t F PR))
  (f : OptFunction.t F PR) (i0 : nat) (values : list F)
  (written : list (nat * nat)) :
  OptFunctionList.functions self = pre ++ f :: rest ->
  OptFunctionList.calc_loop self vars_int vars_float problem_results
    (combine (seq (length pre) (length (f :: rest))) (f :: rest)) i0 values
    written
  = (r <- returned f ;;
     values' <- setslice values i0 (i0 + OptFunction.n_components f) r ;;
     OptFunctionList.calc_loop self vars_int vars_float problem_results
       (combine (seq (length (pre ++ [f])) (length rest)) rest)
       (i0 + OptFunction.n_components f) values'
       (written ++ [(i0, i0 + OptFunction.n_components f)]))%py.
Proof.
  intros Hfs. rewrite combine_seq_cons. cbn [OptFunctionList.calc_loop].
  assert (In f (OptFunctionList.functions self)) as Hin
    by (rewrite Hfs; apply in_elt).
  rewrite Hsizes, Hvars_int, Hvars_float, Hfs, !getitem_map_app.
  cbn [bind].
  rewrite (take_local_vector 0%Z _ Hlen_int (Hincl_int f Hin)).
  rewrite (take_local_vector nan _ Hlen_float (Hincl_float f Hin)).
  cbn [bind].
  replace (length (pre ++ [f])) with (S (length pre))
    by (rewrite length_app; simpl; lia).
  reflexivity.
Qed.

Lemma calc_loop_assigned (rest pre : list (OptFunction.t F PR))
  (outs : list (list F)) (i0 : nat) (values : list F)
  (written : list (nat * nat)) :
  OptFunctionList.functions self = pre ++ rest ->
  Forall2
    (fun f out =>
       exists r, returned f = Ok r
                 /\ assigned (OptFunction.n_components f) r out)
    rest outs ->
  i0 + list_sum (ledger rest) <= length values ->
  OptFunctionList.calc_loop self vars_int vars_float problem_results
    (combine (seq (length pre) (length rest)) rest) i0 values written
  = Ok (firstn i0 values ++ concat outs
          ++ skipn (i0 + list_sum (ledger rest)) values,
        written ++ offsets i0 (ledger rest)).
Proof.
  revert pre outs i0 values written.
  induction rest as [|f rest IH];
    intros pre outs i0 values written Hfs Houts Hlen.
  - inversion Houts. subst. simpl.
    rewrite Nat.add_0_r, firstn_skipn, app_nil_r. reflexivity.
  - inversion Houts as [|f' out rest' outs' [r [Hcall Hout]] Hrest]. subst.
    rewrite (@calc_loop_turn _ _ _ _ _ _ Hfs), Hcall. cbn [bind].
    unfold ledger in Hlen. simpl in Hlen.
    rewrite (@setslice_assigned F values r out i0 _)
      by (exact Hout || lia).
    cbn [bind].
    pose proof (assigned_length Hout) as Hlo.
    rewrite (IH (pre ++ [f]) outs');
      [| rewrite <- app_assoc; exact Hfs | exact Hrest
       | rewrite !length_app, length_firstn, length_skipn;
         unfold ledger; lia ].
    f_equal. f_equal.
    + set (i1 := i0 + OptFunction.n_components f).
      replace (firstn i0 values ++ out ++ skipn i1 values)
        with ((firstn i0 values ++ out) ++ skipn i1 values)
        by (rewrite <- app_assoc; reflexivity).
      rewrite firstn_app_exact
        by (rewrite length_app, length_firstn; subst i1; lia).
      rewrite skipn_app_exact
        by (rewrite length_app, length_firstn; subst i1; lia).
      rewrite skipn_skipn. unfold ledger. simpl.
      rewrite <- !app_assoc. do 3 f_equal.
      apply f_equal2; [subst i1; lia | reflexivity].
    + rewrite <- app_assoc. reflexivity.
Qed.

Lemma calc_loop_rejects (good pre post : list (OptFunction.t F PR))
  (f : OptFunction.t F PR) (r : list F) (outs : list (list F)) (i0 : nat)
  (values : list F) (written : list (nat * nat)) :
  OptFunctionList.functions self = pre ++ good ++ f :: post ->
  Forall2
    (fun g out =>
       exists r', returned g = Ok r'
                  /\ assigned (OptFunction.n_components g) r' out)
    good outs ->
  returned f = Ok r ->
  length r <> OptFunction.n_components f ->
  length r <> 1 ->
  i0 + list_sum (ledger (good ++ f :: post)) <= length values ->
  OptFunctionList.calc_loop self vars_int vars_float problem_results
    (combine (seq (length pre) (length (good ++ f :: post)))
       (good ++ f :: post)) i0 values written
  = Raise (ValueError "could not broadcast input array").
Proof.
  revert pre outs i0 values written.
  induction good as [|g good IH];
    intros pre outs i0 values written Hfs Houts Hcall Hn H1 Hlen.
  - cbn [app] in *.
    rewrite (@calc_loop_turn _ _ _ _ _ _ Hfs), Hcall. cbn [bind].
    unfold ledger in Hlen. simpl in Hlen.
    rewrite setslice_rejects by (assumption || lia). reflexivity.
  - inversion Houts as [|g' out good' outs' [r' [Hcall' Hout]] Hrest]. subst.
    cbn [app] in *.
    rewrite (@calc_loop_turn _ _ _ _ _ _ Hfs), Hcall'. cbn [bind].
    unfold ledger in Hlen. simpl in Hlen.
    rewrite (@setslice_assigned F values r' out i0 _)
      by (exact Hout || lia).
    cbn [bind].
    pose proof (assigned_length Hout) as Hlo.
    apply (IH (pre ++ [g]) outs');
      [ rewrite <- app_assoc; exact Hfs | exact Hrest | exact Hcall
      | exact Hn | exact H1
      | rewrite !length_app, length_firstn, length_skipn;
        unfold ledger; lia ].
Qed.

End WrongLength.

Section Shapes.

Variables F PR : Type.

Variable nan : F.

Abbreviation slist := (OptFunctionList.t F PR).

(** What the function [f] of the initialized list [self'] returns on its
    local vectors. *)
Local Abbreviation returned_in self' vars_int vars_float problem_results f :=
  (OptFunction.calc_individual f
     (local_vector 0%Z (OptFunctionList._vnamesi self') vars_int
        (OptFunction.var_names_int f))
     (local_vector nan (OptFunctionList._vnamesf self') vars_float
        (OptFunction.var_names_float f))
     problem_results).

Lemma compiled_n_components (verbosity : nat) (self : slist) :
  list_sum (ledger (OptFunctionList.functions (compiled verbosity self)))
  = OptFunctionList.n_components (compiled verbosity self).
Proof.
  unfold OptFunctionList.n_components. rewrite sum_list_sum. reflexivity.
Qed.

(** X4. In an initialized function list, a function that returns a
    vector of neither its declared length nor one entry makes
    [calc_individual] raise [ValueError], when the functions before it
    return vectors that can be assigned: the mismatch is not corrected
    and no values are returned. *)
Theorem calc_individual_rejects_wrong_length (verbosity : nat)
  (self : slist) (vars_int : list Z) (vars_float : list F)
  (problem_results : PR) (good post : list (OptFunction.t F PR))
  (f : OptFunction.t F PR) (r : list F) (outs : list (list F)) :
  let self' := snd (OptFunctionList.initialize verbosity self) in
  length vars_int = length (OptFunctionList._vnamesi self') ->
  length vars_float = length (OptFunctionList._vnamesf self') ->
  OptFunctionList.functions self' = good ++ f :: post ->
  Forall2
    (fun g out =>
       exists r', returned_in self' vars_int vars_float problem_results g
                  = Ok r'
                  /\ assigned (OptFunction.n_components g) r' out)
    good outs ->
  returned_in self' vars_int vars_float problem_results f = Ok r ->
  length r <> OptFunction.n_components f ->
  length r <> 1 ->
  OptFunctionList.calc_individual nan self' vars_int vars_float
    problem_results
  = Raise (ValueError "could not broadcast input array").
Proof.
  rewrite initialize_compiled. cbn [snd]. cbv zeta.
  intros Hli Hlf Hfs Hgood Hcall Hn H1.
  unfold OptFunctionList.calc_individual,
    OptFunctionList.calc_individual_written, enumerate, full.
  rewrite Hfs.
  rewrite (@calc_loop_rejects F PR nan (compiled verbosity self)
             (OptFunctionList._vnamesi (compiled verbosity self))
             (OptFunctionList._vnamesf (compiled verbosity self))
             vars_int vars_float problem_results
             (compiled_sizes verbosity self) eq_refl eq_refl
             (@compiled_incl_int F PR verbosity self)
             (@compiled_incl_float F PR verbosity self) Hli Hlf
             good [] post f r outs 0 _ [] Hfs Hgood Hcall Hn H1).
  - reflexivity.
  - rewrite repeat_length, <- Hfs, compiled_n_components. lia.
Qed.

(** X5. In an initialized function list, a function that returns one
    value for several components has the value stored in each of them:
    whenever every function returns a vector of its declared length or
    of one entry, [calc_individual] returns the concatenation of what
    is assigned for each function, which has [n_components()]
    entries. *)
Theorem calc_individual_broadcasts (verbosity : nat) (self : slist)
  (vars_int : list Z) (vars_float : list F) (problem_results : PR)
  (outs : list (list F)) :
  let self' := snd (OptFunctionList.initialize verbosity self) in
  length vars_int = length (OptFunctionList._vnamesi self') ->
  length vars_float = length (OptFunctionList._vnamesf self') ->
  Forall2
    (fun f out =>
       exists r, returned_in self' vars_int vars_float problem_results f
                 = Ok r
                 /\ assigned (OptFunction.n_components f) r out)
    (OptFunctionList.functions self') outs ->
  OptFunctionList.calc_individual nan self' vars_int vars_float
    problem_results = Ok (concat outs)
  /\ length (concat outs) = OptFunctionList.n_components self'.
Proof.
  rewrite initialize_compiled. cbn [snd]. cbv zeta.
  intros Hli Hlf Houts. split.
  - unfold OptFunctionList.calc_individual,
      OptFunctionList.calc_individual_written, enumerate, full.
    rewrite (@calc_loop_assigned F PR nan (compiled verbosity self)
               (OptFunctionList._vnamesi (compiled verbosity self))
               (OptFunctionList._vnamesf (compiled verbosity self))
               vars_int vars_float problem_results
               (compiled_sizes verbosity self) eq_refl eq_refl
               (@compiled_incl_int F PR verbosity self)
               (@compiled_incl_float F PR verbosity self) Hli Hlf
               (OptFunctionList.functions (compiled verbosity self)) []
               outs 0 _ [] eq_refl Houts).
    + cbn [firstn app bind]. rewrite Nat.add_0_l, compiled_n_components.
      rewrite skipn_all2 by (rewrite repeat_length; lia).
      rewrite app_nil_r. reflexivity.
    + rewrite repeat_length, Nat.add_0_l, compiled_n_components. lia.
  - rewrite <- compiled_n_components. unfold ledger.
    induction Houts as [|f out fs outs' [r [_ Hout]] _ IH]; [reflexivity|].
    simpl. rewrite length_app, IH, (assigned_length Hout). reflexivity.
Qed.

End Shapes.

(** ** Names and index mappings of an initialized list *)

Section Names.

Variables F PR : Type.

Abbreviation nlist := (OptFunctionList.t F PR).

Lemma positions_in_bounds (vnames fvnames : list string) :
  incl fvnames vnames ->
  Forall (fun i => i < length vnames) (positions vnames fvnames).
Proof.
  intros Hincl. unfold positions. apply Forall_forall. intros i Hi.
  apply in_map_iff in Hi. destruct Hi as [v [<- Hv]].
  apply position_lt, Hincl, Hv.
Qed.

(** X6. After initialization there is one stored index mapping per
    function and namespace, each the explicit list of the registry
    positions of the function's declared names: it has one position per
    declared name, every position lies within the registry, and the
    registry holds at the [k]-th position the [k]-th declared name. *)
Theorem mappings_point_at_names (verbosity : nat) (self : nlist) :
  let self' := snd (OptFunctionList.initialize verbosity self) in
  length (OptFunctionList.func_vars_int self')
  = OptFunctionList.n_functions self'
  /\ length (OptFunctionList.func_vars_float self')
     = OptFunctionList.n_functions self'
  /\ (forall fi f,
        nth_error (OptFunctionList.functions self') fi = Some f ->
        exists li lf,
          nth_error (OptFunctionList.func_vars_int self') fi
          = Some (Positions li)
          /\ nth_error (OptFunctionList.func_vars_float self') fi
             = Some (Positions lf)
          /\ Forall (fun i => i < length (OptFunctionList._vnamesi self'))
               li
          /\ Forall (fun i => i < length (OptFunctionList._vnamesf self'))
               lf
          /\ map (nth_error (OptFunctionList._vnamesi self')) li
             = map Some (OptFunction.var_names_int f)
          /\ map (nth_error (OptFunctionList._vnamesf self')) lf
             = map Some (OptFunction.var_names_float f)).
Proof.
  rewrite initialize_compiled. cbn [snd]. cbv zeta.
  unfold OptFunctionList.n_functions, compiled, OptFunctionList.functions.
  cbn [OptFunctionList._functions OptFunctionList._vnamesi
       OptFunctionList._vnamesf OptFunctionList.func_vars_int
       OptFunctionList.func_vars_float].
  set (fs := map (ready verbosity) (OptFunctionList._functions self)).
  rewrite !length_map. split; [reflexivity|]. split; [reflexivity|].
  intros fi f Hf.
  assert (In f fs) as Hin by (eapply nth_error_In; exact Hf).
  pose proof (incl_registry_int fs f Hin) as Hii.
  pose proof (incl_registry_float fs f Hin) as Hif.
  exists (positions (registry_int fs) (OptFunction.var_names_int f)),
    (positions (registry_float fs) (OptFunction.var_names_float f)).
  rewrite !nth_error_map, Hf. cbn [option_map].
  split; [reflexivity|]. split; [reflexivity|].
  split; [apply positions_in_bounds, Hii|].
  split; [apply positions_in_bounds, Hif|].
  unfold positions. rewrite !map_map.
  split; apply map_ext_in; intros v Hv; apply nth_error_position;
    [apply Hii | apply Hif]; exact Hv.
Qed.

(** X7. When every function has as many component names as components,
    the component names that [append] collected from functions of the
    list's problem, starting from a fresh list, are the names of the
    functions in registration order; once the list is initialized they
    are [n_components()] many, and [split_individual] cuts them into the
    names of each function. *)
Theorem component_names_follow_ledger (verbosity : nat)
  (problem : Problem.t) (name : string) (fs : list (OptFunction.t F PR)) :
  let self :=
    fold_left (fun s f => snd (OptFunctionList.append f s)) fs
      (OptFunctionList.init F PR problem name) in
  let self' := snd (OptFunctionList.initialize verbosity self) in
  (forall f, In f fs ->
     Problem.is_ (OptFunction.problem f) problem = true) ->
  (forall f, In f fs ->
     length (OptFunction.component_names f)
     = OptFunction.n_components f) ->
  OptFunctionList._cnames self
  = concat (map (@OptFunction.component_names F PR) fs)
  /\ length (OptFunctionList._cnames self)
     = OptFunctionList.n_components self'
  /\ OptFunctionList.split_individual self' (OptFunctionList._cnames self)
     = Ok (map (@OptFunction.component_names F PR) fs).
Proof.
  cbv zeta. intros Hall Hnames.
  rewrite initialize_compiled, fold_append_fields by reflexivity.
  cbn [snd]. cbv zeta.
  cbn [OptFunctionList.init OptFunctionList.problem
       OptFunctionList._functions OptFunctionList._cnames app].
  assert (filter (fun f => Problem.is_ (OptFunction.problem f) problem) fs
          = fs) as ->.
  { clear Hnames. induction fs as [|f fs' IH]; [reflexivity|].
    cbn [filter]. rewrite (Hall f (or_introl eq_refl)). f_equal.
    apply IH. intros g Hg. apply Hall. right. exact Hg. }
  match goal with
  | |- context [compiled verbosity ?s] => set (self0 := s)
  end.
  assert (OptFunctionList._cnames self0
          = concat (map (@OptFunction.component_names F PR) fs)) as Hc
    by reflexivity.
  assert (OptFunctionList.sizes (compiled verbosity self0)
          = map (@length string)
              (map (@OptFunction.component_names F PR) fs)) as Hs.
  { unfold compiled, ledger, OptFunctionList.functions.
    cbn [OptFunctionList.sizes OptFunctionList._functions]. subst self0.
    cbn [OptFunctionList._functions]. rewrite !map_map.
    apply map_ext_in. intros f Hf.
    rewrite ready_n_components. symmetry. apply Hnames, Hf. }
  clear Hc. split; [reflexivity|]. split.
  - unfold OptFunctionList.n_components.
    rewrite sum_list_sum, Hs. apply length_concat_sum.
  - rewrite split_individual_compiled, Hs. f_equal.
    exact (slices_of_concat (map (@OptFunction.component_names F PR) fs)
             []).
Qed.

End Names.

(** ** More on derivatives *)

Lemma nth_error_rank (l : list nat) (n : nat) :
  In n l -> nth_error l (rank l n) = Some n.
Proof.
  induction l as [|x l IH]; intros H; [destruct H|].
  simpl. destruct (Nat.eqb_spec x n) as [->|Hne]; [reflexivity|].
  destruct H as [H|H]; [contradiction|]. simpl. apply IH. exact H.
Qed.

Section Delegations.

Variables F PR : Type.

Variable nan : F.

Variables ri rf : list string.

Variables (vars_int : list Z) (vars_float : list F).

Variable var : nat.

Local Abbreviation delegated_from k fs css :=
  (delegated nan ri rf vars_int vars_float var k fs css).

Local Abbreviation delegation_of fi f cs :=
  (delegation nan ri rf vars_int vars_float var fi f cs).

Lemma delegated_In (fs : list (OptFunction.t F PR)) (css : list (list Z))
  (k : nat) (c : OptFunctionList.call F) :
  In c (delegated_from k fs css) <->
  exists j f cs,
    nth_error fs j = Some f /\ nth_error css j = Some cs
    /\ delegates rf var f cs = true /\ c = delegation_of (k + j) f cs.
Proof.
  revert css k. induction fs as [|f fs IH]; intros css k.
  - simpl. split; [intros []|].
    intros (j & g & cs & H & _). destruct j; discriminate.
  - destruct css as [|cs css].
    + simpl. split; [intros []|].
      intros (j & g & cs & _ & H & _). destruct j; discriminate.
    + cbn [delegated]. rewrite in_app_iff, IH. split.
      * intros [H|(j & g & cs' & H1 & H2 & H3 & H4)].
        -- destruct (delegates rf var f cs) eqn:E; [|destruct H].
           destruct H as [<-|[]]. exists 0, f, cs.
           rewrite Nat.add_0_r. repeat split. exact E.
        -- exists (S j), g, cs'. rewrite Nat.add_succ_r.
           repeat split; assumption.
      * intros ([|j] & g & cs' & H1 & H2 & H3 & H4).
        -- simpl in H1, H2. inversion H1. inversion H2. subst g cs'.
           left. rewrite H3. left. rewrite Nat.add_0_r in H4.
           symmetry. exact H4.
        -- right. exists j, g, cs'. rewrite Nat.add_succ_r in H4.
           repeat split; assumption.
Qed.

Lemma delegated_sorted (fs : list (OptFunction.t F PR))
  (css : list (list Z)) (k : nat) :
  StronglySorted
    (fun a b => OptFunctionList.call_fi a < OptFunctionList.call_fi b)
    (delegated_from k fs css).
Proof.
  revert css k. induction fs as [|f fs IH]; intros css k; [constructor|].
  destruct css as [|cs css]; [constructor|].
  cbn [delegated]. destruct (delegates rf var f cs); [|apply IH].
  cbn [app]. constructor; [apply IH|].
  apply Forall_forall. intros c Hc. apply delegated_In in Hc.
  destruct Hc as (j & g & cs' & _ & _ & _ & ->). simpl. lia.
Qed.

End Delegations.

Section DerivativesMore.

Variables F PR : Type.

Variable nan : F.

Abbreviation dlist := (OptFunctionList.t F PR).

(** X8. In an initialized function list whose functions return one
    value per requested component, [ana_deriv] calls, in registration
    order and at most once each, exactly the functions from which a
    component is requested and whose float mapping holds [var]; a call
    passes the function's local variable vectors, the components
    selected for the function, and as variable the rank of [var] in the
    function's mapping, at which the mapping holds [var]. *)
Theorem ana_deriv_delegations (verbosity : nat) (self : dlist)
  (vars_int : list Z) (vars_float : list F) (var : nat)
  (components : option (list Z)) (rs : list (list F)) :
  let self' := snd (OptFunctionList.initialize verbosity self) in
  let ri := OptFunctionList._vnamesi self' in
  let rf := OptFunctionList._vnamesf self' in
  let css := selection components (OptFunctionList.sizes self') in
  length vars_int = length ri ->
  length vars_float = length rf ->
  blocks_of nan ri rf vars_int vars_float var
    (OptFunctionList.functions self') css rs ->
  exists d calls,
    OptFunctionList.ana_deriv_calls nan self' vars_int vars_float var
      components = Ok (d, calls)
    /\ (forall c, In c calls <->
          exists fi f cs,
            nth_error (OptFunctionList.functions self') fi = Some f
            /\ nth_error css fi = Some cs
            /\ cs <> []
            /\ In var (positions rf (OptFunction.var_names_float f))
            /\ c = {| OptFunctionList.call_fi := fi;
                      OptFunctionList.call_varsi :=
                        local_vector 0%Z ri vars_int
                          (OptFunction.var_names_int f);
                      OptFunctionList.call_varsf :=
                        local_vector nan rf vars_float
                          (OptFunction.var_names_float f);
                      OptFunctionList.call_vi :=
                        rank (positions rf (OptFunction.var_names_float f))
                          var;
                      OptFunctionList.call_components := cs |}
            /\ nth_error (positions rf (OptFunction.var_names_float f))
                 (OptFunctionList.call_vi c) = Some var)
    /\ StronglySorted
         (fun a b => OptFunctionList.call_fi a < OptFunctionList.call_fi b)
         calls.
Proof.
  rewrite initialize_compiled. cbn [snd]. cbv zeta.
  intros Hli Hlf Hblocks.
  eexists. eexists. split; [|split].
  - exact (@ana_deriv_calls_compiled F PR nan verbosity self vars_int
             vars_float var components rs Hli Hlf Hblocks).
  - intros c. rewrite delegated_In. cbn [Nat.add].
    split.
    + intros (j & f & cs & H1 & H2 & H3 & ->).
      unfold delegates in H3. apply andb_true_iff in H3.
      destruct H3 as [Hpos Hdep].
      apply Nat.ltb_lt in Hpos. apply contains_In in Hdep.
      exists j, f, cs. repeat split; try assumption.
      * intros ->. simpl in Hpos. lia.
      * cbn [delegation OptFunctionList.call_vi].
        apply nth_error_rank. exact Hdep.
    + intros (j & f & cs & H1 & H2 & H3 & H4 & -> & _).
      exists j, f, cs. repeat split; try assumption.
      unfold delegates. apply andb_true_iff. split.
      * apply Nat.ltb_lt. destruct cs; [contradiction | simpl; lia].
      * apply contains_In. exact H4.
  - apply delegated_sorted.
Qed.

(** X9. In an initialized function list whose functions return one
    value per requested component, [ana_deriv] for all components
    ([components] is [None]) returns [n_components()] entries, the
    blocks of the functions in registration order with no entry left
    over; the block of a function has as many entries as the function
    has components and answers the offsets of the function's ledger
    range, so that [split_individual] cuts the output into the blocks.
    In any state, what [ana_deriv] returns for all components has
    [n_components()] entries. *)
Theorem ana_deriv_all_components (verbosity : nat) (self : dlist)
  (vars_int : list Z) (vars_float : list F) (var : nat)
  (rs : list (list F)) :
  let self' := snd (OptFunctionList.initialize verbosity self) in
  let sizes := OptFunctionList.sizes self' in
  length vars_int = length (OptFunctionList._vnamesi self') ->
  length vars_float = length (OptFunctionList._vnamesf self') ->
  blocks_of nan (OptFunctionList._vnamesi self')
    (OptFunctionList._vnamesf self') vars_int vars_float var
    (OptFunctionList.functions self') (selection None sizes) rs ->
  OptFunctionList.ana_deriv nan self' vars_int vars_float var None
  = Ok (concat rs)
  /\ length (concat rs) = OptFunctionList.n_components self'
  /\ selection None sizes
     = map (fun r => map Z.of_nat (seq (fst r) (snd r - fst r)))
         (offsets 0 sizes)
  /\ map (@length F) rs = sizes
  /\ OptFunctionList.split_individual self' (concat rs) = Ok rs
  /\ (forall (self0 : dlist) (d : list F),
        OptFunctionList.ana_deriv nan self0 vars_int vars_float var None
        = Ok d ->
        length d = OptFunctionList.n_components self0).
Proof.
  rewrite initialize_compiled. cbn [snd]. cbv zeta.
  intros Hli Hlf Hblocks.
  pose proof (blocks_of_lengths Hblocks) as [_ Hlens].
  assert (map (@length F) rs
          = OptFunctionList.sizes (compiled verbosity self)) as Hmap.
  { rewrite <- (selection_none_lengths
                  (OptFunctionList.sizes (compiled verbosity self)) 0).
    fold (selection None (OptFunctionList.sizes (compiled verbosity self))).
    clear Hblocks. induction Hlens as [|r cs rs' css Hr _ IH];
      [reflexivity|].
    simpl. rewrite Hr, IH. reflexivity. }
  assert (length (concat rs)
          = OptFunctionList.n_components (compiled verbosity self)) as Hlen.
  { rewrite length_concat_sum. rewrite Hmap.
    unfold OptFunctionList.n_components. rewrite sum_list_sum.
    reflexivity. }
  split; [|split; [|split; [|split; [|split]]]].
  - rewrite (@ana_deriv_compiled F PR nan verbosity self vars_int
               vars_float var None rs Hli Hlf Hblocks).
    unfold selection. rewrite selection_none_length.
    unfold OptFunctionList.n_components. rewrite sum_list_sum, Nat.sub_diag.
    cbn [repeat]. rewrite app_nil_r. reflexivity.
  - exact Hlen.
  - reflexivity.
  - exact Hmap.
  - rewrite split_individual_compiled, <- Hmap. f_equal.
    exact (slices_of_concat rs []).
  - intros self0 d Hd.
    unfold OptFunctionList.ana_deriv, OptFunctionList.ana_deriv_calls in Hd.
    match type of Hd with
    | bind ?c _ = Ok _ => destruct c as [[d' calls']|] eqn:E;
                            cbn [bind] in Hd; [|discriminate]
    end.
    inversion Hd. subst d'. apply deriv_loop_length in E.
    rewrite E. apply repeat_length.
Qed.

End DerivativesMore.

(** ** Finalization of an individual *)

Section FinalizeLoop.

Variables F PR : Type.

Variable nan : F.

Variable finalize_of :
  OptFunction.t F PR -> list Z -> list F -> PR -> nat -> res (list F).

Variable self : OptFunctionList.t F PR.

Variables ri rf : list string.

Variables (vars_int : list Z) (vars_float : list F).

Variable problem_results : PR.

Variable verbosity : nat.

Hypothesis Hsizes :
  OptFunctionList.sizes self
  = map (@OptFunction.n_components F PR) (OptFunctionList.functions self).

Hypothesis Hvars_int :
  OptFunctionList.func_vars_int self
  = map (fun f => Positions (positions ri (OptFunction.var_names_int f)))
      (OptFunctionList.functions self).

Hypothesis Hvars_float :
  OptFunctionList.func_vars_float self
  = map (fun f => Positions (positions rf (OptFunction.var_names_float f)))
      (OptFunctionList.functions self).

Hypothesis Hincl_int :
  forall f, In f (OptFunctionList.functions self) ->
            incl (OptFunction.var_names_int f) ri.

Hypothesis Hincl_float :
  forall f, In f (OptFunctionList.functions self) ->
            incl (OptFunction.var_names_float f) rf.

Hypothesis Hlen_int : length vars_int = length ri.

Hypothesis Hlen_float : length vars_float = length rf.

(** What the finalization of the function [f] returns on its local
    vectors. *)
Local Abbreviation finalized f :=
  (finalize_of f
     (local_vector 0%Z ri vars_int (OptFunction.var_names_int f))
     (local_vector nan rf vars_float (OptFunction.var_names_float f))
     problem_results verbosity).

Lemma finalize_loop_turn (pre rest : list (OptFunction.t F PR))
  (f : OptFunction.t F PR) (i0 : nat) (values : list F) :
  OptFunctionList.functions self = pre ++ f :: rest ->
  OptFunctionList.finalize_loop finalize_of self vars_int vars_float
    problem_results verbosity
    (combine (seq (length pre) (length (f :: rest))) (f :: rest)) i0 values
  = (r <- finalized f ;;
     values' <- setslice values i0 (i0 + OptFunction.n_components f) r ;;
     OptFunctionList.finalize_loop finalize_of self vars_int vars_float
       problem_results verbosity
       (combine (seq (length (pre ++ [f])) (length rest)) rest)
       (i0 + OptFunction.n_components f) values')%py.
Proof.
  intros Hfs. rewrite combine_seq_cons.
  cbn [OptFunctionList.finalize_loop].
  assert (In f (OptFunctionList.functions self)) as Hin
    by (rewrite Hfs; apply in_elt).
  rewrite Hsizes, Hvars_int, Hvars_float, Hfs, !getitem_map_app.
  cbn [bind].
  rewrite (take_local_vector 0%Z _ Hlen_int (Hincl_int f Hin)).
  rewrite (take_local_vector nan _ Hlen_float (Hincl_float f Hin)).
  cbn [bind].
  replace (length (pre ++ [f])) with (S (length pre))
    by (rewrite length_app; simpl; lia).
  reflexivity.
Qed.

Lemma finalize_loop_assigned (rest pre : list (OptFunction.t F PR))
  (outs : list (list F)) (i0 : nat) (values : list F) :
  OptFunctionList.functions self = pre ++ rest ->
  Forall2
    (fun f out =>
       exists r, finalized f = Ok r
                 /\ assigned (OptFunction.n_components f) r out)
    rest outs ->
  i0 + list_sum (ledger rest) <= length values ->
  OptFunctionList.finalize_loop finalize_of self vars_int vars_float
    problem_results verbosity
    (combine (seq (length pre) (length rest)) rest) i0 values
  = Ok (firstn i0 values ++ concat outs
          ++ skipn (i0 + list_sum (ledger rest)) values).
Proof.
  revert pre outs i0 values.
  induction rest as [|f rest IH]; intros pre outs i0 values Hfs Houts Hlen.
  - inversion Houts. subst. simpl.
    rewrite Nat.add_0_r, firstn_skipn. reflexivity.
  - inversion Houts as [|f' out rest' outs' [r [Hcall Hout]] Hrest]. subst.
    rewrite (@finalize_loop_turn _ _ _ _ _ Hfs), Hcall. cbn [bind].
    unfold ledger in Hlen. simpl in Hlen.
    rewrite (@setslice_assigned F values r out i0 _)
      by (exact Hout || lia).
    cbn [bind].
    pose proof (assigned_length Hout) as Hlo.
    rewrite (IH (pre ++ [f]) outs');
      [| rewrite <- app_assoc; exact Hfs | exact Hrest
       | rewrite !length_app, length_firstn, length_skipn;
         unfold ledger; lia ].
    f_equal.
    set (i1 := i0 + OptFunction.n_components f).
    replace (firstn i0 values ++ out ++ skipn i1 values)
      with ((firstn i0 values ++ out) ++ skipn i1 values)
      by (rewrite <- app_assoc; reflexivity).
    rewrite firstn_app_exact
      by (rewrite length_app, length_firstn; subst i1; lia).
    rewrite skipn_app_exact
      by (rewrite length_app, length_firstn; subst i1; lia).
    rewrite skipn_skipn. unfold ledger. simpl.
    rewrite <- !app_assoc. do 3 f_equal.
    apply f_equal2; [subst i1; lia | reflexivity].
Qed.

End FinalizeLoop.

Section Finalize.

Variables F PR : Type.

Variable nan : F.

Variable finalize_of :
  OptFunction.t F PR -> list Z -> list F -> PR -> nat -> res (list F).

Abbreviation zlist := (OptFunctionList.t F PR).

(** The loops of [finalize_individual] and of [calc_individual] do the
    same when the functions finalize as they calculate. *)
Lemma finalize_loop_as_calc_loop (self : zlist) (vars_int : list Z)
  (vars_float : list F) (problem_results : PR) (verbosity : nat)
  (fs : list (nat * OptFunction.t F PR)) :
  (forall fi f varsi varsf, In (fi, f) fs ->
     finalize_of f varsi varsf problem_results verbosity
     = OptFunction.calc_individual f varsi varsf problem_results) ->
  forall (i0 : nat) (values : list F) (written : list (nat * nat)),
  OptFunctionList.finalize_loop finalize_of self vars_int vars_float
    problem_results verbosity fs i0 values
  = (' (values', _) <-
       OptFunctionList.calc_loop self vars_int vars_float problem_results
         fs i0 values written ;;
     Ok values')%py.
Proof.
  induction fs as [|[fi f] fs IH]; intros Hsame i0 values written.
  - reflexivity.
  - cbn [OptFunctionList.finalize_loop OptFunctionList.calc_loop].
    destruct (getitem (OptFunctionList.sizes self) fi) as [s|e];
      [|reflexivity].
    cbn [bind].
    destruct (getitem (OptFunctionList.func_vars_int self) fi) as [ixi|e];
      [|reflexivity].
    cbn [bind]. destruct (take vars_int ixi) as [varsi|e]; [|reflexivity].
    cbn [bind].
    destruct (getitem (OptFunctionList.func_vars_float self) fi)
      as [ixf|e]; [|reflexivity].
    cbn [bind]. destruct (take vars_float ixf) as [varsf|e]; [|reflexivity].
    cbn [bind].
    rewrite (Hsame fi f varsi varsf (or_introl eq_refl)).
    destruct (OptFunction.calc_individual f varsi varsf problem_results)
      as [r|e]; [|reflexivity].
    cbn [bind].
    destruct (setslice values i0 (i0 + s) r) as [values'|e]; [|reflexivity].
    cbn [bind]. apply IH.
    intros fj g a b Hin. apply (Hsame fj). right. exact Hin.
Qed.

(** X10. Whatever the state of the list, when each of its functions
    finalizes an individual as it calculates it, [finalize_individual]
    returns or raises what [calc_individual] does. *)
Theorem finalize_individual_as_calc_individual (self : zlist)
  (vars_int : list Z) (vars_float : list F) (problem_results : PR)
  (verbosity : nat) :
  (forall f varsi varsf, In f (OptFunctionList.functions self) ->
     finalize_of f varsi varsf problem_results verbosity
     = OptFunction.calc_individual f varsi varsf problem_results) ->
  OptFunctionList.finalize_individual nan finalize_of self vars_int
    vars_float problem_results verbosity
  = OptFunctionList.calc_individual nan self vars_int vars_float
      problem_results.
Proof.
  intros Hsame.
  unfold OptFunctionList.finalize_individual,
    OptFunctionList.calc_individual,
    OptFunctionList.calc_individual_written.
  apply finalize_loop_as_calc_loop.
  intros fi f varsi varsf Hin. apply Hsame.
  unfold enumerate in Hin. apply in_combine_r in Hin. exact Hin.
Qed.

(** X11. In an initialized function list, when the finalization of
    every function returns, on the function's own variable slices, a
    vector of the function's declared length or of one entry,
    [finalize_individual] returns the concatenation of what is assigned
    for each function, in registration order; it has [n_components()]
    entries and [split_individual] cuts it into the parts of the
    functions. *)
Theorem finalize_individual_concatenates (verbosity0 : nat) (self : zlist)
  (vars_int : list Z) (vars_float : list F) (problem_results : PR)
  (verbosity : nat) (outs : list (list F)) :
  let self' := snd (OptFunctionList.initialize verbosity0 self) in
  length vars_int = length (OptFunctionList._vnamesi self') ->
  length vars_float = length (OptFunctionList._vnamesf self') ->
  Forall2
    (fun f out =>
       exists r,
         finalize_of f
           (local_vector 0%Z (OptFunctionList._vnamesi self') vars_int
              (OptFunction.var_names_int f))
           (local_vector nan (OptFunctionList._vnamesf self') vars_float
              (OptFunction.var_names_float f))
           problem_results verbosity = Ok r
         /\ assigned (OptFunction.n_components f) r out)
    (OptFunctionList.functions self') outs ->
  OptFunctionList.finalize_individual nan finalize_of self' vars_int
    vars_float problem_results verbosity = Ok (concat outs)
  /\ length (concat outs) = OptFunctionList.n_components self'
  /\ OptFunctionList.split_individual self' (concat outs) = Ok outs.
Proof.
  rewrite initialize_compiled. cbn [snd]. cbv zeta.
  intros Hli Hlf Houts.
  assert (map (@length F) outs
          = OptFunctionList.sizes (compiled verbosity0 self)) as Hmap.
  { rewrite compiled_sizes. clear Hli Hlf.
    induction Houts as [|f out fs outs' [r [_ Hout]] _ IH]; [reflexivity|].
    simpl. rewrite IH, (assigned_length Hout). reflexivity. }
  split; [|split].
  - unfold OptFunctionList.finalize_individual, enumerate, full.
    rewrite (@finalize_loop_assigned F PR nan finalize_of
               (compiled verbosity0 self)
               (OptFunctionList._vnamesi (compiled verbosity0 self))
               (OptFunctionList._vnamesf (compiled verbosity0 self))
               vars_int vars_float problem_results verbosity
               (compiled_sizes verbosity0 self) eq_refl eq_refl
               (@compiled_incl_int F PR verbosity0 self)
               (@compiled_incl_float F PR verbosity0 self) Hli Hlf
               (OptFunctionList.functions (compiled verbosity0 self)) []
               outs 0 _ eq_refl Houts).
    + cbn [firstn app]. rewrite Nat.add_0_l, compiled_n_components.
      rewrite skipn_all2 by (rewrite repeat_length; lia).
      rewrite app_nil_r. reflexivity.
    + rewrite repeat_length, Nat.add_0_l, compiled_n_components. lia.
  - rewrite length_concat_sum, Hmap.
    unfold OptFunctionList.n_components. rewrite sum_list_sum.
    reflexivity.
  - rewrite split_individual_compiled, <- Hmap. f_equal.
    exact (slices_of_concat outs []).
Qed.

End Finalize.

(** ** Populations *)

Lemma happend_assoc {A : Type} (a b c : list (list A)) :
  happend (happend a b) c = happend a (happend b c).
Proof.
  revert b c. induction a as [|x a IH]; intros [|y b] [|z c];
    try reflexivity.
  unfold happend in *. cbn [combine map fst snd].
  rewrite IH, app_assoc. reflexivity.
Qed.

Lemma happend_nil_l {A : Type} (a : list (list A)) (n : nat) :
  length a <= n -> happend (repeat [] n) a = a.
Proof.
  revert n. induction a as [|x a IH]; intros n Hn.
  - destruct n; reflexivity.
  - destruct n as [|n]; [simpl in Hn; lia|].
    unfold happend in *. cbn [repeat combine map fst snd app].
    rewrite IH by (simpl in Hn; lia). reflexivity.
Qed.

Lemma happend_length {A : Type} (a b : list (list A)) :
  length a = length b -> length (happend a b) = length a.
Proof.
  intros H. unfold happend. rewrite length_map, length_combine. lia.
Qed.

Lemma happend_row_lengths {A : Type} (a b : list (list A)) (c k : nat) :
  Forall (fun r => length r = c) a ->
  Forall (fun r => length r = k) b ->
  Forall (fun r => length r = c + k) (happend a b).
Proof.
  intros Ha. revert b. induction Ha as [|x a Hx Ha IH]; intros b Hb.
  - constructor.
  - destruct Hb as [|y b Hy Hb]; [constructor|].
    unfold happend in *. cbn [combine map fst snd].
    constructor; [rewrite length_app; lia | apply IH; exact Hb].
Qed.

Lemma hstack_cons {A : Type} (n : nat) (piece : list (list A))
  (pieces : list (list (list A))) :
  hstack n (piece :: pieces) = happend piece (hstack n pieces).
Proof. reflexivity. Qed.

Lemma hstack_length {A : Type} (n : nat) (pieces : list (list (list A))) :
  Forall (fun piece => length piece = n) pieces ->
  length (hstack n pieces) = n.
Proof.
  induction 1 as [|piece pieces Hp _ IH].
  - apply repeat_length.
  - rewrite hstack_cons, happend_length; [exact Hp | rewrite IH; exact Hp].
Qed.

Lemma hstack_row_lengths {A : Type} (n : nat)
  (pieces : list (list (list A))) (sizes : list nat) :
  Forall2 (fun piece s => Forall (fun r => length r = s) piece) pieces
    sizes ->
  Forall (fun r => length r = list_sum sizes) (hstack n pieces).
Proof.
  induction 1 as [|piece s pieces sizes Hp _ IH].
  - simpl. apply Forall_forall. intros r Hr.
    apply repeat_spec in Hr. subst. reflexivity.
  - rewrite hstack_cons. simpl. apply happend_row_lengths; assumption.
Qed.

(** The pieces that were put side by side are cut out again at the
    offsets of their widths. *)
Lemma slices_of_hstack {A : Type} (n : nat) (pieces : list (list (list A)))
  (sizes : list nat) (pre : list (list A)) (c0 : nat) :
  length pre = n ->
  Forall (fun r => length r = c0) pre ->
  Forall (fun piece => length piece = n) pieces ->
  Forall2 (fun piece s => Forall (fun r => length r = s) piece) pieces
    sizes ->
  map (fun r => map (fun row => slice row (fst r) (snd r))
                  (happend pre (hstack n pieces)))
    (offsets c0 sizes)
  = pieces.
Proof.
  intros Hpre Hc0 Hn Hs. revert pre c0 Hpre Hc0 Hn.
  induction Hs as [|piece s pieces sizes Hp Hs IH];
    intros pre c0 Hpre Hc0 Hn; [reflexivity|].
  inversion Hn as [|? ? Hpn Hn']. subst.
  cbn [offsets map fst snd]. rewrite hstack_cons. f_equal.
  - pose proof (hstack_length Hn') as Hh.
    revert Hh. generalize (hstack (length pre) pieces). intros h Hh.
    clear IH Hs Hn Hn'. revert piece h Hp Hpn Hh.
    induction Hc0 as [|x pre Hx Hc0 IHp]; intros piece h Hp Hpn Hh.
    + destruct piece; [reflexivity | discriminate].
    + destruct piece as [|y piece]; [discriminate|].
      destruct h as [|z h]; [discriminate|].
      inversion Hp. subst.
      unfold happend in *. cbn [combine map fst snd]. f_equal.
      * unfold slice. rewrite skipn_app, skipn_all, Nat.sub_diag.
        cbn [skipn app].
        replace (length x + length y - length x) with (length y) by lia.
        apply firstn_app_exact. reflexivity.
      * apply IHp; [assumption | simpl in *; lia | simpl in *; lia].
  - rewrite <- happend_assoc.
    apply IH; [ | | exact Hn'].
    + rewrite happend_length; [reflexivity | lia].
    + apply happend_row_lengths; assumption.
Qed.

Lemma forallb_positions (vnames fvnames : list string) :
  incl fvnames vnames ->
  forallb (fun i => Nat.ltb i (length vnames)) (positions vnames fvnames)
  = true.
Proof.
  intros Hincl. apply forallb_forall. intros i Hi.
  pose proof (positions_in_bounds Hincl) as Hall.
  rewrite Forall_forall in Hall. apply Nat.ltb_lt, Hall, Hi.
Qed.

(** The columns of the declared names, row by row. *)
Lemma take_columns_local {A : Type} (d : A) (vnames fvnames : list string)
  (arr : Np.array A) :
  Np.well_formed arr ->
  Np.shape1 arr = length vnames ->
  incl fvnames vnames ->
  Np.take_columns arr (Positions (positions vnames fvnames))
  = Ok {| Np.shape0 := Np.shape0 arr;
          Np.shape1 := length fvnames;
          Np.rows :=
            map (fun r => local_vector d vnames r fvnames) (Np.rows arr) |}.
Proof.
  intros [_ Hrows] Hshape Hincl. unfold Np.take_columns.
  rewrite Hshape, forallb_positions by exact Hincl.
  rewrite (@comprehension_map _ _ _
             (fun r => local_vector d vnames r fvnames)).
  - cbn [bind]. unfold positions. rewrite length_map. reflexivity.
  - intros r Hr. rewrite Forall_forall in Hrows.
    apply (take_local_vector d); [|exact Hincl].
    rewrite (Hrows r Hr). exact Hshape.
Qed.

(** Assigning an array of the shape of the slice to columns that still
    hold [nan]. *)
Lemma set_columns_exact {A : Type} (nan : A) (dones : list (list A))
  (src : Np.array A) (n c0 m k : nat) :
  length dones = n ->
  Forall (fun r => length r = c0) dones ->
  Np.well_formed src ->
  Np.shape0 src = n ->
  Np.shape1 src = k ->
  k <= m ->
  Np.set_columns
    {| Np.shape0 := n; Np.shape1 := c0 + m;
       Np.rows := map (fun d => d ++ repeat nan m) dones |}
    c0 (c0 + k) src
  = Ok {| Np.shape0 := n; Np.shape1 := c0 + m;
          Np.rows :=
            map (fun d => d ++ repeat nan (m - k))
              (happend dones (Np.rows src)) |}.
Proof.
  intros Hn Hc0 [Hsn Hsk] Hs0 Hs1 Hkm. unfold Np.set_columns.
  cbn [Np.shape0 Np.shape1 Np.rows].
  rewrite (Nat.min_l c0) by lia. rewrite (Nat.min_l (c0 + k)) by lia.
  rewrite (Nat.max_r c0 (c0 + k)) by lia.
  replace (c0 + k - c0) with k by lia.
  rewrite Hs0, Hs1, !Nat.eqb_refl. cbn [orb andb].
  do 2 f_equal. rewrite Hs0 in Hsn. rewrite Hs1 in Hsk.
  clear Hs0 Hs1. subst n.
  revert Hsn Hsk. generalize (Np.rows src). intros srows Hsn Hsk.
  revert srows Hsn Hsk.
  induction Hc0 as [|x dones Hx Hc0 IH]; intros srows Hsn Hsk.
  - reflexivity.
  - destruct srows as [|y srows]; [discriminate|].
    inversion Hsk. subst.
    unfold happend in *. cbn [combine map fst snd]. f_equal.
    + rewrite firstn_app_exact by reflexivity.
      replace (length x + length y) with (length x + length y + 0) by lia.
      rewrite <- Nat.add_assoc, skipn_app_exact by reflexivity.
      rewrite Nat.add_0_r, skipn_repeat, <- app_assoc. reflexivity.
    + apply IH; [simpl in Hsn; lia | assumption].
Qed.

Section PopulationLoop.

Variables F PR : Type.

Variable nan : F.

Variable call :
  OptFunction.t F PR -> Np.array Z -> Np.array F -> res (Np.array F).

Variable self : OptFunctionList.t F PR.

Variables ri rf : list string.

Variables (vars_int : Np.array Z) (vars_float : Np.array F).

Hypothesis Hsizes :
  OptFunctionList.sizes self
  = map (@OptFunction.n_components F PR) (OptFunctionList.functions self).

Hypothesis Hvars_int :
  OptFunctionList.func_vars_int self
  = map (fun f => Positions (positions ri (OptFunction.var_names_int f)))
      (OptFunctionList.functions self).

Hypothesis Hvars_float :
  OptFunctionList.func_vars_float self
  = map (fun f => Positions (positions rf (OptFunction.var_names_float f)))
      (OptFunctionList.functions self).

Hypothesis Hincl_int :
  forall f, In f (OptFunctionList.functions self) ->
            incl (OptFunction.var_names_int f) ri.

Hypothesis Hincl_float :
  forall f, In f (OptFunctionList.functions self) ->
            incl (OptFunction.var_names_float f) rf.

Hypothesis Hwf_int : Np.well_formed vars_int.

Hypothesis Hwf_float : Np.well_formed vars_float.

Hypothesis Hlen_int : Np.shape1 vars_int = length ri.

Hypothesis Hlen_float : Np.shape1 vars_float = length rf.

(** The local arrays of the function [f]. *)
Local Abbreviation columns_int f :=
  {| Np.shape0 := Np.shape0 vars_int;
     Np.shape1 := length (OptFunction.var_names_int f);
     Np.rows :=
       map (fun r => local_vector 0%Z ri r (OptFunction.var_names_int f))
         (Np.rows vars_int) |}.

Local Abbreviation columns_float f :=
  {| Np.shape0 := Np.shape0 vars_float;
     Np.shape1 := length (OptFunction.var_names_float f);
     Np.rows :=
       map (fun r => local_vector nan rf r (OptFunction.var_names_float f))
         (Np.rows vars_float) |}.

Lemma population_loop_stacks (rest pre : list (OptFunction.t F PR))
  (outs : list (Np.array F)) (n c0 m : nat) (dones : list (list F)) :
  OptFunctionList.functions self = pre ++ rest ->
  Forall2
    (fun f out =>
       call f (columns_int f) (columns_float f) = Ok out
       /\ Np.well_formed out
       /\ Np.shape0 out = n
       /\ Np.shape1 out = OptFunction.n_components f)
    rest outs ->
  length dones = n ->
  Forall (fun r => length r = c0) dones ->
  list_sum (ledger rest) <= m ->
  OptFunctionList.population_loop call self vars_int vars_float
    (combine (seq (length pre) (length rest)) rest) c0
    {| Np.shape0 := n; Np.shape1 := c0 + m;
       Np.rows := map (fun d => d ++ repeat nan m) dones |}
  = Ok {| Np.shape0 := n; Np.shape1 := c0 + m;
          Np.rows :=
            map (fun d => d ++ repeat nan (m - list_sum (ledger rest)))
              (happend dones (hstack n (map (@Np.rows F) outs))) |}.
Proof.
  revert pre outs c0 m dones.
  induction rest as [|f rest IH];
    intros pre outs c0 m dones Hfs Houts Hn Hc0 Hm.
  - inversion Houts. subst. cbn [OptFunctionList.population_loop combine
      seq length map]. unfold ledger. cbn [map list_sum fold_right].
    rewrite Nat.sub_0_r. do 3 f_equal.
    unfold hstack. cbn [fold_right].
    clear Hc0 Hfs Houts. induction dones as [|d dones IHd]; [reflexivity|].
    unfold happend in *. cbn [length repeat combine map fst snd].
    rewrite app_nil_r. f_equal. exact IHd.
  - inversion Houts
      as [|f' out rest' outs' (Hcall & Hwf & Hs0 & Hs1) Hrest]. subst.
    rewrite combine_seq_cons. cbn [OptFunctionList.population_loop].
    assert (In f (OptFunctionList.functions self)) as Hin
      by (rewrite Hfs; apply in_elt).
    rewrite Hsizes, Hvars_int, Hvars_float, Hfs, !getitem_map_app.
    cbn [bind].
    rewrite (take_columns_local 0%Z Hwf_int Hlen_int (Hincl_int f Hin)).
    rewrite (take_columns_local nan Hwf_float Hlen_float
               (Hincl_float f Hin)).
    cbn [bind]. rewrite Hcall. cbn [bind].
    unfold ledger in Hm. simpl in Hm.
    rewrite (@set_columns_exact F nan dones out (length dones) c0 m _
               eq_refl Hc0 Hwf Hs0 Hs1) by lia.
    cbn [bind].
    destruct Hwf as [Hrows_n Hrows_k].
    replace (S (length pre)) with (length (pre ++ [f]))
      by (rewrite length_app; simpl; lia).
    set (k := OptFunction.n_components f) in *.
    replace (c0 + m) with ((c0 + k) + (m - k)) by lia.
    rewrite (IH (pre ++ [f]) outs' (c0 + k) (m - k)
               (happend dones (Np.rows out)));
      [| rewrite <- app_assoc; exact Hfs | exact Hrest
       | apply happend_length; lia
       | apply happend_row_lengths;
         [exact Hc0 | rewrite <- Hs1; exact Hrows_k]
       | unfold ledger; lia ].
    cbn [map]. rewrite hstack_cons, happend_assoc.
    unfold ledger. simpl. fold k.
    rewrite Nat.sub_add_distr. reflexivity.
Qed.

End PopulationLoop.

Section Population.

Variables F PR : Type.

Variable nan : F.

Abbreviation plist := (OptFunctionList.t F PR).

(** The local arrays of the function [f] of the initialized list
    [self']. *)
Local Abbreviation columns_int_in self' vars_int f :=
  {| Np.shape0 := Np.shape0 vars_int;
     Np.shape1 := length (OptFunction.var_names_int f);
     Np.rows :=
       map (fun r => local_vector 0%Z (OptFunctionList._vnamesi self') r
                       (OptFunction.var_names_int f))
         (Np.rows vars_int) |}.

Local Abbreviation columns_float_in self' vars_float f :=
  {| Np.shape0 := Np.shape0 vars_float;
     Np.shape1 := length (OptFunction.var_names_float f);
     Np.rows :=
       map (fun r => local_vector nan (OptFunctionList._vnamesf self') r
                       (OptFunction.var_names_float f))
         (Np.rows vars_float) |}.

(** The functions return arrays [outs] of [n] rows and of their declared
    numbers of components. *)
Local Abbreviation well_shaped call self' vars_int vars_float n outs :=
  (Forall2
     (fun f out =>
        call f (columns_int_in self' vars_int f)
          (columns_float_in self' vars_float f) = Ok out
        /\ Np.well_formed out
        /\ Np.shape0 out = n
        /\ Np.shape1 out = OptFunction.n_components f)
     (OptFunctionList.functions self') outs).

Lemma outs_rows (fs : list (OptFunction.t F PR)) (outs : list (Np.array F))
  (n : nat) (P : OptFunction.t F PR -> Np.array F -> Prop) :
  Forall2
    (fun f out =>
       P f out /\ Np.well_formed out /\ Np.shape0 out = n
       /\ Np.shape1 out = OptFunction.n_components f) fs outs ->
  Forall (fun piece => length piece = n) (map (@Np.rows F) outs)
  /\ Forall2 (fun piece s => Forall (fun r => length r = s) piece)
       (map (@Np.rows F) outs) (ledger fs).
Proof.
  induction 1 as [|f out fs outs (_ & [H1 H2] & H3 & H4) _ [IH1 IH2]].
  - split; constructor.
  - split; simpl; constructor; try assumption.
    + rewrite H1. exact H3.
    + rewrite <- H4. exact H2.
Qed.

Lemma population_loop_compiled
  (call : OptFunction.t F PR -> Np.array Z -> Np.array F
          -> res (Np.array F))
  (verbosity : nat) (self : plist) (vars_int : Np.array Z)
  (vars_float : Np.array F) (outs : list (Np.array F)) :
  let self' := compiled verbosity self in
  let n_pop := Np.shape0 vars_float in
  Np.well_formed vars_int ->
  Np.well_formed vars_float ->
  Np.shape1 vars_int = length (OptFunctionList._vnamesi self') ->
  Np.shape1 vars_float = length (OptFunctionList._vnamesf self') ->
  well_shaped call self' vars_int vars_float n_pop outs ->
  OptFunctionList.population_loop call self' vars_int vars_float
    (enumerate (OptFunctionList.functions self')) 0
    (Np.full n_pop (OptFunctionList.n_components self') nan)
  = Ok {| Np.shape0 := n_pop;
          Np.shape1 := OptFunctionList.n_components self';
          Np.rows := hstack n_pop (map (@Np.rows F) outs) |}
  /\ Np.well_formed
       {| Np.shape0 := n_pop;
          Np.shape1 := OptFunctionList.n_components self';
          Np.rows := hstack n_pop (map (@Np.rows F) outs) |}
  /\ OptFunctionList.split_population self'
       (hstack n_pop (map (@Np.rows F) outs))
     = Ok (map (@Np.rows F) outs).
Proof.
  cbv zeta. intros Hwi Hwf Hsi Hsf Houts.
  destruct (outs_rows _ Houts) as [Hn Hk].
  pose proof (hstack_length Hn) as Hlen.
  pose proof (hstack_row_lengths (Np.shape0 vars_float) Hk) as Hrows.
  rewrite compiled_n_components in Hrows.
  split; [|split].
  - assert (list_sum (ledger (OptFunctionList.functions
                                (compiled verbosity self)))
            <= OptFunctionList.n_components (compiled verbosity self))
      as Hfit by (rewrite compiled_n_components; lia).
    assert (Forall (fun r : list F => length r = 0)
              (repeat [] (Np.shape0 vars_float))) as Hnil.
    { apply Forall_forall. intros r Hr. apply repeat_spec in Hr.
      subst r. reflexivity. }
    pose proof (@population_loop_stacks F PR nan call
                  (compiled verbosity self)
                  (OptFunctionList._vnamesi (compiled verbosity self))
                  (OptFunctionList._vnamesf (compiled verbosity self))
                  vars_int vars_float
                  (compiled_sizes verbosity self) eq_refl eq_refl
                  (@compiled_incl_int F PR verbosity self)
                  (@compiled_incl_float F PR verbosity self)
                  Hwi Hwf Hsi Hsf
                  (OptFunctionList.functions (compiled verbosity self)) []
                  outs (Np.shape0 vars_float) 0
                  (OptFunctionList.n_components (compiled verbosity self))
                  (repeat [] (Np.shape0 vars_float)) eq_refl Houts
                  (repeat_length _ _) Hnil Hfit) as Hloop.
    rewrite map_repeat in Hloop. cbn [app Nat.add length] in Hloop.
    unfold enumerate, Np.full. rewrite Hloop.
    rewrite compiled_n_components, Nat.sub_diag.
    rewrite happend_nil_l by lia. do 2 f_equal.
    rewrite <- (map_id (hstack _ _)) at 2.
    apply map_ext. intros d. apply app_nil_r.
  - split; [exact Hlen | exact Hrows].
  - rewrite split_population_compiled, compiled_sizes. f_equal.
    assert (Forall (fun r : list F => length r = 0)
              (repeat [] (Np.shape0 vars_float))) as Hnil.
    { apply Forall_forall. intros r Hr. apply repeat_spec in Hr.
      subst r. reflexivity. }
    pose proof (@slices_of_hstack F (Np.shape0 vars_float)
                  (map (@Np.rows F) outs) _
                  (repeat [] (Np.shape0 vars_float)) 0
                  (repeat_length _ _) Hnil Hn Hk) as Hs.
    rewrite happend_nil_l in Hs by lia. exact Hs.
Qed.

Variable calc_population_of :
  OptFunction.t F PR -> Np.array Z -> Np.array F -> PR -> res (Np.array F).

Variable finalize_population_of :
  OptFunction.t F PR -> Np.array Z -> Np.array F -> PR -> nat
  -> res (Np.array F).

(** X12. In an initialized function list, for well-formed variable
    arrays as wide as the registries, when every function returns, on
    the columns of its own variables, a well-formed array of [n_pop]
    rows and of its declared number of components, [calc_population]
    returns the array of shape [(n_pop, n_components())] whose rows are
    the rows of the functions' arrays side by side, in registration
    order; [split_population] cuts its rows into the functions'
    arrays. *)
Theorem calc_population_stacks (verbosity : nat) (self : plist)
  (vars_int : Np.array Z) (vars_float : Np.array F) (problem_results : PR)
  (outs : list (Np.array F)) :
  let self' := snd (OptFunctionList.initialize verbosity self) in
  let n_pop := Np.shape0 vars_float in
  let values :=
    {| Np.shape0 := n_pop;
       Np.shape1 := OptFunctionList.n_components self';
       Np.rows := hstack n_pop (map (@Np.rows F) outs) |} in
  Np.well_formed vars_int ->
  Np.well_formed vars_float ->
  Np.shape1 vars_int = length (OptFunctionList._vnamesi self') ->
  Np.shape1 vars_float = length (OptFunctionList._vnamesf self') ->
  well_shaped
    (fun f varsi varsf => calc_population_of f varsi varsf problem_results)
    self' vars_int vars_float n_pop outs ->
  OptFunctionList.calc_population nan calc_population_of self' vars_int
    vars_float problem_results = Ok values
  /\ Np.well_formed values
  /\ OptFunctionList.split_population self' (Np.rows values)
     = Ok (map (@Np.rows F) outs).
Proof.
  rewrite initialize_compiled. cbn [snd]. cbv zeta.
  intros Hwi Hwf Hsi Hsf Houts.
  exact (@population_loop_compiled
           (fun f varsi varsf =>
              calc_population_of f varsi varsf problem_results)
           verbosity self vars_int vars_float outs Hwi Hwf Hsi Hsf Houts).
Qed.

(** X13. [finalize_population] does for the finalization of the
    functions what [calc_population] does for their calculation: under
    the same conditions it returns the array of shape
    [(n_pop, n_components())] whose rows are the rows of the functions'
    arrays side by side, and [split_population] cuts its rows into the
    functions' arrays. *)
Theorem finalize_population_stacks (verbosity0 : nat) (self : plist)
  (vars_int : Np.array Z) (vars_float : Np.array F) (problem_results : PR)
  (verbosity : nat) (outs : list (Np.array F)) :
  let self' := snd (OptFunctionList.initialize verbosity0 self) in
  let n_pop := Np.shape0 vars_float in
  let values :=
    {| Np.shape0 := n_pop;
       Np.shape1 := OptFunctionList.n_components self';
       Np.rows := hstack n_pop (map (@Np.rows F) outs) |} in
  Np.well_formed vars_int ->
  Np.well_formed vars_float ->
  Np.shape1 vars_int = length (OptFunctionList._vnamesi self') ->
  Np.shape1 vars_float = length (OptFunctionList._vnamesf self') ->
  well_shaped
    (fun f varsi varsf =>
       finalize_population_of f varsi varsf problem_results verbosity)
    self' vars_int vars_float n_pop outs ->
  OptFunctionList.finalize_population nan finalize_population_of self'
    vars_int vars_float problem_results verbosity = Ok values
  /\ Np.well_formed values
  /\ OptFunctionList.split_population self' (Np.rows values)
     = Ok (map (@Np.rows F) outs).
Proof.
  rewrite initialize_compiled. cbn [snd]. cbv zeta.
  intros Hwi Hwf Hsi Hsf Houts.
  exact (@population_loop_compiled
           (fun f varsi varsf =>
              finalize_population_of f varsi varsf problem_results
                verbosity)
           verbosity0 self vars_int vars_float outs Hwi Hwf Hsi Hsf Houts).
Qed.

End Population.

Section PopulationAgreement.

Variables F PR : Type.

Variable nan : F.

Abbreviation qlist := (OptFunctionList.t F PR).



End PopulationAgreement.

Lemma hstack_no_rows {A : Type} (pieces : list (list (list A))) :
  hstack 0 pieces = [].
Proof.
  induction pieces as [|piece pieces IH]; [reflexivity|].
  rewrite hstack_cons, IH. unfold happend.
  destruct piece; reflexivity.
Qed.

(** The first row of pieces side by side is their first rows one after
    the other. *)
Lemma hstack_first_row {A : Type} (n : nat) (pieces : list (list (list A))) :
  Forall (fun piece => piece <> []) pieces ->
  hstack (S n) pieces
  = concat (map (hd []) pieces) :: hstack n (map (@tl (list A)) pieces).
Proof.
  induction 1 as [|piece pieces Hp _ IH]; [reflexivity|].
  destruct piece as [|o piece]; [contradiction|].
  cbn [map hd tl concat]. rewrite !hstack_cons, IH. reflexivity.
Qed.

Lemma Forall2_right_lengths {A B : Type} (P : A -> list B -> Prop)
  (n : nat) (ps : list A) (os : list (list B)) :
  Forall2 (fun p o => P p o /\ length o = n) ps os ->
  Forall (fun r => length r = n) os.
Proof.
  induction 1 as [|p o ps os [_ Ho] _ IH]; constructor; assumption.
Qed.

Section RowByRow.

Variables F PR : Type.

Variable nan : F.

Variable calc_population_of :
  OptFunction.t F PR -> Np.array Z -> Np.array F -> PR -> res (Np.array F).

Abbreviation wlist := (OptFunctionList.t F PR).

(** What the function [f] of the initialized list [self'] returns for the
    individual [p], a row of integers and a row of floats. *)
Local Abbreviation row_result self' problem_results f p o :=
  (OptFunction.calc_individual f
     (local_vector 0%Z (OptFunctionList._vnamesi self') (fst p)
        (OptFunction.var_names_int f))
     (local_vector nan (OptFunctionList._vnamesf self') (snd p)
        (OptFunction.var_names_float f))
     problem_results = Ok o%list
   /\ length o = OptFunction.n_components f).

Lemma calc_individual_compiled (verbosity : nat) (self : wlist)
  (p : list Z * list F) (problem_results : PR) (outs : list (list F)) :
  let self' := compiled verbosity self in
  length (fst p) = length (OptFunctionList._vnamesi self') ->
  length (snd p) = length (OptFunctionList._vnamesf self') ->
  Forall2 (fun f o => row_result self' problem_results f p o)
    (OptFunctionList.functions self') outs ->
  OptFunctionList.calc_individual nan self' (fst p) (snd p) problem_results
  = Ok (concat outs).
Proof.
  cbv zeta. intros Hli Hlf Houts. unfold OptFunctionList.calc_individual.
  rewrite (@calc_individual_written_compiled F PR nan verbosity self
             (fst p) (snd p) problem_results outs Hli Hlf Houts).
  reflexivity.
Qed.

Lemma rows_side_by_side (verbosity : nat) (self : wlist)
  (problem_results : PR) (pairs : list (list Z * list F)) :
  let self' := compiled verbosity self in
  (forall p, In p pairs ->
     length (fst p) = length (OptFunctionList._vnamesi self')
     /\ length (snd p) = length (OptFunctionList._vnamesf self')) ->
  forall pieces : list (list (list F)),
  Forall2
    (fun f piece =>
       Forall2 (fun p o => row_result self' problem_results f p o) pairs
         piece)
    (OptFunctionList.functions self') pieces ->
  Forall2
    (fun p row =>
       OptFunctionList.calc_individual nan self' (fst p) (snd p)
         problem_results = Ok row)
    pairs (hstack (length pairs) pieces).
Proof.
  cbv zeta. induction pairs as [|p pairs IH]; intros Hlens pieces Hpieces.
  - rewrite hstack_no_rows. constructor.
  - assert (Forall (fun piece => piece <> []) pieces
            /\ Forall2 (fun f o =>
                          row_result (compiled verbosity self)
                            problem_results f p o)
                 (OptFunctionList.functions (compiled verbosity self))
                 (map (hd []) pieces)
            /\ Forall2
                 (fun f piece =>
                    Forall2 (fun q o =>
                               row_result (compiled verbosity self)
                                 problem_results f q o) pairs piece)
                 (OptFunctionList.functions (compiled verbosity self))
                 (map (@tl (list F)) pieces)) as (Hne & Hhd & Htl).
    { clear IH Hlens.
      induction Hpieces as [|f piece fs pieces' Hf _ IHp].
      - repeat split; constructor.
      - destruct IHp as (H1 & H2 & H3).
        inversion Hf as [|q o qs piece' Ho Hrest]. subst.
        repeat split; constructor; try assumption. discriminate. }
    cbn [length]. rewrite (hstack_first_row _ Hne). constructor.
    + destruct (Hlens p (or_introl eq_refl)) as [Hli Hlf].
      exact (@calc_individual_compiled verbosity self p problem_results
               _ Hli Hlf Hhd).
    + apply IH; [|exact Htl].
      intros q Hq. apply Hlens. right. exact Hq.
Qed.

(** X15. In an initialized function list, for well-formed variable
    arrays of equally many rows and as wide as the registries, when the
    array every function returns for the population holds, row by row,
    what the function returns for the individual of that row, a vector
    of its declared length, [calc_population] returns the array whose
    rows are what [calc_individual] returns for the individuals, row by
    row. *)
Theorem calc_population_row_by_row (verbosity : nat) (self : wlist)
  (vars_int : Np.array Z) (vars_float : Np.array F) (problem_results : PR)
  (outs : list (Np.array F)) :
  let self' := snd (OptFunctionList.initialize verbosity self) in
  let n_pop := Np.shape0 vars_float in
  let individuals := combine (Np.rows vars_int) (Np.rows vars_float) in
  Np.well_formed vars_int ->
  Np.well_formed vars_float ->
  Np.shape0 vars_int = n_pop ->
  Np.shape1 vars_int = length (OptFunctionList._vnamesi self') ->
  Np.shape1 vars_float = length (OptFunctionList._vnamesf self') ->
  Forall2
    (fun f out =>
       calc_population_of f
         {| Np.shape0 := Np.shape0 vars_int;
            Np.shape1 := length (OptFunction.var_names_int f);
            Np.rows :=
              map (fun r => local_vector 0%Z
                              (OptFunctionList._vnamesi self') r
                              (OptFunction.var_names_int f))
                (Np.rows vars_int) |}
         {| Np.shape0 := Np.shape0 vars_float;
            Np.shape1 := length (OptFunction.var_names_float f);
            Np.rows :=
              map (fun r => local_vector nan
                              (OptFunctionList._vnamesf self') r
                              (OptFunction.var_names_float f))
                (Np.rows vars_float) |}
         problem_results = Ok out
       /\ Np.shape0 out = n_pop
       /\ Np.shape1 out = OptFunction.n_components f
       /\ Forall2 (fun p o => row_result self' problem_results f p o)
            individuals (Np.rows out))
    (OptFunctionList.functions self') outs ->
  exists values,
    OptFunctionList.calc_population nan calc_population_of self' vars_int
      vars_float problem_results = Ok values
    /\ Np.shape0 values = n_pop
    /\ Np.shape1 values = OptFunctionList.n_components self'
    /\ Forall2
         (fun p row =>
            OptFunctionList.calc_individual nan self' (fst p) (snd p)
              problem_results = Ok row)
         individuals (Np.rows values).
Proof.
  rewrite initialize_compiled. cbn [snd]. cbv zeta.
  intros Hwi Hwf Hn Hsi Hsf Houts.
  assert (length (combine (Np.rows vars_int) (Np.rows vars_float))
          = Np.shape0 vars_float) as Hpairs.
  { destruct Hwi as [Hi _]. destruct Hwf as [Hf _].
    rewrite length_combine. lia. }
  assert (Forall2
            (fun f out =>
               calc_population_of f
                 {| Np.shape0 := Np.shape0 vars_int;
                    Np.shape1 := length (OptFunction.var_names_int f);
                    Np.rows :=
                      map (fun r => local_vector 0%Z
                                      (OptFunctionList._vnamesi
                                         (compiled verbosity self)) r
                                      (OptFunction.var_names_int f))
                        (Np.rows vars_int) |}
                 {| Np.shape0 := Np.shape0 vars_float;
                    Np.shape1 := length (OptFunction.var_names_float f);
                    Np.rows :=
                      map (fun r => local_vector nan
                                      (OptFunctionList._vnamesf
                                         (compiled verbosity self)) r
                                      (OptFunction.var_names_float f))
                        (Np.rows vars_float) |}
                 problem_results = Ok out
               /\ Np.well_formed out
               /\ Np.shape0 out = Np.shape0 vars_float
               /\ Np.shape1 out = OptFunction.n_components f)
            (OptFunctionList.functions (compiled verbosity self)) outs
          /\ Forall2
               (fun f piece =>
                  Forall2 (fun p o =>
                             row_result (compiled verbosity self)
                               problem_results f p o)
                    (combine (Np.rows vars_int) (Np.rows vars_float))
                    piece)
               (OptFunctionList.functions (compiled verbosity self))
               (map (@Np.rows F) outs)) as [Hshaped Hrowwise].
  { clear Hsi Hsf. induction Houts
      as [|f out fs outs' (Hcall & Hs0 & Hs1 & Hrows) _ [IH1 IH2]].
    - split; constructor.
    - split; constructor; try assumption.
      repeat split; try assumption.
      + rewrite Hs0, <- Hpairs. symmetry.
        eapply Forall2_length. exact Hrows.
      + rewrite Hs1. exact (Forall2_right_lengths _ Hrows). }
  destruct (@population_loop_compiled F PR nan
              (fun f varsi varsf =>
                 calc_population_of f varsi varsf problem_results)
              verbosity self vars_int vars_float outs Hwi Hwf Hsi Hsf
              Hshaped) as (Hrun & _ & _).
  eexists. split; [exact Hrun|]. cbn [Np.shape0 Np.shape1 Np.rows].
  split; [reflexivity|]. split; [reflexivity|].
  rewrite <- Hpairs. apply rows_side_by_side; [|exact Hrowwise].
  intros p Hp. destruct Hwi as [_ Hri]. destruct Hwf as [_ Hrf].
  rewrite Forall_forall in Hri, Hrf.
  split.
  - rewrite <- Hsi. apply Hri. eapply in_combine_l.
    rewrite <- surjective_pairing. exact Hp.
  - rewrite <- Hsf. apply Hrf. eapply in_combine_r.
    rewrite <- surjective_pairing. exact Hp.
Qed.

End RowByRow.

(** ** More theorems on the concrete function lists *)

(** A list that holds [A] and was not initialized. *)
Lemma use_before_initialize_raises_witness :
  OptFunctionList.split_individual (Demo.registered [Demo.A_x]) [1; 2; 3]
  = Raise IndexError
  /\ OptFunctionList.calc_individual PrimFloat.nan
       (Demo.registered [Demo.A_x]) [] [Demo.ten] tt
     = Raise IndexError
  /\ OptFunctionList.ana_deriv PrimFloat.nan (Demo.registered [Demo.A_x])
       [] [Demo.ten] 0 None
     = Raise IndexError.
Proof.
  destruct (@use_before_initialize_raises PrimFloat.float unit
              PrimFloat.nan Demo.p "flist" [Demo.A_x] [] [Demo.ten] tt 0
              None nat [1; 2; 3] [[1; 2; 3]])
    as (H1 & _ & H3 & H4).
  - discriminate.
  - split; [exact H1|]. split; [exact H3 | exact H4].
Defined.

(** The values of [A] and [B] are cut apart again. *)
Lemma split_individual_of_calc_individual_witness :
  exists values,
    OptFunctionList.calc_individual PrimFloat.nan Demo.ab []
      [Demo.ten; Demo.twenty] tt = Ok values
    /\ OptFunctionList.split_individual Demo.ab values
       = Ok [[Demo.ten]; [Demo.twenty; PrimFloat.zero]].
Proof.
  apply (@split_individual_of_calc_individual PrimFloat.float unit
           PrimFloat.nan 0 (Demo.registered [Demo.A_x; Demo.B_y]) []
           [Demo.ten; Demo.twenty] tt
           [[Demo.ten]; [Demo.twenty; PrimFloat.zero]]).
  - reflexivity.
  - reflexivity.
  - repeat constructor.
Defined.

(** A function of two components that returns no value. *)
Lemma calc_individual_rejects_wrong_length_witness :
  OptFunctionList.calc_individual PrimFloat.nan
    (Demo.build [Demo.A_x; Demo.short]) [] [Demo.ten; Demo.twenty] tt
  = Raise (ValueError "could not broadcast input array").
Proof.
  apply (@calc_individual_rejects_wrong_length PrimFloat.float unit
           PrimFloat.nan 0 (Demo.registered [Demo.A_x; Demo.short]) []
           [Demo.ten; Demo.twenty] tt [Demo.held Demo.A_x] [] Demo.short
           [] [[Demo.ten]]).
  - reflexivity.
  - reflexivity.
  - reflexivity.
  - constructor; [|constructor].
    exists [Demo.ten]. split; [reflexivity|]. left. split; reflexivity.
  - reflexivity.
  - discriminate.
  - discriminate.
Defined.

(** A function of two components that returns one value. *)
Lemma calc_individual_broadcasts_witness :
  OptFunctionList.calc_individual PrimFloat.nan
    (Demo.build [Demo.A_x; Demo.single_valued]) []
    [Demo.ten; Demo.twenty] tt
  = Ok [Demo.ten; Demo.twenty; Demo.twenty].
Proof.
  destruct (@calc_individual_broadcasts PrimFloat.float unit
              PrimFloat.nan 0
              (Demo.registered [Demo.A_x; Demo.single_valued]) []
              [Demo.ten; Demo.twenty] tt
              [[Demo.ten]; [Demo.twenty; Demo.twenty]]) as [H _].
  - reflexivity.
  - reflexivity.
  - constructor; [|constructor; [|constructor]].
    + exists [Demo.ten]. split; [reflexivity|]. left. split; reflexivity.
    + exists [Demo.twenty]. split; [reflexivity|]. right.
      exists Demo.twenty. split; reflexivity.
  - exact H.
Defined.

(** The component names of [A] and [B]. *)
Lemma component_names_follow_ledger_witness :
  OptFunctionList._cnames (Demo.registered [Demo.A_x; Demo.B_y])
  = ["A"; "B"; "B"]%string
  /\ OptFunctionList.n_components Demo.ab = 3
  /\ OptFunctionList.split_individual Demo.ab ["A"; "B"; "B"]%string
     = Ok [["A"]; ["B"; "B"]]%string.
Proof.
  destruct (@component_names_follow_ledger PrimFloat.float unit 0 Demo.p
              "flist" [Demo.A_x; Demo.B_y]) as (H1 & H2 & H3).
  - intros f [<-|[<-|[]]]; reflexivity.
  - intros f [<-|[<-|[]]]; reflexivity.
  - split; [exact H1|]. split; [symmetry; exact H2 | exact H3].
Defined.

(** The calls for the components [[4; 7; 2; 0; 1]] and a variable of the
    second and the third function. *)
Lemma ana_deriv_delegations_witness :
  exists d calls,
    OptFunctionList.ana_deriv_calls PrimFloat.nan Demo.abc []
      [Demo.ten; Demo.twenty; Demo.thirty] 2 (Some [4; 7; 2; 0; 1]%Z)
    = Ok (d, calls)
    /\ map (@OptFunctionList.call_fi PrimFloat.float) calls = [1; 2]
    /\ StronglySorted
         (fun a b => OptFunctionList.call_fi a < OptFunctionList.call_fi b)
         calls.
Proof.
  destruct (@ana_deriv_delegations PrimFloat.float unit PrimFloat.nan 0
              (Demo.registered [Demo.A_xz; Demo.B_y; Demo.C_yx]) []
              [Demo.ten; Demo.twenty; Demo.thirty] 2
              (Some [4; 7; 2; 0; 1]%Z)
              [[PrimFloat.nan]; [Demo.slope 2; Demo.slope 1];
               [Demo.slope 4]])
    as (d & calls & H1 & _ & H3).
  - reflexivity.
  - reflexivity.
  - repeat constructor.
  - exists d, calls. split; [exact H1|]. split; [|exact H3].
    change (OptFunctionList.ana_deriv_calls PrimFloat.nan Demo.abc []
              [Demo.ten; Demo.twenty; Demo.thirty] 2
              (Some [4; 7; 2; 0; 1]%Z) = Ok (d, calls)) in H1.
    injection H1 as _ <-. reflexivity.
Defined.

(** The derivative of all components of [A] and [B] for [y]. *)
Lemma ana_deriv_all_components_witness :
  OptFunctionList.ana_deriv PrimFloat.nan Demo.ab []
    [Demo.ten; Demo.twenty] 1 None
  = Ok [PrimFloat.nan; Demo.slope 1; Demo.slope 2]
  /\ OptFunctionList.split_individual Demo.ab
       [PrimFloat.nan; Demo.slope 1; Demo.slope 2]
     = Ok [[PrimFloat.nan]; [Demo.slope 1; Demo.slope 2]].
Proof.
  destruct (@ana_deriv_all_components PrimFloat.float unit PrimFloat.nan 0
              (Demo.registered [Demo.A_x; Demo.B_y]) []
              [Demo.ten; Demo.twenty] 1
              [[PrimFloat.nan]; [Demo.slope 1; Demo.slope 2]])
    as (H1 & _ & _ & _ & H5 & _).
  - reflexivity.
  - reflexivity.
  - repeat constructor.
  - split; [exact H1 | exact H5].
Defined.

(** [A] and [B] finalize as they calculate. *)
Lemma finalize_individual_as_calc_individual_witness :
  OptFunctionList.finalize_individual PrimFloat.nan Demo.finalize_of
    Demo.ab [] [Demo.ten; Demo.twenty] tt 1
  = OptFunctionList.calc_individual PrimFloat.nan Demo.ab []
      [Demo.ten; Demo.twenty] tt.
Proof.
  apply (@finalize_individual_as_calc_individual PrimFloat.float unit
           PrimFloat.nan Demo.finalize_of Demo.ab []
           [Demo.ten; Demo.twenty] tt 1).
  intros f varsi varsf _. reflexivity.
Defined.

Lemma finalize_individual_concatenates_witness :
  OptFunctionList.finalize_individual PrimFloat.nan Demo.finalize_of
    Demo.ab [] [Demo.ten; Demo.twenty] tt 1
  = Ok [Demo.ten; Demo.twenty; PrimFloat.zero]
  /\ OptFunctionList.split_individual Demo.ab
       [Demo.ten; Demo.twenty; PrimFloat.zero]
     = Ok [[Demo.ten]; [Demo.twenty; PrimFloat.zero]].
Proof.
  destruct (@finalize_individual_concatenates PrimFloat.float unit
              PrimFloat.nan Demo.finalize_of 0
              (Demo.registered [Demo.A_x; Demo.B_y]) []
              [Demo.ten; Demo.twenty] tt 1
              [[Demo.ten]; [Demo.twenty; PrimFloat.zero]])
    as (H1 & _ & H3).
  - reflexivity.
  - reflexivity.
  - constructor; [|constructor; [|constructor]].
    + exists [Demo.ten]. split; [reflexivity|]. left. split; reflexivity.
    + exists [Demo.twenty; PrimFloat.zero]. split; [reflexivity|].
      left. split; reflexivity.
  - split; [exact H1 | exact H3].
Defined.

(** Two individuals: the values of [A] and [B] for each, side by side. *)
Lemma calc_population_stacks_witness :
  OptFunctionList.calc_population PrimFloat.nan Demo.calc_population_of
    Demo.ab Demo.no_ints Demo.two_floats tt
  = Ok {| Np.shape0 := 2; Np.shape1 := 3;
          Np.rows := [[Demo.ten; Demo.twenty; PrimFloat.zero];
                      [Demo.thirty; Demo.ten; PrimFloat.zero]] |}
  /\ OptFunctionList.split_population Demo.ab
       [[Demo.ten; Demo.twenty; PrimFloat.zero];
        [Demo.thirty; Demo.ten; PrimFloat.zero]]
     = Ok [[[Demo.ten]; [Demo.thirty]];
           [[Demo.twenty; PrimFloat.zero]; [Demo.ten; PrimFloat.zero]]].
Proof.
  destruct (@calc_population_stacks PrimFloat.float unit PrimFloat.nan
              Demo.calc_population_of 0
              (Demo.registered [Demo.A_x; Demo.B_y]) Demo.no_ints
              Demo.two_floats tt
              [{| Np.shape0 := 2; Np.shape1 := 1;
                  Np.rows := [[Demo.ten]; [Demo.thirty]] |};
               {| Np.shape0 := 2; Np.shape1 := 2;
                  Np.rows := [[Demo.twenty; PrimFloat.zero];
                              [Demo.ten; PrimFloat.zero]] |}])
    as (H1 & _ & H3).
  - split; [reflexivity | repeat constructor].
  - split; [reflexivity | repeat constructor].
  - reflexivity.
  - reflexivity.
  - constructor; [|constructor; [|constructor]];
      (split; [reflexivity|]); (split; [|split; reflexivity]);
      (split; [reflexivity | repeat constructor]).
  - split; [exact H1 | exact H3].
Defined.

Lemma finalize_population_stacks_witness :
  OptFunctionList.finalize_population PrimFloat.nan
    Demo.finalize_population_of Demo.ab Demo.no_ints Demo.two_floats tt 1
  = Ok {| Np.shape0 := 2; Np.shape1 := 3;
          Np.rows := [[Demo.ten; Demo.twenty; PrimFloat.zero];
                      [Demo.thirty; Demo.ten; PrimFloat.zero]] |}.
Proof.
  destruct (@finalize_population_stacks PrimFloat.float unit PrimFloat.nan
              Demo.finalize_population_of 0
              (Demo.registered [Demo.A_x; Demo.B_y]) Demo.no_ints
              Demo.two_floats tt 1
              [{| Np.shape0 := 2; Np.shape1 := 1;
                  Np.rows := [[Demo.ten]; [Demo.thirty]] |};
               {| Np.shape0 := 2; Np.shape1 := 2;
                  Np.rows := [[Demo.twenty; PrimFloat.zero];
                              [Demo.ten; PrimFloat.zero]] |}])
    as (H1 & _ & _).
  - split; [reflexivity | repeat constructor].
  - split; [reflexivity | repeat constructor].
  - reflexivity.
  - reflexivity.
  - constructor; [|constructor; [|constructor]];
      (split; [reflexivity|]); (split; [|split; reflexivity]);
      (split; [reflexivity | repeat constructor]).
  - exact H1.
Defined.


(** The rows of the population are the values of its individuals. *)
Lemma calc_population_row_by_row_witness :
  exists values,
    OptFunctionList.calc_population PrimFloat.nan Demo.calc_population_of
      Demo.ab Demo.no_ints Demo.two_floats tt = Ok values
    /\ Forall2
         (fun p row =>
            OptFunctionList.calc_individual PrimFloat.nan Demo.ab (fst p)
              (snd p) tt = Ok row)
         [([], [Demo.ten; Demo.twenty]); ([], [Demo.thirty; Demo.ten])]
         (Np.rows values).
Proof.
  destruct (@calc_population_row_by_row PrimFloat.float unit PrimFloat.nan
              Demo.calc_population_of 0
              (Demo.registered [Demo.A_x; Demo.B_y]) Demo.no_ints
              Demo.two_floats tt
              [{| Np.shape0 := 2; Np.shape1 := 1;
                  Np.rows := [[Demo.ten]; [Demo.thirty]] |};
               {| Np.shape0 := 2; Np.shape1 := 2;
                  Np.rows := [[Demo.twenty; PrimFloat.zero];
                              [Demo.ten; PrimFloat.zero]] |}])
    as (values & H1 & _ & _ & H4).
  - split; [reflexivity | repeat constructor].
  - split; [reflexivity | repeat constructor].
  - reflexivity.
  - reflexivity.
  - reflexivity.
  - constructor; [|constructor; [|constructor]];
      (split; [reflexivity|]); (split; [reflexivity|]);
      (split; [reflexivity|]); repeat constructor.
  - exists values. split; [exact H1 | exact H4].
Defined.

(** ** Data of the wrong length *)

Lemma comprehension_Ok_each {A B : Type} (f : A -> res B) (l : list A)
  (r : list B) :
  comprehension f l = Ok r -> forall a, In a l -> exists b, f a = Ok b.
Proof.
  revert r. induction l as [|x l IH]; intros r H a Ha; [destruct Ha|].
  simpl in H. destruct (f x) as [b|e] eqn:E; cbn [bind] in H;
    [|discriminate].
  destruct (comprehension f l) as [bs|e]; cbn [bind] in H; [|discriminate].
  destruct Ha as [<-|Ha]; [exists b; exact E|].
  exact (IH bs eq_refl a Ha).
Qed.

Lemma take_positions_bounds {A : Type} (vals : list A) (l : list nat)
  (r : list A) :
  take vals (Positions l) = Ok r -> Forall (fun i => i < length vals) l.
Proof.
  intros H. apply Forall_forall. intros i Hi.
  destruct (comprehension_Ok_each _ _ H i Hi) as [b Hb].
  unfold getitem in Hb. apply nth_error_Some.
  destruct (nth_error vals i); [discriminate | discriminate Hb].
Qed.

Lemma take_positions_app {A : Type} (vals extra : list A) (l : list nat) :
  Forall (fun i => i < length vals) l ->
  take (vals ++ extra) (Positions l) = take vals (Positions l).
Proof.
  induction 1 as [|i l Hi _ IH]; [reflexivity|].
  unfold take in *. cbn [comprehension]. unfold getitem at 1 3.
  rewrite nth_error_app1 by exact Hi. rewrite IH. reflexivity.
Qed.

Lemma position_of_nth (l : list string) (i : nat) (v : string) :
  NoDup l -> nth_error l i = Some v -> position l v = i.
Proof.
  intros Hnd. revert i. induction Hnd as [|x l Hx Hnd IH]; intros i Hi.
  - destruct i; discriminate.
  - destruct i as [|i]; simpl in Hi.
    + inversion Hi. subst. simpl. rewrite String.eqb_refl. reflexivity.
    + simpl. destruct (String.eqb_spec x v) as [->|_].
      * exfalso. apply Hx. eapply nth_error_In. exact Hi.
      * f_equal. apply IH. exact Hi.
Qed.

Section WrongData.

Variables F PR : Type.

Variable nan : F.

Abbreviation xlist := (OptFunctionList.t F PR).

(** When the loop of [calc_individual] returns, the variables of every
    function were taken. *)
Lemma calc_loop_Ok_takes (self : xlist) (vars_int : list Z)
  (vars_float : list F) (problem_results : PR)
  (fs : list (nat * OptFunction.t F PR)) :
  forall (i0 : nat) (values : list F) (written : list (nat * nat))
    (result : list F * list (nat * nat)),
  OptFunctionList.calc_loop self vars_int vars_float problem_results fs i0
    values written = Ok result ->
  forall fi f, In (fi, f) fs ->
  exists ixi ixf varsi varsf,
    getitem (OptFunctionList.func_vars_int self) fi = Ok ixi
    /\ take vars_int ixi = Ok varsi
    /\ getitem (OptFunctionList.func_vars_float self) fi = Ok ixf
    /\ take vars_float ixf = Ok varsf.
Proof.
  induction fs as [|[fj g] fs IH];
    intros i0 values written result H fi f Hin; [destruct Hin|].
  cbn [OptFunctionList.calc_loop] in H.
  destruct (getitem (OptFunctionList.sizes self) fj) as [s|e];
    cbn [bind] in H; [|discriminate].
  destruct (getitem (OptFunctionList.func_vars_int self) fj)
    as [ixi|e] eqn:E1; cbn [bind] in H; [|discriminate].
  destruct (take vars_int ixi) as [varsi|e] eqn:E2; cbn [bind] in H;
    [|discriminate].
  destruct (getitem (OptFunctionList.func_vars_float self) fj)
    as [ixf|e] eqn:E3; cbn [bind] in H; [|discriminate].
  destruct (take vars_float ixf) as [varsf|e] eqn:E4; cbn [bind] in H;
    [|discriminate].
  destruct (OptFunction.calc_individual g varsi varsf problem_results)
    as [r|e]; cbn [bind] in H; [|discriminate].
  destruct (setslice values i0 (i0 + s) r) as [values'|e];
    cbn [bind] in H; [|discriminate].
  destruct Hin as [Heq|Hin].
  - inversion Heq. subst. exists ixi, ixf, varsi, varsf.
    repeat split; assumption.
  - exact (IH _ _ _ _ H fi f Hin).
Qed.

Lemma enumerate_In {A : Type} (l : list A) (i : nat) (a : A) :
  nth_error l i = Some a -> In (i, a) (enumerate l).
Proof.
  unfold enumerate. intros H.
  assert (forall k, In (k + i, a) (combine (seq k (length l)) l)) as Hgen.
  { revert i H. induction l as [|x l IH]; intros i H k.
    - destruct i; discriminate.
    - destruct i as [|i]; simpl in H.
      + inversion H. subst. rewrite Nat.add_0_r. left. reflexivity.
      + right. rewrite <- Nat.add_succ_comm. apply IH. exact H. }
  exact (Hgen 0).
Qed.

(** Every name of a registry belongs to a function. *)
Lemma registry_float_owner (fs : list (OptFunction.t F PR)) (v : string) :
  In v (registry_float fs) ->
  exists f, In f fs /\ In v (OptFunction.var_names_float f).
Proof.
  intros H. apply dedup_In, in_concat in H. destruct H as [l [Hl Hv]].
  apply in_map_iff in Hl. destruct Hl as [f [<- Hf]]. exists f.
  split; assumption.
Qed.

Lemma registry_int_owner (fs : list (OptFunction.t F PR)) (v : string) :
  In v (registry_int fs) ->
  exists f, In f fs /\ In v (OptFunction.var_names_int f).
Proof.
  intros H. apply dedup_In, in_concat in H. destruct H as [l [Hl Hv]].
  apply in_map_iff in Hl. destruct Hl as [f [<- Hf]]. exists f.
  split; assumption.
Qed.

(** X16. In an initialized function list, [calc_individual] returns no
    values for a vector of integer or of float variables that is
    shorter than its registry: some function's variable lies beyond the
    vector, and taking it raises. *)
Theorem calc_individual_needs_all_variables (verbosity : nat)
  (self : xlist) (vars_int : list Z) (vars_float : list F)
  (problem_results : PR) (values : list F) :
  let self' := snd (OptFunctionList.initialize verbosity self) in
  length vars_int < length (OptFunctionList._vnamesi self')
  \/ length vars_float < length (OptFunctionList._vnamesf self') ->
  OptFunctionList.calc_individual nan self' vars_int vars_float
    problem_results <> Ok values.
Proof.
  rewrite initialize_compiled. cbn [snd]. cbv zeta.
  intros Hshort Hrun.
  unfold OptFunctionList.calc_individual,
    OptFunctionList.calc_individual_written in Hrun.
  match type of Hrun with
  | bind ?c _ = Ok _ => destruct c as [result|] eqn:E;
                          cbn [bind] in Hrun; [|discriminate]
  end.
  pose proof (calc_loop_Ok_takes _ _ _ _ _ _ _ _ E) as Htakes.
  set (fs := OptFunctionList.functions (compiled verbosity self)) in *.
  destruct Hshort as [Hshort|Hshort].
  - destruct (nth_error (registry_int fs) (length vars_int)) as [v|] eqn:Ev;
      [|apply nth_error_None in Ev;
        change (OptFunctionList._vnamesi (compiled verbosity self))
          with (registry_int fs) in Hshort; lia].
    destruct (registry_int_owner fs v (nth_error_In _ _ Ev))
      as [f [Hf Hv]].
    apply In_nth_error in Hf. destruct Hf as [fi Hfi].
    destruct (Htakes fi f (enumerate_In _ _ Hfi))
      as (ixi & ixf & varsi & varsf & H1 & H2 & _ & _).
    change (OptFunctionList.func_vars_int (compiled verbosity self))
      with (map (fun f => Positions
                            (positions (registry_int fs)
                               (OptFunction.var_names_int f))) fs) in H1.
    unfold getitem in H1. rewrite nth_error_map, Hfi in H1.
    cbn [option_map] in H1. inversion H1. subst ixi.
    apply take_positions_bounds in H2. rewrite Forall_forall in H2.
    specialize (H2 (position (registry_int fs) v)
                  (in_map (position (registry_int fs)) _ v Hv)).
    rewrite (@position_of_nth (registry_int fs) _ _ (dedup_NoDup _) Ev)
      in H2.
    lia.
  - destruct (nth_error (registry_float fs) (length vars_float))
      as [v|] eqn:Ev;
      [|apply nth_error_None in Ev;
        change (OptFunctionList._vnamesf (compiled verbosity self))
          with (registry_float fs) in Hshort; lia].
    destruct (registry_float_owner fs v (nth_error_In _ _ Ev))
      as [f [Hf Hv]].
    apply In_nth_error in Hf. destruct Hf as [fi Hfi].
    destruct (Htakes fi f (enumerate_In _ _ Hfi))
      as (ixi & ixf & varsi & varsf & _ & _ & H3 & H4).
    change (OptFunctionList.func_vars_float (compiled verbosity self))
      with (map (fun f => Positions
                            (positions (registry_float fs)
                               (OptFunction.var_names_float f))) fs) in H3.
    unfold getitem in H3. rewrite nth_error_map, Hfi in H3.
    cbn [option_map] in H3. inversion H3. subst ixf.
    apply take_positions_bounds in H4. rewrite Forall_forall in H4.
    specialize (H4 (position (registry_float fs) v)
                  (in_map (position (registry_float fs)) _ v Hv)).
    rewrite (@position_of_nth (registry_float fs) _ _ (dedup_NoDup _) Ev)
      in H4.
    lia.
Qed.

End WrongData.

(** One float variable where [A] and [B] need two. *)
Lemma calc_individual_needs_all_variables_witness :
  OptFunctionList.calc_individual PrimFloat.nan Demo.ab [] [Demo.ten] tt
  <> Ok [Demo.ten; Demo.twenty; PrimFloat.zero].
Proof.
  apply (@calc_individual_needs_all_variables PrimFloat.float unit
           PrimFloat.nan 0 (Demo.registered [Demo.A_x; Demo.B_y]) []
           [Demo.ten] tt [Demo.ten; Demo.twenty; PrimFloat.zero]).
  right. vm_compute. lia.
Defined.

Section SurplusData.

Variables F PR : Type.

Variable nan : F.

Abbreviation ylist := (OptFunctionList.t F PR).

(** The loop of [calc_individual] sees of the variable vectors only what
    the index mappings take. *)
Lemma calc_loop_ext (self : ylist) (vars_int vars_int' : list Z)
  (vars_float vars_float' : list F) (problem_results : PR)
  (fs : list (nat * OptFunction.t F PR)) :
  (forall fi f ixi, In (fi, f) fs ->
     getitem (OptFunctionList.func_vars_int self) fi = Ok ixi ->
     take vars_int' ixi = take vars_int ixi) ->
  (forall fi f ixf, In (fi, f) fs ->
     getitem (OptFunctionList.func_vars_float self) fi = Ok ixf ->
     take vars_float' ixf = take vars_float ixf) ->
  forall (i0 : nat) (values : list F) (written : list (nat * nat)),
  OptFunctionList.calc_loop self vars_int' vars_float' problem_results fs
    i0 values written
  = OptFunctionList.calc_loop self vars_int vars_float problem_results fs
      i0 values written.
Proof.
  induction fs as [|[fj g] fs IH]; intros Hi Hf i0 values written;
    [reflexivity|].
  cbn [OptFunctionList.calc_loop].
  destruct (getitem (OptFunctionList.sizes self) fj) as [s|e];
    cbn [bind]; [|reflexivity].
  destruct (getitem (OptFunctionList.func_vars_int self) fj)
    as [ixi|e] eqn:E1; cbn [bind]; [|reflexivity].
  rewrite (Hi fj g ixi (or_introl eq_refl) E1).
  destruct (take vars_int ixi) as [varsi|e]; cbn [bind]; [|reflexivity].
  destruct (getitem (OptFunctionList.func_vars_float self) fj)
    as [ixf|e] eqn:E3; cbn [bind]; [|reflexivity].
  rewrite (Hf fj g ixf (or_introl eq_refl) E3).
  destruct (take vars_float ixf) as [varsf|e]; cbn [bind]; [|reflexivity].
  destruct (OptFunction.calc_individual g varsi varsf problem_results)
    as [r|e]; cbn [bind]; [|reflexivity].
  destruct (setslice values i0 (i0 + s) r) as [values'|e];
    cbn [bind]; [|reflexivity].
  apply IH.
  - intros fi f ix Hin. apply (Hi fi f ix). right. exact Hin.
  - intros fi f ix Hin. apply (Hf fi f ix). right. exact Hin.
Qed.

(** X17. In an initialized function list, [calc_individual] reads of the
    variable vectors only the leading entries that the registries name:
    entries appended to vectors that are at least as long as the
    registries change neither the values nor an error. *)
Theorem calc_individual_ignores_surplus (verbosity : nat) (self : ylist)
  (vars_int extra_int : list Z) (vars_float extra_float : list F)
  (problem_results : PR) :
  let self' := snd (OptFunctionList.initialize verbosity self) in
  length (OptFunctionList._vnamesi self') <= length vars_int ->
  length (OptFunctionList._vnamesf self') <= length vars_float ->
  OptFunctionList.calc_individual nan self' (vars_int ++ extra_int)
    (vars_float ++ extra_float) problem_results
  = OptFunctionList.calc_individual nan self' vars_int vars_float
      problem_results.
Proof.
  rewrite initialize_compiled. cbn [snd]. cbv zeta.
  intros Hint Hfloat.
  unfold OptFunctionList.calc_individual,
    OptFunctionList.calc_individual_written.
  set (fs := OptFunctionList.functions (compiled verbosity self)) in *.
  rewrite (@calc_loop_ext (compiled verbosity self) vars_int
             (vars_int ++ extra_int) vars_float
             (vars_float ++ extra_float) problem_results (enumerate fs));
    [reflexivity| |].
  - intros fi f ixi _ Hix.
    change (OptFunctionList.func_vars_int (compiled verbosity self))
      with (map (fun f => Positions
                            (positions (registry_int fs)
                               (OptFunction.var_names_int f))) fs) in Hix.
    unfold getitem in Hix. rewrite nth_error_map in Hix.
    destruct (nth_error fs fi) as [g|] eqn:Eg; cbn [option_map] in Hix;
      [|discriminate].
    inversion Hix. subst ixi. apply take_positions_app.
    eapply Forall_impl;
      [|apply positions_in_bounds, incl_registry_int,
          (nth_error_In _ _ Eg)].
    cbv beta. intros i Hi.
    change (OptFunctionList._vnamesi (compiled verbosity self))
      with (registry_int fs) in Hint.
    lia.
  - intros fi f ixf _ Hix.
    change (OptFunctionList.func_vars_float (compiled verbosity self))
      with (map (fun f => Positions
                            (positions (registry_float fs)
                               (OptFunction.var_names_float f))) fs) in Hix.
    unfold getitem in Hix. rewrite nth_error_map in Hix.
    destruct (nth_error fs fi) as [g|] eqn:Eg; cbn [option_map] in Hix;
      [|discriminate].
    inversion Hix. subst ixf. apply take_positions_app.
    eapply Forall_impl;
      [|apply positions_in_bounds, incl_registry_float,
          (nth_error_In _ _ Eg)].
    cbv beta. intros i Hi.
    change (OptFunctionList._vnamesf (compiled verbosity self))
      with (registry_float fs) in Hfloat.
    lia.
Qed.

(** X18. In an initialized function list, [split_individual] and
    [split_population] never raise, whatever the length of the data:
    they return one piece per function, and the pieces side by side are
    the first [n_components()] entries of the data, of every row for a
    population; surplus entries are dropped and a short vector gives
    short pieces. *)
Theorem split_truncates (A : Type) (verbosity : nat) (self : ylist)
  (d : list A) (rows : list (list A)) :
  let self' := snd (OptFunctionList.initialize verbosity self) in
  let n := OptFunctionList.n_components self' in
  exists pieces ppieces,
    OptFunctionList.split_individual self' d = Ok pieces
    /\ length pieces = OptFunctionList.n_functions self'
    /\ concat pieces = firstn n d
    /\ OptFunctionList.split_population self' rows = Ok ppieces
    /\ length ppieces = OptFunctionList.n_functions self'
    /\ hstack (length rows) ppieces = map (firstn n) rows.
Proof.
  rewrite initialize_compiled. cbn [snd]. cbv zeta.
  unfold OptFunctionList.n_components. rewrite sum_list_sum.
  eexists. eexists.
  split; [apply split_individual_compiled|].
  split; [rewrite length_map, offsets_length, compiled_n_functions;
          reflexivity|].
  split; [rewrite concat_slices, Nat.add_0_l; unfold slice;
          rewrite Nat.sub_0_r; reflexivity|].
  split; [apply split_population_compiled|].
  split; [rewrite length_map, offsets_length, compiled_n_functions;
          reflexivity|].
  rewrite hstack_slices, Nat.add_0_l. apply map_ext. intros row.
  unfold slice. rewrite Nat.sub_0_r. reflexivity.
Qed.

End SurplusData.

(** Two surplus float variables for [A] and [B]. *)
Lemma calc_individual_ignores_surplus_witness :
  OptFunctionList.calc_individual PrimFloat.nan Demo.ab ([] ++ [7%Z])
    ([Demo.ten; Demo.twenty] ++ [Demo.thirty; Demo.ten]) tt
  = OptFunctionList.calc_individual PrimFloat.nan Demo.ab []
      [Demo.ten; Demo.twenty] tt.
Proof.
  apply (@calc_individual_ignores_surplus PrimFloat.float unit
           PrimFloat.nan 0 (Demo.registered [Demo.A_x; Demo.B_y]) [] [7%Z]
           [Demo.ten; Demo.twenty] [Demo.thirty; Demo.ten] tt).
  - vm_compute. lia.
  - vm_compute. lia.
Defined.
